(** * The front end of My Language: lexer, parser, type model and analyzer

    A shallow embedding of the C++ front end (include/ml, src/) and the
    properties of its specification that were checked against it.

    Conventions of the embedding.
    - [std::string] is [string]; [s[i]] is [char_at s i], which yields the
      NUL character at [i = size] as [std::string::operator[]] does.
    - [uint64_t] counters ([Locus], the parser's index) are [N] with the
      wrap-around at 2^64 written out ([wrap64]).
    - A [std::unique_ptr<T>] that the code tests or may leave null is an
      [option]; dereferencing a null one is the outcome [Crash], and a
      C++ exception is the outcome [Thrown].
    - What [Error::log] writes to the error stream is collected in a log
      next to the object that writes it.
    - Loops run on fuel; running out of fuel is the separate outcome
      ([None] in the lexer, [OutOfFuel] in the parser), never a result.
      The analyzer recurses on the tree and needs none. *)

From Stdlib Require Import Bool Ascii String List NArith Arith Lia.
Import ListNotations.

Set Warnings "-register-all".

Local Open Scope string_scope.
Local Open Scope N_scope.

(** ** Source positions and diagnostics (locus.h, error.h) *)

Definition wrap64 (n : N) : N := n mod 2 ^ 64.

Record Locus : Type := mkLocus
  { line : N;
    column : N;
    index : N }.

(** [Locus(line, column)] leaves the index at 0. *)
Definition Locus2 (l c : N) : Locus := mkLocus l c 0.

(** The position of byte [i] in a source of one line. *)
Definition one_line (i : N) : Locus := mkLocus 1 (i + 1) i.

Inductive ErrorLevel : Type := Info | Warning | Error | Fatal.

(** A [basic::Error]: level, description, help text and span.  The file
    label and the copy of the source only serve rendering. *)
Record Diagnostic : Type := mkError
  { level : ErrorLevel;
    desc : string;
    help : string;
    err_start : Locus;
    err_end : Locus }.

Definition NUL : ascii := "000"%char.

(** [s[i]] for [i <= size]: the character, or NUL at [i = size]. *)
Definition char_at (s : string) (i : nat) : ascii :=
  match String.get i s with
  | Some c => c
  | None => NUL
  end.

Definition str_empty (s : string) : bool :=
  match s with
  | EmptyString => true
  | String _ _ => false
  end.

(** ** Accessors and modifiers (accessor.h, modifier.h, flags.h) *)

Inductive Accessor : Type := Public | Private | Protected.

Definition Accessor_eqb (a b : Accessor) : bool :=
  match a, b with
  | Public, Public | Private, Private | Protected, Protected => true
  | _, _ => false
  end.

Definition isacc (str : string) : bool :=
  (str =? "pub")%string || (str =? "pri")%string || (str =? "pro")%string.

Definition getacc (str : string) : Accessor :=
  if (str =? "pub")%string then Public
  else if (str =? "pri")%string then Private
  else if (str =? "pro")%string then Protected
  else Private.

Definition canAccess (member_acc accessor_acc : Accessor) : bool :=
  match member_acc with
  | Public => true
  | Private => Accessor_eqb accessor_acc Private
  | Protected =>
      Accessor_eqb accessor_acc Protected || Accessor_eqb accessor_acc Private
  end.

(** [enum class Modifier : uint8_t], a bit set. *)
Definition Modifier : Type := N.

Definition Modifier_None : Modifier := 0.
Definition Modifier_Static : Modifier := N.shiftl 1 1.
Definition Modifier_Constant : Modifier := N.shiftl 1 2.
Definition Modifier_Array : Modifier := N.shiftl 1 3.
Definition Modifier_Init : Modifier := N.shiftl 1 4.
Definition Modifier_Nullable : Modifier := N.shiftl 1 5.

Definition ismod (str : string) : bool :=
  (str =? "static")%string || (str =? "const")%string || (str =? "init")%string.

Definition getmod (str : string) : Modifier :=
  if (str =? "static")%string then Modifier_Static
  else if (str =? "const")%string then Modifier_Constant
  else if (str =? "init")%string then Modifier_Init
  else Modifier_None.

(** [hasFlag(flags, flag)] is [(flags & flag) == flag] on the underlying
    integers, for every enum that enables the bitmask operators. *)
Definition hasFlag (flags flag : N) : bool := N.land flags flag =? flag.

(** ** Syntax tables (syntax.h) *)

Module Syntax.

Local Open Scope char_scope.

Definition isWsp (c : ascii) : bool :=
  (c =? " ") || (c =? "009") || (c =? "013") || (c =? "010").

(** The [switch] on the length followed by the comparisons. *)
Definition isKwy (str : string) : bool :=
  if str_empty str then false
  else
    match String.length str with
    | 2%nat => existsb (String.eqb str) ["if"; "fn"; "in"]%string
    | 3%nat =>
        existsb (String.eqb str)
          ["for"; "let"; "cls"; "rec"; "pub"; "pri"; "pro"]%string
    | 4%nat =>
        existsb (String.eqb str)
          ["elif"; "else"; "case"; "this"; "null"; "true"]%string
    | 5%nat =>
        existsb (String.eqb str)
          ["while"; "break"; "const"; "init"; "false"]%string
    | 6%nat => existsb (String.eqb str) ["return"; "switch"]%string
    | 7%nat => existsb (String.eqb str) ["default"]%string
    | 8%nat => existsb (String.eqb str) ["continue"]%string
    | _ => false
    end.

(** The tail of every case of [opLen]: [str[1] == '\0' ? 1 : 0]. *)
Definition alone (c1 : ascii) : N := if c1 =? NUL then 1 else 0.

(** [opLen]: the [switch] on [str[0]], each case testing [str[1]]. *)
Definition opLen (str : string) : N :=
  if str_empty str then 0
  else
    let c0 := char_at str 0 in
    let c1 := char_at str 1 in
    if c0 =? "+" then
      if c1 =? "=" then 2 else if c1 =? "+" then 2 else alone c1
    else if c0 =? "-" then
      if c1 =? "=" then 2 else if c1 =? "-" then 2 else alone c1
    else if c0 =? "*" then
      if c1 =? "=" then 2 else if c1 =? "*" then 2 else alone c1
    else if c0 =? "/" then
      if c1 =? "=" then 2 else alone c1
    else if c0 =? "%" then
      if c1 =? "%" then 2 else alone c1
    else if c0 =? "=" then
      if c1 =? "=" then 2 else alone c1
    else if c0 =? "!" then
      if c1 =? "=" then 2 else alone c1
    else if c0 =? "<" then
      if c1 =? "=" then 2 else if c1 =? "<" then 2 else alone c1
    else if c0 =? ">" then
      if c1 =? "=" then 2 else if c1 =? ">" then 2 else alone c1
    else if c0 =? "." then
      if c1 =? "." then 2 else if c1 =? "=" then 2 else alone c1
    else if c0 =? "&" then
      if c1 =? "&" then 2 else alone c1
    else if c0 =? "|" then
      if c1 =? "|" then 2 else alone c1
    else if c0 =? "?" then
      if c1 =? "?" then 2 else alone c1
    else if (c0 =? "^") || (c0 =? "~") then alone c1
    else 0.

Definition isOp (str : string) : bool := negb (opLen str =? 0)%N.

Definition isDel (str : string) : bool :=
  if str_empty str then false
  else
    let c0 := char_at str 0 in
    existsb (Ascii.eqb c0) ["("; ")"; "["; "]"; "{"; "}"; ":"; ";"; "."; ","].

(** *** The operator tables as the specification lists them *)

Definition two_char_ops : list string :=
  ["+="; "++"; "-="; "--"; "*="; "**"; "/="; "%%"; "=="; "!="; "<="; "<<";
   ">="; ">>"; ".."; ".="; "&&"; "||"; "??"]%string.

Definition single_char_ops : list ascii :=
  ["+"; "-"; "*"; "/"; "%"; "="; "!"; "<"; ">"; "."; "&"; "|"; "?"; "^"; "~"].

(** [s] begins with [op]. *)
Fixpoint starts_with (op s : string) : bool :=
  match op, s with
  | EmptyString, _ => true
  | String _ _, EmptyString => false
  | String a op', String b s' => (a =? b) && starts_with op' s'
  end.

Definition begins_with_any (ops : list string) (s : string) : bool :=
  existsb (fun op => starts_with op s) ops.

Definition begins_with_single (s : string) : bool :=
  match s with
  | EmptyString => false
  | String c _ => existsb (Ascii.eqb c) single_char_ops
  end.

(** The operator length as the specification words it: 2 on a two-char
    operator prefix, 1 on a single-char operator whose next character
    does not complete a two-char operator, 0 otherwise. *)
Definition operatorLength_spec (s : string) : N :=
  if begins_with_any two_char_ops s then 2
  else if begins_with_single s then 1
  else 0.

(** The operator length the code computes, in the same vocabulary: a
    single-char operator counts only when nothing follows it (the next
    character is the terminating NUL, or a NUL byte of the string). *)
Definition operatorLength_exact (s : string) : N :=
  if begins_with_any two_char_ops s then 2
  else if begins_with_single s && (char_at s 1 =? NUL) then 1
  else 0.

End Syntax.

(** ** Tokens (token.h) *)

Inductive TokenKind : Type :=
| TNone | TInteger | TFloat | TBoolean | TCharacter | TString
| TIdentifier | TKeyword | TOperator | TDelimiter | TEof.

Definition TokenKind_eqb (a b : TokenKind) : bool :=
  match a, b with
  | TNone, TNone | TInteger, TInteger | TFloat, TFloat
  | TBoolean, TBoolean | TCharacter, TCharacter | TString, TString
  | TIdentifier, TIdentifier | TKeyword, TKeyword
  | TOperator, TOperator | TDelimiter, TDelimiter | TEof, TEof => true
  | _, _ => false
  end.

Record Token : Type := mkToken
  { tok_kind : TokenKind;
    tok_value : string;
    tok_start : Locus;
    tok_end : Locus }.

(** [Token()]: kind None, the empty value (the literal "\0" is the empty
    C string), both loci at 1:1. *)
Definition Token_default : Token :=
  mkToken TNone "" (Locus2 1 1) (Locus2 1 1).

(** ** The lexer (lexer.h, lexer.cpp) *)

Module Lexer.
Import Syntax.

(** The lexer object.  [cached_peek_] and [cached_look_] are left out:
    their dirty flags are raised by [advance] and [reset], the only
    writers of [current_.index], so a cached read always equals a fresh
    one.  [cached_value_] is kept, because [ignore] moves [start_]
    without raising [value_dirty_].  [log] collects what [Error::log]
    writes to the error stream. *)
Record t : Type := mk
  { source_ : string;
    cached_value_ : string;
    value_dirty_ : bool;
    start_ : Locus;
    current_ : Locus;
    log : list Diagnostic }.

Definition length64 (s : string) : N := N.of_nat (String.length s).

(** [std::isalpha], [std::isdigit], [std::isalnum] in the "C" locale;
    bytes above 127 are in no class. *)
Definition isalpha (c : ascii) : bool :=
  let n := N_of_ascii c in
  ((65 <=? n) && (n <=? 90)) || ((97 <=? n) && (n <=? 122)).

Definition isdigit (c : ascii) : bool :=
  let n := N_of_ascii c in (48 <=? n) && (n <=? 57).

Definition isalnum (c : ascii) : bool := isalpha c || isdigit c.

Definition isEof (lx : t) : bool :=
  length64 (source_ lx) <=? index (current_ lx).

(** [a - b] on [uint64_t]. *)
Definition sub64 (a b : N) : N := wrap64 (a + 2 ^ 64 - wrap64 b).

Definition value (lx : t) : string * t :=
  if negb (value_dirty_ lx) then (cached_value_ lx, lx)
  else
    let v :=
      substring (N.to_nat (index (start_ lx)))
        (N.to_nat (sub64 (index (current_ lx)) (index (start_ lx))))
        (source_ lx) in
    (v, mk (source_ lx) v false (start_ lx) (current_ lx) (log lx)).

Definition look (lx : t) : string :=
  substring (N.to_nat (index (current_ lx))) 1 (source_ lx).

Definition peek (lx : t) : ascii :=
  if isEof lx then NUL
  else char_at (source_ lx) (N.to_nat (index (current_ lx))).

(** [advance]; the character it returns is unused by every caller. *)
Definition advance (lx : t) : t :=
  if isEof lx then lx
  else
    let c := char_at (source_ lx) (N.to_nat (index (current_ lx))) in
    let cur := current_ lx in
    let cur' :=
      if (c =? "010")%char
      then mkLocus (wrap64 (line cur + 1)) 1 (wrap64 (index cur + 1))
      else mkLocus (line cur) (wrap64 (column cur + 1))
                   (wrap64 (index cur + 1)) in
    mk (source_ lx) (cached_value_ lx) true (start_ lx) cur' (log lx).

(** The loop of [take]; [None] when the fuel is used up. *)
Fixpoint take_loop (fuel : nat) (predicate : ascii -> bool) (lx : t)
  : option t :=
  match fuel with
  | O => None
  | S fuel' =>
      if predicate (peek lx) then
        if isEof lx then Some lx
        else take_loop fuel' predicate (advance lx)
      else Some lx
  end.

Definition loop_fuel (lx : t) : nat := S (String.length (source_ lx)).

Definition take (predicate : ascii -> bool) (lx : t) : option t :=
  take_loop (loop_fuel lx) predicate lx.

Definition ignore (lx : t) : t :=
  mk (source_ lx) (cached_value_ lx) (value_dirty_ lx) (current_ lx)
     (current_ lx) (log lx).

Definition makeToken (kind : TokenKind) (lx : t) : Token * t :=
  let '(v, lx1) := value lx in
  let start := start_ lx1 in
  let lx2 := ignore lx1 in
  (mkToken kind v start (current_ lx2), lx2).

Definition log_error (d : Diagnostic) (lx : t) : t :=
  mk (source_ lx) (cached_value_ lx) (value_dirty_ lx) (start_ lx)
     (current_ lx) (log lx ++ [d])%list.

(** A lexing rule answers with a token, or with the null pointer. *)
Definition rule : Type := t -> option (option Token * t).

Definition emit (r : Token * t) : option (option Token * t) :=
  Some (Some (fst r), snd r).

Definition lexAlpha : rule := fun lx =>
  if isalpha (peek lx) || (peek lx =? "_")%char then
    match take (fun c => isalnum c || (c =? "_")%char) lx with
    | None => None
    | Some lx1 =>
        let '(v, lx2) := value lx1 in
        if isKwy v then emit (makeToken TKeyword lx2)
        else emit (makeToken TIdentifier lx2)
    end
  else Some (None, lx).

Definition lexNumeric : rule := fun lx =>
  if isdigit (peek lx) then
    match take isdigit lx with
    | None => None
    | Some lx1 =>
        if (peek lx1 =? ".")%char then
          let i := index (current_ lx1) in
          if (wrap64 (i + 1) <? length64 (source_ lx1))
             && (char_at (source_ lx1) (N.to_nat (wrap64 (i + 1))) =? ".")%char
          then emit (makeToken TInteger lx1)
          else
            match take isdigit (advance lx1) with
            | None => None
            | Some lx2 => emit (makeToken TFloat lx2)
            end
        else emit (makeToken TInteger lx1)
    end
  else Some (None, lx).

Definition lexCharacter : rule := fun lx =>
  if (peek lx =? "'")%char then
    let lx1 := advance lx in
    let lx2 :=
      if (peek lx1 =? "\")%char then advance (advance lx1)
      else if negb (peek lx1 =? "'")%char then advance lx1
      else
        log_error
          (mkError Error "Empty character literal"
             "Add a character between the single quotes (')."
             (start_ lx1) (start_ lx1)) lx1 in
    let lx3 :=
      if negb (peek lx2 =? "'")%char then
        log_error
          (mkError Error "Unterminated character literal"
             "Add a closing single quote (') to terminate the character literal."
             (start_ lx2) (start_ lx2)) lx2
      else advance lx2 in
    emit (makeToken TCharacter lx3)
  else Some (None, lx).

Definition dquote : ascii := "034"%char.

(** The help text of the diagnostic, with its double quote. *)
Definition unterminated_string_help : string :=
  String.append "Add a closing double quote ("
    (String dquote ") to terminate the string literal.").

(** The [while] of [lexString], up to and including its [break]. *)
Fixpoint lexString_loop (fuel : nat) (lx : t) : option t :=
  match fuel with
  | O => None
  | S fuel' =>
      if negb (peek lx =? dquote)%char then
        if isEof lx then
          Some
            (log_error
               (mkError Error "Unterminated string literal"
                  unterminated_string_help (start_ lx) (start_ lx)) lx)
        else lexString_loop fuel' (advance lx)
      else Some lx
  end.

Definition lexString : rule := fun lx =>
  if (peek lx =? dquote)%char then
    let lx1 := advance lx in
    match lexString_loop (loop_fuel lx1) lx1 with
    | None => None
    | Some lx2 => emit (makeToken TString (advance lx2))
    end
  else Some (None, lx).

Definition lexOperator : rule := fun lx =>
  if isOp (look lx) then
    let lx1 := advance lx in
    let '(v, lx2) := value lx1 in
    let lx3 :=
      if isOp (String.append v (String (peek lx2) EmptyString))
      then advance lx2 else lx2 in
    emit (makeToken TOperator lx3)
  else Some (None, lx).

Definition lexDelimiter : rule := fun lx =>
  if isDel (look lx) then emit (makeToken TDelimiter (advance lx))
  else Some (None, lx).

(** Try the rules in order; the first token wins. *)
Fixpoint first_rule (rules : list rule) (lx : t) : option (option Token * t) :=
  match rules with
  | [] => Some (None, lx)
  | r :: rest =>
      match r lx with
      | None => None
      | Some (Some tok, lx') => Some (Some tok, lx')
      | Some (None, lx') => first_rule rest lx'
      end
  end.

Definition next (lx : t) : option (Token * t) :=
  match take isWsp lx with
  | None => None
  | Some lx0 =>
      let lx1 := ignore lx0 in
      if isEof lx1 then
        Some (mkToken TEof "" (current_ lx1) (current_ lx1), lx1)
      else
        match
          first_rule
            [lexAlpha; lexNumeric; lexCharacter; lexString; lexOperator;
             lexDelimiter] lx1
        with
        | None => None
        | Some (Some tok, lx2) => Some (tok, lx2)
        | Some (None, lx2) => Some (makeToken TNone lx2)
        end
  end.

(** [Lexer(source)]: the constructor. *)
Definition new (source : string) : t :=
  mk source "" true (mkLocus 0 0 0) (mkLocus 1 1 0) [].

Definition reset (lx : t) : t :=
  mk (source_ lx) (cached_value_ lx) true (mkLocus 1 1 0) (mkLocus 1 1 0)
     (log lx).

Definition is_final (kind : TokenKind) : bool :=
  TokenKind_eqb kind TEof || TokenKind_eqb kind TNone.

(** The [while (true)] of [lex]. *)
Fixpoint lex_loop (fuel : nat) (lx : t) (tokens : list Token)
  : option (list Token * t) :=
  match fuel with
  | O => None
  | S fuel' =>
      match next lx with
      | None => None
      | Some (tok, lx') =>
          let tokens' := (tokens ++ [tok])%list in
          if is_final (tok_kind tok) then Some (tokens', lx')
          else lex_loop fuel' lx' tokens'
      end
  end.

(** [lex(source)] on a lexer object: the tokens and the lexer after. *)
Definition lex (source : string) (lx : t) : option (list Token * t) :=
  let lx0 :=
    reset (mk source (cached_value_ lx) (value_dirty_ lx) (start_ lx)
              (current_ lx) (log lx)) in
  lex_loop (loop_fuel lx0) lx0 [].

(** Lexing a source with a fresh lexer: the tokens and the diagnostics. *)
Definition tokenize (source : string) : option (list Token * list Diagnostic) :=
  match lex source (new source) with
  | None => None
  | Some (tokens, lx) => Some (tokens, log lx)
  end.

(** *** The vocabulary of the progress argument *)

(** A source that a [std::string] can hold: shorter than 2^64 bytes. *)
Definition fits (lx : t) : Prop := length64 (source_ lx) < 2 ^ 64.

(** The cursor is inside the source or at its end. *)
Definition inside (lx : t) : Prop :=
  index (current_ lx) <= length64 (source_ lx).

(** [lx'] is [lx] after some reading: same source, cursor not behind. *)
Definition follows (lx lx' : t) : Prop :=
  source_ lx' = source_ lx
  /\ index (current_ lx) <= index (current_ lx')
  /\ inside lx'.

(** What is left to read. *)
Definition rest (lx : t) : nat :=
  N.to_nat (length64 (source_ lx) - index (current_ lx)).

(** [lx'] differs from [lx] only in the cache, the start and the log. *)
Definition same (lx lx' : t) : Prop :=
  source_ lx' = source_ lx /\ current_ lx' = current_ lx.

(** What a rule may answer from [lx]: no token, or a token that is
    neither Eof nor None and that took at least one character. *)
Definition answers (lx : t) (r : option (option Token * t)) : Prop :=
  exists res lx',
    r = Some (res, lx') /\ follows lx lx'
    /\ match res with
       | Some tok =>
           index (current_ lx) < index (current_ lx')
           /\ is_final (tok_kind tok) = false
       | None => True
       end.

Definition rule_ok (r : rule) : Prop :=
  forall lx, fits lx -> inside lx -> answers lx (r lx).

(** The token list [lex] builds: one final token (Eof or None), in the
    last place, and none before it. *)
Definition well_ended (tokens : list Token) : Prop :=
  exists front final,
    tokens = (front ++ [final])%list
    /\ is_final (tok_kind final) = true
    /\ Forall (fun tok => is_final (tok_kind tok) = false) front.

End Lexer.

(** ** The syntax tree (node.h, expr.h, stmt.h, decl.h, cond.h) *)

Module Ast.

Inductive LiteralType : Type :=
| LInteger | LFloat | LString | LCharacter | LBoolean | LNull.

(** Expressions.  Every node starts with its span.  A child that the
    parser may leave null (an argument, an array element, an array
    size) is an [option]. *)
Inductive Expression : Type :=
| BinaryExpression (s e : Locus) (left : Expression) (op : string)
    (right : Expression)
| UnaryExpression (s e : Locus) (op : string) (operand : Expression)
| LiteralExpression (s e : Locus) (value : string) (type : LiteralType)
| IdentifierExpression (s e : Locus) (name : string)
| ArrayIdentifierExpression (s e : Locus) (name : string)
    (size : option Expression)
| IndexExpression (s e : Locus) (array index : Expression)
| CallExpression (s e : Locus) (callee : Expression)
    (arguments : list (option Expression))
| AttributeExpression (s e : Locus) (object attribute : Expression)
| ArrayExpression (s e : Locus) (elements : list (option Expression)).

Definition expr_start (x : Expression) : Locus :=
  match x with
  | BinaryExpression s _ _ _ _ | UnaryExpression s _ _ _
  | LiteralExpression s _ _ _ | IdentifierExpression s _ _
  | ArrayIdentifierExpression s _ _ _ | IndexExpression s _ _ _
  | CallExpression s _ _ _ | AttributeExpression s _ _ _
  | ArrayExpression s _ _ => s
  end.

Definition expr_end (x : Expression) : Locus :=
  match x with
  | BinaryExpression _ e _ _ _ | UnaryExpression _ e _ _
  | LiteralExpression _ e _ _ | IdentifierExpression _ e _
  | ArrayIdentifierExpression _ e _ _ | IndexExpression _ e _ _
  | CallExpression _ e _ _ | AttributeExpression _ e _ _
  | ArrayExpression _ e _ => e
  end.

(** The [identifier] member of a declaration. *)
Record Identifier : Type := mkIdentifier
  { id_start : Locus;
    id_end : Locus;
    id_name : string }.

Record ModifierStatement : Type := mkModifier
  { mod_start : Locus;
    mod_end : Locus;
    mod_accessor : Accessor;
    mod_modifier : Modifier }.

Record VariableDeclaration : Type := mkVariableDeclaration
  { var_start : Locus;
    var_end : Locus;
    var_identifier : Identifier;
    var_type : Expression;
    var_modifier : ModifierStatement;
    var_initializer : option Expression }.

Record RecordDeclaration : Type := mkRecordDeclaration
  { rec_start : Locus;
    rec_end : Locus;
    rec_identifier : Identifier;
    rec_type : Expression;
    rec_modifier : ModifierStatement;
    rec_fields : list VariableDeclaration }.

(** Statements, following the class hierarchy: [Declaration] and
    [Conditional] are the two families below [Statement]; a case branch
    of a switch is the plain [Conditional] the parser builds. *)
Inductive Statement : Type :=
| ReturnStatement (s e : Locus) (expression : option Expression)
| BreakStatement (s e : Locus)
| ContinueStatement (s e : Locus)
| ExpressionStatement (s e : Locus) (expression : Expression)
| BlockStmt (b : BlockStatement)
| ModifierStmt (m : ModifierStatement)
| DeclarationStmt (d : Declaration)
| ConditionalStmt (c : Conditional)
with BlockStatement : Type :=
| mkBlock (s e : Locus) (statements : list Statement)
with Declaration : Type :=
| VariableDecl (v : VariableDeclaration)
| FunctionDecl (f : FunctionDeclaration)
| ClassDecl (c : ClassDeclaration)
| RecordDecl (r : RecordDeclaration)
with FunctionDeclaration : Type :=
| mkFunctionDeclaration (s e : Locus) (identifier : Identifier)
    (type : Expression) (modifier : ModifierStatement)
    (parameters : list VariableDeclaration) (body : BlockStatement)
with ClassDeclaration : Type :=
| mkClassDeclaration (s e : Locus) (identifier : Identifier)
    (type : Expression) (modifier : ModifierStatement)
    (fields : list VariableDeclaration) (methods : list FunctionDeclaration)
with Conditional : Type :=
| IfCond (i : IfConditional)
| SwitchConditional (s e : Locus) (switch_expression : Expression)
    (case_branches : list CaseBranch)
| WhileConditional (s e : Locus) (condition : Expression)
    (then_branch : BlockStatement)
| ForConditional (s e : Locus) (initializer : option Declaration)
    (condition : option Expression) (increment : option Expression)
    (then_branch : BlockStatement)
with IfConditional : Type :=
| mkIf (s e : Locus) (condition : Expression) (then_branch : BlockStatement)
    (elif_branches : list IfConditional) (else_branch : option BlockStatement)
with CaseBranch : Type :=
| mkCase (s e : Locus) (condition : option Expression)
    (then_branch : BlockStatement).

Definition block_start (b : BlockStatement) : Locus :=
  match b with mkBlock s _ _ => s end.
Definition block_end (b : BlockStatement) : Locus :=
  match b with mkBlock _ e _ => e end.
Definition block_statements (b : BlockStatement) : list Statement :=
  match b with mkBlock _ _ l => l end.

Definition if_end (i : IfConditional) : Locus :=
  match i with mkIf _ e _ _ _ _ => e end.
Definition if_start (i : IfConditional) : Locus :=
  match i with mkIf s _ _ _ _ _ => s end.
Definition case_end (c : CaseBranch) : Locus :=
  match c with mkCase _ e _ _ => e end.

Definition fn_identifier (f : FunctionDeclaration) : Identifier :=
  match f with mkFunctionDeclaration _ _ i _ _ _ _ => i end.

Definition decl_span (d : Declaration) : Locus * Locus :=
  match d with
  | VariableDecl v => (var_start v, var_end v)
  | FunctionDecl (mkFunctionDeclaration s e _ _ _ _ _) => (s, e)
  | ClassDecl (mkClassDeclaration s e _ _ _ _ _) => (s, e)
  | RecordDecl r => (rec_start r, rec_end r)
  end.

Definition cond_span (c : Conditional) : Locus * Locus :=
  match c with
  | IfCond (mkIf s e _ _ _ _) => (s, e)
  | SwitchConditional s e _ _ => (s, e)
  | WhileConditional s e _ _ => (s, e)
  | ForConditional s e _ _ _ _ => (s, e)
  end.

Definition stmt_span (st : Statement) : Locus * Locus :=
  match st with
  | ReturnStatement s e _ | BreakStatement s e | ContinueStatement s e
  | ExpressionStatement s e _ => (s, e)
  | BlockStmt (mkBlock s e _) => (s, e)
  | ModifierStmt m => (mod_start m, mod_end m)
  | DeclarationStmt d => decl_span d
  | ConditionalStmt c => cond_span c
  end.

Record Program : Type := mkProgram
  { prog_start : Locus;
    prog_end : Locus;
    prog_statements : list Statement }.

(** The type expressions the parser builds: a name, or a name with an
    array size. *)
Definition is_type_name (x : Expression) : bool :=
  match x with
  | IdentifierExpression _ _ _ | ArrayIdentifierExpression _ _ _ _ => true
  | _ => false
  end.

End Ast.

(** ** Runs of the parser and of the analyzer *)

(** How a run ends: with a result, by dereferencing a null pointer (or
    reading a vector out of range), by a C++ exception, or with the fuel
    of the model used up. *)
Inductive Outcome (A : Type) : Type :=
| Ok (a : A)
| Crash
| Thrown (what : string)
| OutOfFuel.

Arguments Ok {A} a.
Arguments Crash {A}.
Arguments Thrown {A} what.
Arguments OutOfFuel {A}.

(** A computation on an object of type [St]. *)
Definition M (St A : Type) : Type := St -> Outcome (A * St).

Definition ret {St A : Type} (a : A) : M St A := fun st => Ok (a, st).

Definition bind {St A B : Type} (m : M St A) (k : A -> M St B) : M St B :=
  fun st =>
    match m st with
    | Ok (a, st') => k a st'
    | Crash => Crash
    | Thrown w => Thrown w
    | OutOfFuel => OutOfFuel
    end.

Definition crash {St A : Type} : M St A := fun _ => Crash.
Definition throw {St A : Type} (what : string) : M St A :=
  fun _ => Thrown what.
Definition out_of_fuel {St A : Type} : M St A := fun _ => OutOfFuel.

Declare Scope run_scope.
Delimit Scope run_scope with run.
Notation "x <- m ;; k" := (bind m (fun x => k))
  (at level 61, m at next level, right associativity) : run_scope.
Notation "m ;; k" := (bind m (fun _ => k))
  (at level 61, right associativity) : run_scope.

(** [p->member] on a pointer that may be null. *)
Definition deref {St A : Type} (p : option A) : M St A :=
  match p with
  | Some a => ret a
  | None => crash
  end.

Definition when_ {St : Type} (b : bool) (m : M St unit) : M St unit :=
  if b then m else ret tt.

(** ** The parser (parser.h, parser.cpp) *)

Module Parser.
Import Ast.
Local Open Scope run_scope.

(** The parser object; [plog] collects what [Error::log] writes. *)
Record State : Type := mkState
  { tokens_ : list Token;
    index_ : N;
    last_token_ : Token;
    plog : list Diagnostic }.

Definition P (A : Type) : Type := M State A.

Definition log_error (d : Diagnostic) : P unit := fun st =>
  Ok (tt, mkState (tokens_ st) (index_ st) (last_token_ st)
            (plog st ++ [d])%list).

Definition size64 (st : State) : N := N.of_nat (List.length (tokens_ st)).

Definition token_at (st : State) (i : N) : option Token :=
  nth_error (tokens_ st) (N.to_nat i).

Definition isEof_st (st : State) : bool :=
  if size64 st <=? index_ st then true
  else if index_ st =? size64 st - 1 then
    match token_at st (index_ st) with
    | Some tok => str_empty (tok_value tok)
    | None => false
    end
  else false.

Definition isEof : P bool := fun st => Ok (isEof_st st, st).

Definition peek : P (option Token) := fun st =>
  if isEof_st st then Ok (None, st)
  else Ok (token_at st (index_ st), st).

Definition look (offset : N) : P (option Token) := fun st =>
  if size64 st <=? wrap64 (index_ st + offset) then Ok (None, st)
  else Ok (token_at st (wrap64 (index_ st + offset)), st).

Definition advance : P (option Token) := fun st =>
  if isEof_st st then Ok (None, st)
  else
    match token_at st (index_ st) with
    | Some tok =>
        Ok (Some tok,
            mkState (tokens_ st) (wrap64 (index_ st + 1)) tok (plog st))
    | None => Crash
    end.

(** [this->tokens_[this->index_ - 1].get()], read after a match. *)
Definition prev_token : P Token := fun st =>
  match token_at st (wrap64 (index_ st + 2 ^ 64 - 1)) with
  | Some tok => Ok (tok, st)
  | None => Crash
  end.

Definition last_token : P Token := fun st => Ok (last_token_ st, st).

(** [this->index_ += i], in [parseClass]. *)
Definition skip (i : N) : P unit := fun st =>
  Ok (tt, mkState (tokens_ st) (wrap64 (index_ st + i)) (last_token_ st)
            (plog st)).

Definition tokenKindName (kind : TokenKind) : string :=
  match kind with
  | TNone => "None"
  | TInteger => "Integer"
  | TFloat => "Float"
  | TBoolean => "Boolean"
  | TCharacter => "Character"
  | TString => "String"
  | TIdentifier => "Identifier"
  | TKeyword => "Keyword"
  | TOperator => "Operator"
  | TDelimiter => "Delimiter"
  | TEof => "Eof"
  end.

Definition expectToken (kind : TokenKind) (message : string)
  : P (option Token) :=
  p <- peek ;;
  tok <- deref p ;;
  eof <- isEof ;;
  when_ (negb (TokenKind_eqb (tok_kind tok) kind) || eof)
    (log_error
       (mkError Error
          ("Unexpected token: '" ++ tokenKindName (tok_kind tok) ++ "'")
          ("Expected token of kind: '" ++ tokenKindName kind ++ "' "
             ++ message)
          (tok_start tok) (tok_end tok))) ;;
  advance.

Definition expectValue (value message : string) : P (option Token) :=
  eof <- isEof ;;
  if eof then
    log_error
      (mkError Error "Unexpected end of input"
         ("Expected value: '" ++ value ++ "' " ++ message)
         (Locus2 1 1) (Locus2 1 1)) ;;
    ret None
  else
    p <- peek ;;
    when_
      (match p with
       | None => true
       | Some tok => negb (tok_value tok =? value)%string
       end)
      (log_error
         (mkError Error
            ("Unexpected value: '"
               ++ match p with Some tok => tok_value tok | None => "null" end
               ++ "'")
            ("Expected value: '" ++ value ++ "' " ++ message)
            (match p with Some tok => tok_start tok | None => Locus2 1 1 end)
            (match p with Some tok => tok_end tok | None => Locus2 1 1 end))) ;;
    advance.

(** The test [!isEof() && tok->...] shared by the [check] and [match]
    families. *)
Definition test_token (f : Token -> bool) : P bool :=
  p <- peek ;;
  eof <- isEof ;;
  if eof then ret false
  else tok <- deref p ;; ret (f tok).

Definition checkToken (kind : TokenKind) : P bool :=
  test_token (fun tok => TokenKind_eqb (tok_kind tok) kind).

Definition checkValue (value : string) : P bool :=
  test_token (fun tok => (tok_value tok =? value)%string).

Definition matchToken (kind : TokenKind) : P bool :=
  b <- checkToken kind ;;
  if b then advance ;; ret true else ret false.

Definition matchValue (value : string) : P bool :=
  b <- checkValue value ;;
  if b then advance ;; ret true else ret false.

(** [matchValue(a) || matchValue(b) || ...], left to right. *)
Fixpoint matchValues (values : list string) : P bool :=
  match values with
  | [] => ret false
  | v :: rest =>
      b <- matchValue v ;;
      if b then ret true else matchValues rest
  end.

(** *** Expressions *)

(** The loop shared by the binary levels: while one of [ops] matches,
    parse the right operand with [sub] and fold to the left. *)
Fixpoint binary_loop (fuel : nat) (ops : list string)
    (sub : P (option Expression)) (expr : option Expression)
  : P (option Expression) :=
  match fuel with
  | O => out_of_fuel
  | S fuel' =>
      m <- matchValues ops ;;
      if m then
        opToken <- prev_token ;;
        right <- sub ;;
        l <- deref expr ;;
        r <- deref right ;;
        binary_loop fuel' ops sub
          (Some (BinaryExpression (expr_start l) (expr_end r) l
                   (tok_value opToken) r))
      else ret expr
  end.

(** [do { x = parseExpression(); push } while (matchValue(","))]. *)
Fixpoint comma_list (fuel : nat) (parseExpression : P (option Expression))
    (acc : list (option Expression)) : P (list (option Expression)) :=
  match fuel with
  | O => out_of_fuel
  | S fuel' =>
      x <- parseExpression ;;
      m <- matchValue "," ;;
      if m then comma_list fuel' parseExpression (acc ++ [x])%list
      else ret (acc ++ [x])%list
  end.

Definition literal_of (t : LiteralType) (text : option string)
  : P (option Expression) :=
  token <- prev_token ;;
  ret (Some (LiteralExpression (tok_start token) (tok_end token)
               (match text with Some v => v | None => tok_value token end)
               t)).

Definition identifier_of : P (option Expression) :=
  token <- prev_token ;;
  ret (Some (IdentifierExpression (tok_start token) (tok_end token)
               (tok_value token))).

Definition parsePrimary (fuel : nat) (parseExpression : P (option Expression))
  : P (option Expression) :=
  m <- matchValue "true" ;;
  if m then literal_of LBoolean (Some "true") else
  m <- matchValue "false" ;;
  if m then literal_of LBoolean (Some "false") else
  m <- matchValue "this" ;;
  if m then identifier_of else
  m <- matchToken TInteger ;;
  if m then literal_of LInteger None else
  m <- matchToken TFloat ;;
  if m then literal_of LFloat None else
  m <- matchToken TString ;;
  if m then literal_of LString None else
  m <- matchToken TCharacter ;;
  if m then literal_of LCharacter None else
  m <- matchToken TIdentifier ;;
  if m then identifier_of else
  m <- matchValue "(" ;;
  if m then
    expr <- parseExpression ;;
    expectValue ")" "after expression" ;;
    ret expr
  else
  m <- matchValue "[" ;;
  if m then
    c <- checkValue "]" ;;
    elements <- (if c then ret [] else comma_list fuel parseExpression []) ;;
    rightBracket <- expectValue "]" "after array elements" ;;
    last <- last_token ;;
    rb <- deref rightBracket ;;
    ret (Some (ArrayExpression (tok_start last) (tok_end rb) elements))
  else
  eof <- isEof ;;
  p <- peek ;;
  if eof
     || match p with Some tok => str_empty (tok_value tok) | None => false end
  then ret None
  else
    log_error
      (mkError Error "Unexpected token" "Expected primary expression"
         (match p with Some tok => tok_start tok | None => Locus2 0 0 end)
         (match p with Some tok => tok_end tok | None => Locus2 0 0 end)) ;;
    advance ;;
    ret None.

(** The [while (true)] of [parsePostfix]. *)
Fixpoint postfix_loop (fuel : nat) (parseExpression : P (option Expression))
    (expr : option Expression) : P (option Expression) :=
  match fuel with
  | O => out_of_fuel
  | S fuel' =>
      m <- matchValue "(" ;;
      if m then
        c <- checkValue ")" ;;
        args <- (if c then ret [] else comma_list fuel' parseExpression []) ;;
        rightParen <- expectValue ")" "after function call arguments" ;;
        x <- deref expr ;;
        rp <- deref rightParen ;;
        postfix_loop fuel' parseExpression
          (Some (CallExpression (expr_start x) (tok_end rp) x args))
      else
      m <- matchValues ["++"; "--"] ;;
      if m then
        opToken <- prev_token ;;
        x <- deref expr ;;
        postfix_loop fuel' parseExpression
          (Some (UnaryExpression (expr_start x) (tok_end opToken)
                   (tok_value opToken) x))
      else
      m <- matchValue "." ;;
      if m then
        attribute <- parseExpression ;;
        x <- deref expr ;;
        a <- deref attribute ;;
        postfix_loop fuel' parseExpression
          (Some (AttributeExpression (expr_start x) (expr_end a) x a))
      else
      m <- matchValue "[" ;;
      if m then
        index <- parseExpression ;;
        expectValue "]" "after index expression" ;;
        x <- deref expr ;;
        i <- deref index ;;
        postfix_loop fuel' parseExpression
          (Some (IndexExpression (expr_start x) (expr_end i) x i))
      else ret expr
  end.

Definition parsePostfix (fuel : nat) (parseExpression : P (option Expression))
  : P (option Expression) :=
  expr <- parsePrimary fuel parseExpression ;;
  postfix_loop fuel parseExpression expr.

Fixpoint parseUnary (fuel : nat) (parseExpression : P (option Expression))
  : P (option Expression) :=
  match fuel with
  | O => out_of_fuel
  | S fuel' =>
      m <- matchValues ["!"; "-"] ;;
      if m then
        opToken <- prev_token ;;
        right <- parseUnary fuel' parseExpression ;;
        r <- deref right ;;
        ret (Some (UnaryExpression (tok_start opToken) (expr_end r)
                     (tok_value opToken) r))
      else parsePostfix fuel' parseExpression
  end.

(** A binary level of the ladder: [sub], then the loop over [ops]. *)
Definition binary_level (fuel : nat) (ops : list string)
    (sub : P (option Expression)) : P (option Expression) :=
  expr <- sub ;;
  binary_loop fuel ops sub expr.

Definition parseFactor (fuel : nat) (pe : P (option Expression)) :=
  binary_level fuel ["*"; "/"; "%"] (parseUnary fuel pe).

Definition parseTerm (fuel : nat) (pe : P (option Expression)) :=
  binary_level fuel ["+"; "-"] (parseFactor fuel pe).

Definition parseComparison (fuel : nat) (pe : P (option Expression)) :=
  binary_level fuel ["<"; ">"; "<="; ">="; ".."; "..."] (parseTerm fuel pe).

Definition parseEquality (fuel : nat) (pe : P (option Expression)) :=
  binary_level fuel ["=="; "!="] (parseComparison fuel pe).

Definition parseLogicalAnd (fuel : nat) (pe : P (option Expression)) :=
  binary_level fuel ["&&"] (parseEquality fuel pe).

Definition parseLogicalOr (fuel : nat) (pe : P (option Expression)) :=
  binary_level fuel ["||"] (parseLogicalAnd fuel pe).

Definition parseAssignment (fuel : nat) (pe : P (option Expression))
  : P (option Expression) :=
  expr <- parseLogicalOr fuel pe ;;
  m <- matchValue "=" ;;
  if m then
    right <- pe ;;
    l <- deref expr ;;
    r <- deref right ;;
    ret (Some (BinaryExpression (expr_start l) (expr_end r) l "=" r))
  else ret expr.

(** [parseExpression]; the functions of the ladder take it as [pe], its
    recursive occurrence. *)
Fixpoint parseExpression (fuel : nat) : P (option Expression) :=
  match fuel with
  | O => out_of_fuel
  | S fuel' => parseAssignment fuel' (parseExpression fuel')
  end.

(** *** Statements and declarations *)

Definition parseBreak : P Statement :=
  breakToken <- expectValue "break" "" ;;
  semicolonToken <- expectValue ";" "after break statement" ;;
  b <- deref breakToken ;;
  sc <- deref semicolonToken ;;
  ret (BreakStatement (tok_start b) (tok_end sc)).

Definition parseContinue : P Statement :=
  continueToken <- expectValue "continue" "" ;;
  semicolonToken <- expectValue ";" "after continue statement" ;;
  c <- deref continueToken ;;
  sc <- deref semicolonToken ;;
  ret (ContinueStatement (tok_start c) (tok_end sc)).

Definition parseReturn (parseExpression : P (option Expression))
  : P Statement :=
  returnToken <- expectValue "return" "to start return statement" ;;
  m <- matchValue ";" ;;
  if m then
    r <- deref returnToken ;;
    ret (ReturnStatement (tok_start r) (tok_end r) None)
  else
    expr <- parseExpression ;;
    expectValue ";" "after return expression" ;;
    r <- deref returnToken ;;
    x <- deref expr ;;
    ret (ReturnStatement (tok_start r) (expr_end x) (Some x)).

(** The [while (ismod(peek()->value))] of [parseModifier]. *)
Fixpoint modifier_loop (fuel : nat) (modifier : Modifier) (end_ : Locus)
  : P (Modifier * Locus) :=
  match fuel with
  | O => out_of_fuel
  | S fuel' =>
      p <- peek ;;
      tok <- deref p ;;
      if ismod (tok_value tok) then
        a <- advance ;;
        modToken <- deref a ;;
        modifier_loop fuel' (N.lor modifier (getmod (tok_value modToken)))
          (tok_end modToken)
      else ret (modifier, end_)
  end.

Definition parseModifier (fuel : nat) : P ModifierStatement :=
  p <- peek ;;
  first <- deref p ;;
  let start := tok_start first in
  accessor <-
    (if isacc (tok_value first) then
       a <- advance ;;
       accToken <- deref a ;;
       ret (getacc (tok_value accToken))
     else ret Private) ;;
  me <- modifier_loop fuel Modifier_None start ;;
  ret (mkModifier start (snd me) accessor (fst me)).

Definition parseExpressionStatement (parseExpression : P (option Expression))
  : P (option Statement) :=
  expr <- parseExpression ;;
  match expr with
  | None => ret None
  | Some x =>
      semicolonToken <- expectValue ";" "after expression statement" ;;
      sc <- deref semicolonToken ;;
      ret (Some (ExpressionStatement (expr_start x) (tok_end sc) x))
  end.

(** The type name with its optional [[size]] suffix, shared by variables
    and function return types. *)
Definition type_suffix (parseExpression : P (option Expression))
    (typeIdentifierToken : Token) : P Expression :=
  m <- matchValue "[" ;;
  if m then
    c <- checkValue "]" ;;
    size <-
      (if c then
         ret (Some (LiteralExpression (tok_start typeIdentifierToken)
                      (tok_end typeIdentifierToken) "-1" LInteger))
       else parseExpression) ;;
    expectValue "]" "after array size in variable declaration" ;;
    ret (ArrayIdentifierExpression (tok_start typeIdentifierToken)
           (tok_end typeIdentifierToken) (tok_value typeIdentifierToken) size)
  else
    ret (IdentifierExpression (tok_start typeIdentifierToken)
           (tok_end typeIdentifierToken) (tok_value typeIdentifierToken)).

Definition add_nullable (m : ModifierStatement) : ModifierStatement :=
  mkModifier (mod_start m) (mod_end m) (mod_accessor m)
    (N.lor (mod_modifier m) Modifier_Nullable).

(** [= initializer] and the closing [;] of a variable declaration. *)
Definition initializer_and_semicolon (parseExpression : P (option Expression))
    (semicolon : bool) : P (option Expression) :=
  m <- matchValue "=" ;;
  initializer <- (if m then parseExpression else ret None) ;;
  (if semicolon then expectValue ";" "after variable declaration" ;; ret tt
   else ret tt) ;;
  ret initializer.

Definition end_of (initializer : option Expression) (otherwise : Locus)
  : Locus :=
  match initializer with
  | Some x => expr_end x
  | None => otherwise
  end.

Definition parseVariable (fuel : nat) (parseExpression : P (option Expression))
    (verbose semicolon : bool) : P VariableDeclaration :=
  (if verbose then expectValue "let" "" ;; ret tt else ret tt) ;;
  modifier <- parseModifier fuel ;;
  it <- expectToken TIdentifier "after 'let' in variable declaration" ;;
  identifierToken <- deref it ;;
  let identifier :=
    mkIdentifier (tok_start identifierToken) (tok_end identifierToken)
      (tok_value identifierToken) in
  m <- matchValue ":" ;;
  if m then
    tt_ <- expectToken TIdentifier "after ':' in variable declaration" ;;
    typeIdentifierToken <- deref tt_ ;;
    type <- type_suffix parseExpression typeIdentifierToken ;;
    q <- matchValue "?" ;;
    let modifier' := if q then add_nullable modifier else modifier in
    initializer <- initializer_and_semicolon parseExpression semicolon ;;
    ret (mkVariableDeclaration (tok_start identifierToken)
           (end_of initializer (expr_end type)) identifier type modifier'
           initializer)
  else
    c <- checkToken TIdentifier ;;
    if c then
      p <- peek ;;
      tok <- deref p ;;
      log_error
        (mkError Warning "Type annotation missing ':' in variable declaration"
           "Assuming type annotation is present before type name"
           (tok_start tok) (tok_end tok)) ;;
      a <- advance ;;
      typeIdentifierToken <- deref a ;;
      type <- type_suffix parseExpression typeIdentifierToken ;;
      initializer <- initializer_and_semicolon parseExpression semicolon ;;
      ret (mkVariableDeclaration (tok_start identifierToken)
             (end_of initializer (expr_end type)) identifier type modifier
             initializer)
    else
      q <- matchValue "?" ;;
      let modifier' := if q then add_nullable modifier else modifier in
      initializer <- initializer_and_semicolon parseExpression semicolon ;;
      ret (mkVariableDeclaration (tok_start identifierToken)
             (end_of initializer (tok_end identifierToken)) identifier
             (IdentifierExpression (Locus2 0 0) (Locus2 0 0) "void")
             modifier' initializer).

(** The [while] over the fields of [parseRecord]. *)
Fixpoint record_loop (fuel : nat) (field : P VariableDeclaration)
    (fields : list VariableDeclaration) : P (list VariableDeclaration) :=
  match fuel with
  | O => out_of_fuel
  | S fuel' =>
      eof <- isEof ;;
      c <- (if eof then ret false else checkValue "}") ;;
      if negb eof && negb c then
        f <- field ;;
        record_loop fuel' field (fields ++ [f])%list
      else ret fields
  end.

Definition parseRecord (fuel : nat) (parseExpression : P (option Expression))
  : P RecordDeclaration :=
  expectValue "rec" "" ;;
  modifier <- parseModifier fuel ;;
  it <- expectToken TIdentifier "after 'rec' in record declaration" ;;
  identifierToken <- deref it ;;
  let identifier :=
    mkIdentifier (tok_start identifierToken) (tok_end identifierToken)
      (tok_value identifierToken) in
  expectValue "{" "after record name in record declaration" ;;
  fields <- record_loop fuel (parseVariable fuel parseExpression false true) [] ;;
  expectValue "}" "after record fields in record declaration" ;;
  last <- last_token ;;
  ret (mkRecordDeclaration (tok_start identifierToken) (tok_end last)
         identifier
         (IdentifierExpression (tok_start identifierToken)
            (tok_end identifierToken) (tok_value identifierToken))
         modifier fields).

(** The [while] of [parseBlock] and of [parseProgram]: keep the statement,
    or advance over one token when there is none. *)
Fixpoint statement_loop (fuel : nat) (in_block : bool)
    (parseStatement : P (option Statement)) (statements : list Statement)
  : P (list Statement) :=
  match fuel with
  | O => out_of_fuel
  | S fuel' =>
      eof <- isEof ;;
      c <- (if negb eof && in_block then checkValue "}" else ret false) ;;
      if negb eof && negb c then
        stmt <- parseStatement ;;
        match stmt with
        | Some st =>
            statement_loop fuel' in_block parseStatement
              (statements ++ [st])%list
        | None =>
            advance ;;
            statement_loop fuel' in_block parseStatement statements
        end
      else ret statements
  end.

Definition parseBlock (fuel : nat) (parseStatement : P (option Statement))
  : P BlockStatement :=
  leftBrace <- expectValue "{" "to start a block statement" ;;
  statements <- statement_loop fuel true parseStatement [] ;;
  rightBrace <- expectValue "}" "to end a block statement" ;;
  lb <- deref leftBrace ;;
  rb <- deref rightBrace ;;
  ret (mkBlock (tok_start lb) (tok_end rb) statements).

(** The [do ... while (matchValue(","))] over the parameters. *)
Fixpoint parameter_loop (fuel : nat) (param : P VariableDeclaration)
    (parameters : list VariableDeclaration) : P (list VariableDeclaration) :=
  match fuel with
  | O => out_of_fuel
  | S fuel' =>
      v <- param ;;
      m <- matchValue "," ;;
      if m then parameter_loop fuel' param (parameters ++ [v])%list
      else ret (parameters ++ [v])%list
  end.

Definition parseFunction (fuel : nat) (parseExpression : P (option Expression))
    (parseBlock : P BlockStatement) : P FunctionDeclaration :=
  modifier <- parseModifier fuel ;;
  expectValue "fn" "to start function declaration" ;;
  p <- peek ;;
  tok <- deref p ;;
  when_ (isacc (tok_value tok))
    (log_error
       (mkError Error "Invalid accessor position for function"
          "Function accessors are positioned before the 'fn' keyword"
          (tok_start tok) (tok_end tok))) ;;
  identifier <-
    (if hasFlag (mod_modifier modifier) Modifier_Init then
       ret (mkIdentifier (Locus2 0 0) (Locus2 0 0) "init")
     else
       it <- expectToken TIdentifier "after 'fn' in function declaration" ;;
       identifierToken <- deref it ;;
       ret (mkIdentifier (tok_start identifierToken) (tok_end identifierToken)
              (tok_value identifierToken))) ;;
  q <- matchValue "?" ;;
  let modifier' := if q then add_nullable modifier else modifier in
  expectValue "(" "after function name in function declaration" ;;
  m <- matchValue ")" ;;
  parameters <-
    (if m then ret []
     else
       ps <- parameter_loop fuel
               (parseVariable fuel parseExpression false false) [] ;;
       expectValue ")" "after function parameters in function declaration" ;;
       ret ps) ;;
  colon <- matchValue ":" ;;
  typeIdentifier <-
    (if colon then
       tt_ <- expectToken TIdentifier "after ':' in function declaration" ;;
       typeIdentifierToken <- deref tt_ ;;
       type_suffix parseExpression typeIdentifierToken
     else
       c <- checkToken TIdentifier ;;
       if c then
         last <- last_token ;;
         p' <- peek ;;
         tok' <- deref p' ;;
         log_error
           (mkError Warning
              "Type annotation missing ':' in function declaration"
              "Assuming type annotation is present before type name"
              (tok_end last) (tok_end tok')) ;;
         tt_ <- expectToken TIdentifier "after ':' in function declaration" ;;
         typeIdentifierToken <- deref tt_ ;;
         type_suffix parseExpression typeIdentifierToken
       else ret (IdentifierExpression (Locus2 0 0) (Locus2 0 0) "void")) ;;
  body <- parseBlock ;;
  ret (mkFunctionDeclaration (id_start identifier) (block_end body) identifier
         typeIdentifier modifier' parameters body).

Definition is_acc_or_mod (tok : option Token) : bool :=
  match tok with
  | Some t => isacc (tok_value t) || ismod (tok_value t)
  | None => false
  end.

(** The inner [while] of [parseClass]: skip the run of accessors and
    modifiers that starts at offset [j]. *)
Fixpoint class_scan (fuel : nat) (j : N) : P (option Token) :=
  match fuel with
  | O => out_of_fuel
  | S fuel' =>
      token_j <- look j ;;
      if is_acc_or_mod token_j then class_scan fuel' (wrap64 (j + 1))
      else ret token_j
  end.

Definition is_fn (tok : option Token) : bool :=
  match tok with
  | Some t => (tok_value t =? "fn")%string
  | None => false
  end.

(** The outer [while] of [parseClass]. *)
Fixpoint class_loop (fuel : nat) (field : P VariableDeclaration)
    (method : P FunctionDeclaration) (i : N)
    (fields : list VariableDeclaration) (methods : list FunctionDeclaration)
  : P (list VariableDeclaration * list FunctionDeclaration) :=
  match fuel with
  | O => out_of_fuel
  | S fuel' =>
      eof <- isEof ;;
      c <- (if eof then ret false else checkValue "}") ;;
      if negb eof && negb c then
        token_i <- look i ;;
        if is_acc_or_mod token_i then
          token_j <- class_scan fuel' i ;;
          if is_fn token_j then
            skip i ;;
            f <- method ;;
            class_loop fuel' field method 0 fields (methods ++ [f])%list
          else
            skip i ;;
            v <- field ;;
            class_loop fuel' field method 0 (fields ++ [v])%list methods
        else if is_fn token_i then
          skip i ;;
          f <- method ;;
          class_loop fuel' field method 0 fields (methods ++ [f])%list
        else class_loop fuel' field method (wrap64 (i + 1)) fields methods
      else ret (fields, methods)
  end.

Definition parseClass (fuel : nat) (parseExpression : P (option Expression))
    (parseBlock : P BlockStatement) : P ClassDeclaration :=
  expectValue "cls" "" ;;
  modifier <- parseModifier fuel ;;
  it <- expectToken TIdentifier "after 'class' in class declaration" ;;
  identifierToken <- deref it ;;
  let identifier :=
    mkIdentifier (tok_start identifierToken) (tok_end identifierToken)
      (tok_value identifierToken) in
  expectValue "{" "after class name in class declaration" ;;
  fm <- class_loop fuel (parseVariable fuel parseExpression false true)
          (parseFunction fuel parseExpression parseBlock) 0 [] [] ;;
  expectValue "}" "after class fields and methods in class declaration" ;;
  last <- last_token ;;
  ret (mkClassDeclaration (tok_start identifierToken) (tok_end last) identifier
         (IdentifierExpression (tok_start identifierToken)
            (tok_end identifierToken) (tok_value identifierToken))
         modifier (fst fm) (snd fm)).

(** *** Conditionals *)

(** [v.back()]: reading the back of an empty vector is undefined. *)
Definition back {A : Type} (l : list A) : P A :=
  deref (last (map Some l) None).

(** The [do ... while (matchValue("elif"))] of [parseIf]. *)
Fixpoint elif_loop (fuel : nat) (parseExpression : P (option Expression))
    (parseBlock : P BlockStatement) (elifBranches : list IfConditional)
  : P (list IfConditional) :=
  match fuel with
  | O => out_of_fuel
  | S fuel' =>
      elifCondition <- parseExpression ;;
      elifThenBranch <- parseBlock ;;
      c <- deref elifCondition ;;
      let branches :=
        (elifBranches
           ++ [mkIf (expr_start c) (block_end elifThenBranch) c elifThenBranch
                 [] None])%list in
      m <- matchValue "elif" ;;
      if m then elif_loop fuel' parseExpression parseBlock branches
      else ret branches
  end.

Definition parseElse (parseBlock : P BlockStatement)
  : P (option BlockStatement) :=
  m <- matchValue "else" ;;
  if m then b <- parseBlock ;; ret (Some b) else ret None.

Definition parseIf (fuel : nat) (parseExpression : P (option Expression))
    (parseBlock : P BlockStatement) : P IfConditional :=
  expectValue "if" "to start if conditional" ;;
  condition <- parseExpression ;;
  thenBranch <- parseBlock ;;
  m <- matchValue "elif" ;;
  if m then
    elifBranches <- elif_loop fuel parseExpression parseBlock [] ;;
    elseBranch <- parseElse parseBlock ;;
    c <- deref condition ;;
    end_ <-
      match elseBranch with
      | Some b => ret (block_end b)
      | None => lastElif <- back elifBranches ;; ret (if_end lastElif)
      end ;;
    ret (mkIf (expr_start c) end_ c thenBranch elifBranches elseBranch)
  else
    elseBranch <- parseElse parseBlock ;;
    c <- deref condition ;;
    ret (mkIf (expr_start c)
           (match elseBranch with
            | Some b => block_end b
            | None => block_end thenBranch
            end)
           c thenBranch [] elseBranch).

(** The [while] over the cases of [parseSwitch]. *)
Fixpoint switch_loop (fuel : nat) (parseExpression : P (option Expression))
    (parseBlock : P BlockStatement) (cases : list CaseBranch)
  : P (list CaseBranch) :=
  match fuel with
  | O => out_of_fuel
  | S fuel' =>
      eof <- isEof ;;
      c <- (if eof then ret false else checkValue "}") ;;
      if negb eof && negb c then
        d <- matchValue "default" ;;
        if d then
          defaultBlock <- parseBlock ;;
          switch_loop fuel' parseExpression parseBlock
            (cases
               ++ [mkCase (block_start defaultBlock) (block_end defaultBlock)
                     None defaultBlock])%list
        else
          expectValue "case" "to start switch case" ;;
          caseExpression <- parseExpression ;;
          caseBlock <- parseBlock ;;
          x <- deref caseExpression ;;
          switch_loop fuel' parseExpression parseBlock
            (cases
               ++ [mkCase (expr_start x) (block_end caseBlock) (Some x)
                     caseBlock])%list
      else ret cases
  end.

Definition parseSwitch (fuel : nat) (parseExpression : P (option Expression))
    (parseBlock : P BlockStatement) : P Conditional :=
  expectValue "switch" "to start switch conditional" ;;
  switchExpression <- parseExpression ;;
  expectValue "{" "after switch expression in switch conditional" ;;
  cases <- switch_loop fuel parseExpression parseBlock [] ;;
  expectValue "}" "to end switch conditional" ;;
  x <- deref switchExpression ;;
  lastCase <- back cases ;;
  ret (SwitchConditional (expr_start x) (case_end lastCase) x cases).

Definition parseWhile (parseExpression : P (option Expression))
    (parseBlock : P BlockStatement) : P Conditional :=
  expectValue "while" "to start while conditional" ;;
  condition <- parseExpression ;;
  body <- parseBlock ;;
  c <- deref condition ;;
  ret (WhileConditional (expr_start c) (block_end body) c body).

Definition parseFor (fuel : nat) (parseExpression : P (option Expression))
    (parseBlock : P BlockStatement) : P Conditional :=
  expectValue "for" "to start for conditional" ;;
  expectValue "(" "after 'for' in for conditional" ;;
  l <- checkValue "let" ;;
  if l then
    initializer <- parseVariable fuel parseExpression false true ;;
    condition <- parseExpression ;;
    expectValue ";" "after for loop condition" ;;
    m <- matchValue ")" ;;
    increment <-
      (if m then ret None
       else
         inc <- parseExpression ;;
         expectValue ")" "after for loop increment" ;;
         ret inc) ;;
    body <- parseBlock ;;
    ret (ForConditional (var_start initializer) (block_end body)
           (Some (VariableDecl initializer)) condition increment body)
  else
    c <- checkToken TIdentifier ;;
    colon <-
      (if c then
         n <- look 1 ;;
         tok <- deref n ;;
         ret (tok_value tok =? ":")%string
       else ret false) ;;
    if colon then
      initializer <- parseVariable fuel parseExpression false false ;;
      expectValue "in" "after for-each variable declaration" ;;
      iterable <- parseExpression ;;
      expectValue ")" "after for-each iterable expression" ;;
      body <- parseBlock ;;
      ret (ForConditional (var_start initializer) (block_end body)
             (Some (VariableDecl initializer)) None iterable body)
    else
      condition <- parseExpression ;;
      expectValue ")" "after for-range condition" ;;
      body <- parseBlock ;;
      x <- deref condition ;;
      ret (ForConditional (expr_start x) (block_end body) None (Some x) None
             body).

(** *** The statement dispatch and the program *)

Definition some_stmt {A : Type} (f : A -> Statement) (m : P A)
  : P (option Statement) :=
  a <- m ;; ret (Some (f a)).

(** [parseStatement]; the block parser it hands down runs on the
    remaining fuel. *)
Fixpoint parseStatement (fuel : nat) : P (option Statement) :=
  match fuel with
  | O => out_of_fuel
  | S fuel' =>
      let pe := parseExpression fuel' in
      let pb := parseBlock fuel' (parseStatement fuel') in
      c <- checkValue "return" ;;
      if c then some_stmt (fun x => x) (parseReturn pe) else
      c <- checkValue "break" ;;
      if c then some_stmt (fun x => x) parseBreak else
      c <- checkValue "continue" ;;
      if c then some_stmt (fun x => x) parseContinue else
      c <- checkValue "{" ;;
      if c then some_stmt BlockStmt pb else
      c <- checkValue "let" ;;
      if c then
        some_stmt (fun v => DeclarationStmt (VariableDecl v))
          (parseVariable fuel' pe true true)
      else
      c <- checkValue "fn" ;;
      a <- (if c then ret true
            else p <- peek ;; tok <- deref p ;; ret (isacc (tok_value tok))) ;;
      if a then
        some_stmt (fun f => DeclarationStmt (FunctionDecl f))
          (parseFunction fuel' pe pb)
      else
      c <- checkValue "rec" ;;
      if c then
        some_stmt (fun r => DeclarationStmt (RecordDecl r))
          (parseRecord fuel' pe)
      else
      c <- checkValue "cls" ;;
      if c then
        some_stmt (fun k => DeclarationStmt (ClassDecl k))
          (parseClass fuel' pe pb)
      else
      c <- checkValue "if" ;;
      if c then
        some_stmt (fun i => ConditionalStmt (IfCond i)) (parseIf fuel' pe pb)
      else
      c <- checkValue "switch" ;;
      if c then some_stmt ConditionalStmt (parseSwitch fuel' pe pb) else
      c <- checkValue "while" ;;
      if c then some_stmt ConditionalStmt (parseWhile pe pb) else
      c <- checkValue "for" ;;
      if c then some_stmt ConditionalStmt (parseFor fuel' pe pb) else
      parseExpressionStatement pe
  end.

Definition front_start (statements : list Statement) : Locus :=
  match statements with
  | [] => Locus2 1 1
  | st :: _ => fst (stmt_span st)
  end.

Definition back_end (statements : list Statement) : Locus :=
  match statements with
  | [] => Locus2 1 1
  | _ => snd (stmt_span (last statements (BreakStatement (Locus2 1 1) (Locus2 1 1))))
  end.

Definition parseProgram (fuel : nat) : P Program :=
  statements <- statement_loop fuel false (parseStatement fuel) [] ;;
  ret (mkProgram (front_start statements) (back_end statements) statements).

(** [parse(source)] on a fresh parser: lex, then parse the program.  The
    result carries the diagnostics of the lexer followed by those of the
    parser. *)
Definition parse (fuel : nat) (source : string)
  : Outcome (Program * list Diagnostic) :=
  match Lexer.tokenize source with
  | None => OutOfFuel
  | Some (tokens, lexlog) =>
      match parseProgram fuel (mkState tokens 0 Token_default lexlog) with
      | Ok (program, st) => Ok (program, plog st)
      | Crash => Crash
      | Thrown w => Thrown w
      | OutOfFuel => OutOfFuel
      end
  end.

End Parser.

(** ** The type model (type.h, var.h, func.h, rec.h, cls.h) *)

Module Sema.
Import Ast.
Local Open Scope run_scope.

Inductive TypeKind : Type :=
| KNone | KVoid | KNull | KBoolean
| KI8 | KI16 | KI32 | KI64 | KI128
| KU8 | KU16 | KU32 | KU64 | KU128
| KF16 | KF32 | KF64 | KF128
| KString | KCharacter | KArray | KClass | KRecord | KVariable | KFunction.

Definition TypeKind_eqb (a b : TypeKind) : bool :=
  match a, b with
  | KNone, KNone | KVoid, KVoid | KNull, KNull | KBoolean, KBoolean
  | KI8, KI8 | KI16, KI16 | KI32, KI32 | KI64, KI64 | KI128, KI128
  | KU8, KU8 | KU16, KU16 | KU32, KU32 | KU64, KU64 | KU128, KU128
  | KF16, KF16 | KF32, KF32 | KF64, KF64 | KF128, KF128
  | KString, KString | KCharacter, KCharacter | KArray, KArray
  | KClass, KClass | KRecord, KRecord | KVariable, KVariable
  | KFunction, KFunction => true
  | _, _ => false
  end.

(** The base class [Type]: what remains of any type object when it is
    copied into a [Type] value. *)
Record Type_ : Type := mkType
  { ty_kind : TypeKind;
    ty_name : string }.

Definition isValid (t : Type_) : bool :=
  negb (str_empty (ty_name t)) && negb (TypeKind_eqb (ty_kind t) KNone).

(** [size()], an [int64_t] between 0 and 16. *)
Definition size (t : Type_) : N :=
  match ty_kind t with
  | KI8 | KU8 | KBoolean | KCharacter => 1
  | KI16 | KU16 => 2
  | KI32 | KU32 | KF32 => 4
  | KI64 | KU64 | KF64 => 8
  | KI128 | KU128 | KF128 => 16
  | _ => 0
  end.

Definition isSimilarTo (t other : Type_) : bool :=
  TypeKind_eqb (ty_kind t) (ty_kind other).

Definition isInteger (t : Type_) : bool :=
  match ty_kind t with
  | KI8 | KI16 | KI32 | KI64 | KI128 | KU8 | KU16 | KU32 | KU64 | KU128 => true
  | _ => false
  end.

Definition isFloatingPoint (t : Type_) : bool :=
  match ty_kind t with
  | KF16 | KF32 | KF64 | KF128 => true
  | _ => false
  end.

Definition isNumeric (t : Type_) : bool := isInteger t || isFloatingPoint t.

Definition isTruthy (t : Type_) : bool :=
  match ty_kind t with
  | KNone | KVoid | KNull => false
  | _ => true
  end.

Definition isVoid (t : Type_) : bool := TypeKind_eqb (ty_kind t) KVoid.
Definition isNull (t : Type_) : bool := TypeKind_eqb (ty_kind t) KNull.

Definition isPrimitive (t : Type_) : bool :=
  isNumeric t
  || TypeKind_eqb (ty_kind t) KBoolean
  || TypeKind_eqb (ty_kind t) KCharacter.

(** [operator==]: two types are equal when their names are. *)
Definition Type_eqb (t other : Type_) : bool :=
  (ty_name t =? ty_name other)%string.

Definition none_ty : Type_ := mkType KNone "none".
Definition void_ty : Type_ := mkType KVoid "void".
Definition null_ty : Type_ := mkType KNull "null".
Definition bool_ty : Type_ := mkType KBoolean "bool".
Definition i8_ty : Type_ := mkType KI8 "i8".
Definition i16_ty : Type_ := mkType KI16 "i16".
Definition i32_ty : Type_ := mkType KI32 "i32".
Definition i64_ty : Type_ := mkType KI64 "i64".
Definition i128_ty : Type_ := mkType KI128 "i128".
Definition u8_ty : Type_ := mkType KU8 "u8".
Definition u16_ty : Type_ := mkType KU16 "u16".
Definition u32_ty : Type_ := mkType KU32 "u32".
Definition u64_ty : Type_ := mkType KU64 "u64".
Definition u128_ty : Type_ := mkType KU128 "u128".
Definition f16_ty : Type_ := mkType KF16 "f16".
Definition f32_ty : Type_ := mkType KF32 "f32".
Definition f64_ty : Type_ := mkType KF64 "f64".
Definition f128_ty : Type_ := mkType KF128 "f128".
Definition char_ty : Type_ := mkType KCharacter "char".
Definition string_ty : Type_ := mkType KString "str".

Definition promoteTypes (a b : Type_) : Type_ :=
  if isSimilarTo a b then a
  else if isFloatingPoint a && isFloatingPoint b then
    if size b <=? size a then a else b
  else if isInteger a && isInteger b then
    if size b <=? size a then a else b
  else if isFloatingPoint a && isInteger b then a
  else if isInteger a && isFloatingPoint b then b
  else none_ty.

Definition canAssignType (to from : Type_) : bool :=
  if isSimilarTo to from then true
  else if isFloatingPoint to && isInteger from then true
  else if isInteger to && isInteger from && (size from <=? size to) then true
  else false.

(** When [promoteTypes] answers with its first argument whatever the
    order: the kinds agree, or both are integers of one width. *)
Definition first_wins (a b : Type_) : bool :=
  isSimilarTo a b || (isInteger a && isInteger b && (size a =? size b)).

Record Variable_ : Type := mkVariable
  { v_name : string;
    v_type : Type_;
    v_accessor : Accessor;
    v_modifier : Modifier }.

(** [Variable()]. *)
Definition Variable_default : Variable_ :=
  mkVariable "" none_ty Public Modifier_None.

Definition Variable_isValid (v : Variable_) : bool :=
  negb (str_empty (v_name v)).

Record Function : Type := mkFunction
  { f_name : string;
    f_return_type : Type_;
    f_parameters : list Variable_;
    f_access : Accessor;
    f_modifier : Modifier }.

(** [Function()] and [Function(name)]. *)
Definition Function_named (name : string) : Function :=
  mkFunction name none_ty [] Public Modifier_None.
Definition Function_default : Function := Function_named "".

Definition Function_isValid (f : Function) : bool :=
  negb (str_empty (f_name f)).

Fixpoint arguments_match (arg_types : list Type_) (parameters : list Variable_)
  : bool :=
  match arg_types, parameters with
  | [], _ => true
  | a :: args, p :: ps =>
      if isSimilarTo a (v_type p) then arguments_match args ps
      else if isNumeric a && isNumeric (v_type p) then arguments_match args ps
      else false
  | _ :: _, [] => false
  end.

Definition isValidArguments (f : Function) (arg_types : list Type_) : bool :=
  if negb (List.length arg_types =? List.length (f_parameters f))%nat
  then false
  else arguments_match arg_types (f_parameters f).

Record Record_ : Type := mkRecord
  { r_name : string;
    r_fields : list Variable_ }.

Definition Record_default : Record_ := mkRecord "" [].

Record Class : Type := mkClass
  { c_name : string;
    c_fields : list Variable_;
    c_methods : list Function }.

Definition Class_default : Class := mkClass "" [] [].

Definition find_field (fields : list Variable_) (field_name : string)
  : option Variable_ :=
  find (fun f => (v_name f =? field_name)%string) fields.

Definition hasField (fields : list Variable_) (field_name : string)
    (access : Accessor) : bool :=
  match find_field fields field_name with
  | Some f => canAccess (v_accessor f) access
  | None => false
  end.

Definition getField {St : Type} (fields : list Variable_) (field_name : string)
    (access : Accessor) : M St Variable_ :=
  match find_field fields field_name with
  | Some f =>
      if canAccess (v_accessor f) access then ret f
      else throw ("Access denied to field: " ++ field_name)
  | None => ret Variable_default
  end.

Definition find_method (methods : list Function) (method_name : string)
  : option Function :=
  find (fun m => (f_name m =? method_name)%string) methods.

Definition hasMethod (c : Class) (method_name : string) (access : Accessor)
  : bool :=
  match find_method (c_methods c) method_name with
  | Some m => canAccess (f_access m) access
  | None => false
  end.

Definition getMethod {St : Type} (c : Class) (method_name : string)
    (access : Accessor) : M St Function :=
  match find_method (c_methods c) method_name with
  | Some m =>
      if canAccess (f_access m) access then ret m
      else throw ("Access denied to method: " ++ method_name)
  | None => ret Function_default
  end.

(** ** The scope chain (scope.h) *)

(** [enum class ScopeKind] declares no values, so its enumerators are
    numbered from 0 in order. *)
Inductive ScopeKind : Type :=
| Global | Block | FunctionScope | Loop | ClassScope | RecordScope.

Definition ScopeKind_value (k : ScopeKind) : N :=
  match k with
  | Global => 0
  | Block => 1
  | FunctionScope => 2
  | Loop => 3
  | ClassScope => 4
  | RecordScope => 5
  end.

(** A scope with its parent.  [sc_kind] holds the underlying integer,
    since [enterScope] stores ORs of enumerators. *)
Inductive Scope : Type :=
| mkScope (sc_name : string) (sc_kind : N) (variables : list Variable_)
    (functions : list Function) (classes : list Class)
    (records : list Record_) (parent : option Scope).

Definition sc_kind (sc : Scope) : N :=
  match sc with mkScope _ k _ _ _ _ _ => k end.
Definition getParent (sc : Scope) : option Scope :=
  match sc with mkScope _ _ _ _ _ _ p => p end.

Definition primitives : list Type_ :=
  [i8_ty; i16_ty; i32_ty; i64_ty; i128_ty; u8_ty; u16_ty; u32_ty; u64_ty;
   u128_ty; f16_ty; f32_ty; f64_ty; f128_ty; bool_ty; char_ty; string_ty;
   void_ty; null_ty].

Definition addVariable (var : Variable_) (sc : Scope) : Scope :=
  match sc with
  | mkScope n k vs fs cs rs p => mkScope n k (vs ++ [var])%list fs cs rs p
  end.

Definition addFunction (func : Function) (sc : Scope) : Scope :=
  match sc with
  | mkScope n k vs fs cs rs p => mkScope n k vs (fs ++ [func])%list cs rs p
  end.

Definition addClass (cls : Class) (sc : Scope) : Scope :=
  match sc with
  | mkScope n k vs fs cs rs p => mkScope n k vs fs (cs ++ [cls])%list rs p
  end.

Definition addRecord (rec : Record_) (sc : Scope) : Scope :=
  match sc with
  | mkScope n k vs fs cs rs p => mkScope n k vs fs cs (rs ++ [rec])%list p
  end.

(** The lookups: the scope's own list first, then the parent. *)
Fixpoint lookupVariable (sc : Scope) (name : string) : option Variable_ :=
  match sc with
  | mkScope _ _ vs _ _ _ p =>
      match find (fun v => (v_name v =? name)%string) vs with
      | Some v => Some v
      | None =>
          match p with
          | Some parent => lookupVariable parent name
          | None => None
          end
      end
  end.

Fixpoint lookupFunction (sc : Scope) (name : string) : option Function :=
  match sc with
  | mkScope _ _ _ fs _ _ p =>
      match find (fun f => (f_name f =? name)%string) fs with
      | Some f => Some f
      | None =>
          match p with
          | Some parent => lookupFunction parent name
          | None => None
          end
      end
  end.

Fixpoint lookupClass (sc : Scope) (name : string) : option Class :=
  match sc with
  | mkScope _ _ _ _ cs _ p =>
      match find (fun c => (c_name c =? name)%string) cs with
      | Some c => Some c
      | None =>
          match p with
          | Some parent => lookupClass parent name
          | None => None
          end
      end
  end.

Fixpoint lookupRecord (sc : Scope) (name : string) : option Record_ :=
  match sc with
  | mkScope _ _ _ _ _ rs p =>
      match find (fun r => (r_name r =? name)%string) rs with
      | Some r => Some r
      | None =>
          match p with
          | Some parent => lookupRecord parent name
          | None => None
          end
      end
  end.

Definition is_some {A : Type} (o : option A) : bool :=
  match o with Some _ => true | None => false end.

Definition or_default {A : Type} (o : option A) (d : A) : A :=
  match o with Some a => a | None => d end.

Definition hasVariable (sc : Scope) (n : string) : bool :=
  is_some (lookupVariable sc n).
Definition hasFunction (sc : Scope) (n : string) : bool :=
  is_some (lookupFunction sc n).
Definition hasClass (sc : Scope) (n : string) : bool :=
  is_some (lookupClass sc n).
Definition hasRecord (sc : Scope) (n : string) : bool :=
  is_some (lookupRecord sc n).

Definition getVariable (sc : Scope) (n : string) : Variable_ :=
  or_default (lookupVariable sc n) Variable_default.
Definition getFunction (sc : Scope) (n : string) : Function :=
  or_default (lookupFunction sc n) Function_default.
Definition getClass (sc : Scope) (n : string) : Class :=
  or_default (lookupClass sc n) Class_default.
Definition getRecord (sc : Scope) (n : string) : Record_ :=
  or_default (lookupRecord sc n) Record_default.

Definition find_primitive (type_name : string) : option Type_ :=
  find (fun prim => (ty_name prim =? type_name)%string) primitives.

Fixpoint hasType (sc : Scope) (type_name : string) : bool :=
  if is_some (find_primitive type_name) then true
  else if hasClass sc type_name || hasRecord sc type_name then true
  else
    match sc with
    | mkScope _ _ _ _ _ _ (Some parent) => hasType parent type_name
    | mkScope _ _ _ _ _ _ None => false
    end.

Fixpoint getType (sc : Scope) (type_name : string) : Type_ :=
  match find_primitive type_name with
  | Some prim => prim
  | None =>
      if hasClass sc type_name
      then mkType KClass (c_name (getClass sc type_name))
      else if hasRecord sc type_name
      then mkType KRecord (r_name (getRecord sc type_name))
      else
        match sc with
        | mkScope _ _ _ _ _ _ (Some parent) => getType parent type_name
        | mkScope _ _ _ _ _ _ None => mkType KNone ""
        end
  end.

Definition isValidType (sc : Scope) (t : Type_) : bool :=
  if isPrimitive t || isVoid t || isNull t then true
  else if TypeKind_eqb (ty_kind t) KClass then hasClass sc (ty_name t)
  else if TypeKind_eqb (ty_kind t) KRecord then hasRecord sc (ty_name t)
  else false.

(** ** The analyzer (analysis.h, analysis.cpp) *)

(** The analyzer object: the current scope (null before [analyze] enters
    the global scope), the accumulated [errors], and [alog] for the
    diagnostics it writes with [Error::log] instead. *)
Record Analyzer : Type := mkAnalyzer
  { current_scope : option Scope;
    errors : list Diagnostic;
    alog : list Diagnostic }.

Definition A (X : Type) : Type := M Analyzer X.

(** [Analyzer()]. *)
Definition Analyzer_new : Analyzer := mkAnalyzer None [] [].

(** [this->current_scope->...]. *)
Definition scope : A Scope := fun st =>
  match current_scope st with
  | Some sc => Ok (sc, st)
  | None => Crash
  end.

Definition update_scope (f : Scope -> Scope) : A unit := fun st =>
  match current_scope st with
  | Some sc => Ok (tt, mkAnalyzer (Some (f sc)) (errors st) (alog st))
  | None => Crash
  end.

(** [this->errors.push_back(basic::Error(Error, desc, help, start, end))]. *)
Definition push_error (description help_ : string) (s e : Locus) : A unit :=
  fun st =>
    Ok (tt, mkAnalyzer (current_scope st)
              (errors st ++ [mkError Error description help_ s e])%list
              (alog st)).

Definition log_error (description help_ : string) (s e : Locus) : A unit :=
  fun st =>
    Ok (tt, mkAnalyzer (current_scope st) (errors st)
              (alog st ++ [mkError Error description help_ s e])%list).

Definition enterScope (name : string) (kind : ScopeKind) : A unit := fun st =>
  match current_scope st with
  | Some sc =>
      Ok (tt, mkAnalyzer
                (Some (mkScope name (N.lor (sc_kind sc) (ScopeKind_value kind))
                         [] [] [] [] (Some sc)))
                (errors st) (alog st))
  | None =>
      Ok (tt, mkAnalyzer
                (Some (mkScope name (ScopeKind_value kind) [] [] [] [] None))
                (errors st) (alog st))
  end.

Definition exitScope : A unit := fun st =>
  match current_scope st with
  | Some sc => Ok (tt, mkAnalyzer (getParent sc) (errors st) (alog st))
  | None => Ok (tt, st)
  end.

Definition inScope (kind : ScopeKind) : A bool :=
  sc <- scope ;; ret (hasFlag (sc_kind sc) (ScopeKind_value kind)).

(** *** Type inference *)

Definition inferLiteral (type : LiteralType) : Type_ :=
  match type with
  | LInteger => i64_ty
  | LFloat => f64_ty
  | LString => string_ty
  | LCharacter => char_ty
  | LBoolean => bool_ty
  | LNull => null_ty
  end.

Definition inferIdentifier (s e : Locus) (name : string) : A Type_ :=
  sc <- scope ;;
  if hasVariable sc name then ret (v_type (getVariable sc name))
  else if hasFunction sc name
  then ret (mkType KFunction (f_name (getFunction sc name)))
  else if hasClass sc name
  then ret (mkType KClass (c_name (getClass sc name)))
  else if hasRecord sc name
  then ret (mkType KRecord (r_name (getRecord sc name)))
  else if hasType sc name then ret (getType sc name)
  else
    push_error ("Undeclared identifier: " ++ name)
      "Ensure the identifier is declared before use." s e ;;
    ret none_ty.

(** [inferArrayIdentifier]; [inferExpression] never reaches it, because
    an array identifier is an identifier expression and that cast is
    tried first. *)
Definition inferArrayIdentifier (name : string) : A Type_ := fun st =>
  match current_scope st with
  | Some sc =>
      if hasVariable sc name then Ok (v_type (getVariable sc name), st)
      else Ok (none_ty, st)
  | None => Ok (none_ty, st)
  end.

(** The constructor call of [inferCall], once the class and the
    argument types are known. *)
Definition construct (cls : Class) (param_types : list Type_) (s e : Locus)
  : A Type_ :=
  if negb (hasMethod cls "init" Public) then
    push_error ("Class has no accessible constructor: " ++ c_name cls)
      "Ensure the class has a public constructor defined." s e ;;
    ret none_ty
  else
    constructor <- getMethod cls "init" Public ;;
    if negb (Function_isValid constructor) then
      push_error ("Class constructor is not accessible: " ++ c_name cls)
        "Ensure the constructor is public." s e ;;
      ret none_ty
    else if isValidArguments constructor param_types
    then ret (mkType KClass (c_name cls))
    else
      push_error ("Invalid constructor arguments for class: " ++ c_name cls)
        "Ensure the arguments match the constructor parameters." s e ;;
      ret none_ty.

Fixpoint inferExpression (expr : Expression) : A Type_ :=
  let inferAll :=
    fix inferAll (l : list (option Expression)) : A (list Type_) :=
      match l with
      | [] => ret []
      | None :: _ => crash
      | Some x :: rest =>
          t <- inferExpression x ;;
          ts <- inferAll rest ;;
          ret (t :: ts)
      end in
  match expr with
  | BinaryExpression _ _ lhs _ rhs =>
      left_type <- inferExpression lhs ;;
      right_type <- inferExpression rhs ;;
      ret (promoteTypes left_type right_type)
  | UnaryExpression _ _ _ operand => inferExpression operand
  | LiteralExpression _ _ _ type => ret (inferLiteral type)
  | IdentifierExpression s e name => inferIdentifier s e name
  | ArrayIdentifierExpression s e name _ => inferIdentifier s e name
  | IndexExpression _ _ array index =>
      array_type <- inferExpression array ;;
      index_type <- inferExpression index ;;
      if TypeKind_eqb (ty_kind array_type) KArray && isInteger index_type
      then ret array_type
      else ret none_ty
  | ArrayExpression _ _ elements =>
      match elements with
      | [] => ret none_ty
      | None :: _ => crash
      | Some first :: _ =>
          element_type <- inferExpression first ;;
          ret (mkType KArray ("array" ++ ty_name element_type))
      end
  | CallExpression s e callee arguments =>
      callee_type <- inferExpression callee ;;
      if TypeKind_eqb (ty_kind callee_type) KFunction then
        param_types <- inferAll arguments ;;
        let func := Function_named (ty_name callee_type) in
        if isValidArguments func param_types then ret (f_return_type func)
        else
          push_error "Function called with invalid arguments."
            "Ensure the arguments match the function parameters." s e ;;
          push_error "Called function does not exist."
            "Ensure the function is declared before use." s e ;;
          ret none_ty
      else if TypeKind_eqb (ty_kind callee_type) KClass then
        sc <- scope ;;
        let cls := getClass sc (ty_name callee_type) in
        param_types <- inferAll arguments ;;
        construct cls param_types s e
      else
        push_error "Called function does not exist."
          "Ensure the function is declared before use." s e ;;
        ret none_ty
  | AttributeExpression s e object attribute =>
      object_type <- inferExpression object ;;
      if TypeKind_eqb (ty_kind object_type) KClass then
        sc <- scope ;;
        let cls := getClass sc (ty_name object_type) in
        let by_name := fun name =>
          if hasField (c_fields cls) name Public then
            field <- getField (c_fields cls) name Public ;;
            ret (v_type field)
          else
            push_error ("Unknown attribute: " ++ name)
              "Ensure the attribute is valid." s e ;;
            ret none_ty in
        let by_method := fun name arguments =>
          if hasMethod cls name Public then
            method <- getMethod cls name Public ;;
            arg_types <- inferAll arguments ;;
            if isValidArguments method arg_types
            then ret (f_return_type method)
            else
              push_error "Method called with invalid arguments."
                "Ensure the arguments match the method parameters." s e ;;
              ret none_ty
          else
            push_error ("Unknown method: " ++ name)
              "Ensure the method exists and is accessible." s e ;;
            ret none_ty in
        match attribute with
        | IdentifierExpression _ _ name => by_name name
        | ArrayIdentifierExpression _ _ name _ => by_name name
        | CallExpression _ _ (IdentifierExpression _ _ name) arguments =>
            by_method name arguments
        | CallExpression _ _ (ArrayIdentifierExpression _ _ name _) arguments =>
            by_method name arguments
        | CallExpression _ _ _ _ =>
            push_error "Unknown method attribute expression."
              "Ensure the attribute expression is valid." s e ;;
            ret none_ty
        | _ =>
            push_error "Unknown attribute type"
              "Ensure the attribute is valid." s e ;;
            ret none_ty
        end
      else if TypeKind_eqb (ty_kind object_type) KRecord then
        sc <- scope ;;
        let rec := getRecord sc (ty_name object_type) in
        let no_attribute :=
          push_error "Record has no accessible attribute."
            "Ensure the attribute exists and is accessible." s e ;;
          ret none_ty in
        let by_name := fun name =>
          if hasField (r_fields rec) name Public then
            field <- getField (r_fields rec) name Public ;;
            ret (v_type field)
          else
            push_error ("Unknown attribute: " ++ name)
              "Ensure the attribute is valid." s e ;;
            no_attribute in
        match attribute with
        | IdentifierExpression _ _ name => by_name name
        | ArrayIdentifierExpression _ _ name _ => by_name name
        | _ => no_attribute
        end
      else ret none_ty
  end.

(** *** Declarations *)

Definition variable_of (name : string) (t : Type_) (m : ModifierStatement)
  : Variable_ :=
  mkVariable name t (mod_accessor m) (mod_modifier m).

Definition declareVariable (decl : VariableDeclaration) : A Variable_ :=
  let name := id_name (var_identifier decl) in
  var_type_ <- inferExpression (var_type decl) ;;
  when_ (negb (isValid var_type_))
    (push_error ("Invalid type for variable declaration: " ++ name)
       "Ensure the type is defined before use."
       (var_start decl) (var_end decl)) ;;
  update_scope (addVariable (variable_of name var_type_ (var_modifier decl))) ;;
  sc <- scope ;;
  ret (getVariable sc name).

(** The loop that turns parameter or field declarations into variables,
    reporting each invalid type under the heading [what]. *)
Fixpoint declare_members (what help_ : string)
    (decls : list VariableDeclaration) : A (list Variable_) :=
  match decls with
  | [] => ret []
  | d :: rest =>
      t <- inferExpression (var_type d) ;;
      when_ (negb (isValid t))
        (push_error (what ++ id_name (var_identifier d)) help_
           (var_start d) (var_end d)) ;;
      vs <- declare_members what help_ rest ;;
      ret (variable_of (id_name (var_identifier d)) t (var_modifier d) :: vs)
  end.

(** The function object a declaration denotes; [what_return] and
    [what_param] head the two diagnostics. *)
Definition function_of (what_return what_param : string)
    (decl : FunctionDeclaration) : A Function :=
  match decl with
  | mkFunctionDeclaration s e identifier type modifier parameters _ =>
      return_type <- inferExpression type ;;
      when_ (negb (isValid return_type))
        (push_error (what_return ++ id_name identifier)
           "Ensure the return type is defined before use." s e) ;;
      params <- declare_members what_param
                  "Ensure the parameter type is defined before use."
                  parameters ;;
      ret (mkFunction (id_name identifier) return_type params
             (mod_accessor modifier) (mod_modifier modifier))
  end.

Definition declareFunction (decl : FunctionDeclaration) : A Function :=
  f <- function_of "Invalid return type for function declaration: "
         "Invalid type for function parameter: " decl ;;
  update_scope (addFunction f) ;;
  sc <- scope ;;
  ret (getFunction sc (id_name (fn_identifier decl))).

Fixpoint declare_methods (decls : list FunctionDeclaration)
  : A (list Function) :=
  match decls with
  | [] => ret []
  | d :: rest =>
      f <- function_of "Invalid return type for class method: "
             "Invalid type for method parameter: " d ;;
      fs <- declare_methods rest ;;
      ret (f :: fs)
  end.

Definition declareClass (decl : ClassDeclaration) : A Class :=
  match decl with
  | mkClassDeclaration _ _ identifier _ _ fields methods =>
      fs <- declare_members "Invalid type for class field: "
              "Ensure the field type is defined before use." fields ;;
      ms <- declare_methods methods ;;
      update_scope (addClass (mkClass (id_name identifier) fs ms)) ;;
      sc <- scope ;;
      ret (getClass sc (id_name identifier))
  end.

Definition declareRecord (decl : RecordDeclaration) : A Record_ :=
  let name := id_name (rec_identifier decl) in
  fs <- declare_members "Invalid type for record field: "
          "Ensure the field type is defined before use." (rec_fields decl) ;;
  update_scope (addRecord (mkRecord name fs)) ;;
  sc <- scope ;;
  ret (getRecord sc name).

(** *** Statements *)

Definition analyzeVariableDeclaration (var_decl : VariableDeclaration)
  : A unit :=
  let name := id_name (var_identifier var_decl) in
  var <- declareVariable var_decl ;;
  when_ (negb (Variable_isValid var))
    (push_error ("Unable to declare variable: " ++ name)
       "Ensure the variable is not already declared."
       (var_start var_decl) (var_end var_decl)) ;;
  match var_initializer var_decl with
  | Some initializer =>
      init_type <- inferExpression initializer ;;
      if negb (isValid init_type) then
        push_error ("Invalid type for variable initializer: " ++ name)
          "Ensure the initializer expression is valid."
          (expr_start initializer) (expr_end initializer)
      else if negb (canAssignType init_type (v_type var)) then
        push_error ("Type mismatch in variable initializer: " ++ name)
          "Ensure the initializer type matches the variable type."
          (expr_start initializer) (expr_end initializer)
      else ret tt
  | None => ret tt
  end.

Definition analyzeRecordDeclaration (record_decl : RecordDeclaration)
  : A unit :=
  record <- declareRecord record_decl ;;
  when_ (str_empty (r_name record))
    (push_error
       ("Unable to declare record: " ++ id_name (rec_identifier record_decl))
       "Ensure the record is not already declared."
       (rec_start record_decl) (rec_end record_decl)).

Definition analyzeModifierStatement (mod_stmt : ModifierStatement) : A unit :=
  in_class <- inScope ClassScope ;;
  when_
    (negb in_class
     && (negb (Accessor_eqb (mod_accessor mod_stmt) Public)
         || negb (mod_modifier mod_stmt =? Modifier_None)))
    (push_error "Modifiers can only be used within class scopes."
       "Ensure modifiers are used inside classes."
       (mod_start mod_stmt) (mod_end mod_stmt)).

Definition analyzeExpressionStatement (s e : Locus) (expression : Expression)
  : A unit :=
  expr_type <- inferExpression expression ;;
  when_ (negb (isValid expr_type))
    (push_error "Invalid expression in expression statement."
       "Ensure the expression is valid." s e).

Definition analyzeReturnStatement (s e : Locus)
    (expression : option Expression) : A unit :=
  match expression with
  | Some x => inferExpression x ;; ret tt
  | None => ret tt
  end ;;
  in_function <- inScope FunctionScope ;;
  when_ (negb in_function)
    (push_error "Return statement not within a function scope."
       "Ensure return statements are inside functions." s e).

Definition analyzeBreakStatement (s e : Locus) : A unit :=
  in_loop <- inScope Loop ;;
  when_ (negb in_loop)
    (push_error "Break statement not within a loop scope."
       "Ensure break statements are inside loops." s e).

Definition analyzeContinueStatement (s e : Locus) : A unit :=
  in_loop <- inScope Loop ;;
  when_ (negb in_loop)
    (push_error "Continue statement not within a loop scope."
       "Ensure continue statements are inside loops." s e).

(** The check of a condition, shared by [if] and [while]. *)
Definition check_condition (invalid : string) (condition : Expression)
  : A unit :=
  cond_type <- inferExpression condition ;;
  if negb (isValid cond_type) then
    push_error invalid "Ensure the condition expression is valid."
      (expr_start condition) (expr_end condition)
  else if negb (isTruthy cond_type) then
    push_error "Condition expression must be of a truthy type."
      "Ensure the condition evaluates to a boolean value."
      (expr_start condition) (expr_end condition)
  else ret tt.

(** The parameters of a function, declared in its scope. *)
Fixpoint declare_parameters (decls : list VariableDeclaration) : A unit :=
  match decls with
  | [] => ret tt
  | d :: rest =>
      param <- declareVariable d ;;
      when_ (negb (Variable_isValid param))
        (push_error
           ("Unable to declare function parameter: "
              ++ id_name (var_identifier d))
           "Ensure the parameter is declared correctly."
           (var_start d) (var_end d)) ;;
      declare_parameters rest
  end.

Fixpoint analyzeStatement (stmt : Statement) : A unit :=
  match stmt with
  | DeclarationStmt decl => analyzeDeclaration decl
  | ModifierStmt mod_stmt => analyzeModifierStatement mod_stmt
  | BlockStmt block_stmt => analyzeBlockStatement block_stmt
  | ExpressionStatement s e expression =>
      analyzeExpressionStatement s e expression
  | ConditionalStmt cond => analyzeConditional cond
  | ReturnStatement s e expression => analyzeReturnStatement s e expression
  | BreakStatement s e => analyzeBreakStatement s e
  | ContinueStatement s e => analyzeContinueStatement s e
  end
with analyzeBlockStatement (block_stmt : BlockStatement) : A unit :=
  match block_stmt with
  | mkBlock _ _ statements =>
      enterScope "block" Block ;;
      (fix each (l : list Statement) : A unit :=
         match l with
         | [] => ret tt
         | stmt :: rest => analyzeStatement stmt ;; each rest
         end) statements ;;
      exitScope
  end
with analyzeDeclaration (decl : Declaration) : A unit :=
  match decl with
  | FunctionDecl func_decl => analyzeFunctionDeclaration func_decl
  | VariableDecl var_decl => analyzeVariableDeclaration var_decl
  | ClassDecl class_decl => analyzeClassDeclaration class_decl
  | RecordDecl record_decl => analyzeRecordDeclaration record_decl
  end
with analyzeFunctionDeclaration (func_decl : FunctionDeclaration) : A unit :=
  match func_decl with
  | mkFunctionDeclaration s e identifier _ _ parameters body =>
      func <- declareFunction func_decl ;;
      if negb (Function_isValid func) then
        push_error ("Unable to declare function: " ++ id_name identifier)
          "Ensure the function is declared correctly." s e
      else
        enterScope (id_name identifier) FunctionScope ;;
        declare_parameters parameters ;;
        analyzeBlockStatement body ;;
        exitScope
  end
with analyzeClassDeclaration (class_decl : ClassDeclaration) : A unit :=
  match class_decl with
  | mkClassDeclaration s e identifier _ _ _ methods =>
      cls <- declareClass class_decl ;;
      if str_empty (c_name cls) then
        push_error ("Unable to declare class: " ++ id_name identifier)
          "Ensure the class is not already declared." s e
      else
        enterScope (id_name identifier) ClassScope ;;
        (fix each (l : list FunctionDeclaration) : A unit :=
           match l with
           | [] => ret tt
           | method :: rest => analyzeFunctionDeclaration method ;; each rest
           end) methods ;;
        exitScope
  end
with analyzeConditional (cond : Conditional) : A unit :=
  match cond with
  | IfCond if_cond => analyzeIfConditional if_cond
  | SwitchConditional _ _ switch_expression case_branches =>
      switch_type <- inferExpression switch_expression ;;
      when_ (negb (isValid switch_type))
        (push_error "Invalid type for switch expression."
           "Ensure the switch expression is valid."
           (expr_start switch_expression) (expr_end switch_expression)) ;;
      (fix each (l : list CaseBranch) : A unit :=
         match l with
         | [] => ret tt
         | mkCase _ _ _ then_branch :: rest =>
             analyzeBlockStatement then_branch ;; each rest
         end) case_branches
  | WhileConditional _ _ condition then_branch =>
      enterScope "while" Loop ;;
      check_condition "Invalid type for condition expression." condition ;;
      analyzeBlockStatement then_branch ;;
      exitScope
  | ForConditional _ _ initializer condition increment then_branch =>
      enterScope "for" Loop ;;
      match initializer with
      | Some decl => analyzeDeclaration decl
      | None => ret tt
      end ;;
      match condition with
      | Some c =>
          check_condition "Condition expression must be of a valid type." c
      | None => ret tt
      end ;;
      match increment with
      | Some inc =>
          inc_type <- inferExpression inc ;;
          when_ (negb (isValid inc_type))
            (log_error "Increment expression must be of a valid type."
               "Ensure the increment expression is valid."
               (expr_start inc) (expr_end inc))
      | None => ret tt
      end ;;
      analyzeBlockStatement then_branch ;;
      exitScope
  end
with analyzeIfConditional (if_cond : IfConditional) : A unit :=
  match if_cond with
  | mkIf _ _ condition then_branch elif_branches else_branch =>
      check_condition "Invalid type for condition expression." condition ;;
      analyzeBlockStatement then_branch ;;
      (fix each (l : list IfConditional) : A unit :=
         match l with
         | [] => ret tt
         | elif_branch :: rest => analyzeIfConditional elif_branch ;; each rest
         end) elif_branches ;;
      match else_branch with
      | Some b => analyzeBlockStatement b
      | None => ret tt
      end
  end.

Fixpoint analyze_each (statements : list Statement) : A unit :=
  match statements with
  | [] => ret tt
  | stmt :: rest => analyzeStatement stmt ;; analyze_each rest
  end.

Definition analyze (program : Program) : A unit :=
  enterScope "global" Global ;;
  analyze_each (prog_statements program) ;;
  exitScope.

Definition hasErrors (a : Analyzer) : bool :=
  match errors a with
  | [] => false
  | _ :: _ => true
  end.

(** The analyzer at [st'] is [st] with the same scope and more errors. *)
Definition extends (st st' : Analyzer) : Prop :=
  current_scope st' = current_scope st
  /\ exists more, errors st' = (errors st ++ more)%list.

(** A variable declaration without its initializer. *)
Definition without_initializer (d : VariableDeclaration)
  : VariableDeclaration :=
  mkVariableDeclaration (var_start d) (var_end d) (var_identifier d)
    (var_type d) (var_modifier d) None.

(** A record declaration whose fields have lost their initializers. *)
Definition without_field_initializers (r : RecordDeclaration)
  : RecordDeclaration :=
  mkRecordDeclaration (rec_start r) (rec_end r) (rec_identifier r)
    (rec_type r) (rec_modifier r) (map without_initializer (rec_fields r)).

End Sema.

(** ** The driver (compiler.cpp) *)

(** [compileSource]: parse, then analyze with a fresh analyzer.  The
    result is the exit code with the diagnostics written while parsing
    and the errors the analyzer accumulated. *)
Definition compileSource (fuel : nat) (source : string)
  : Outcome (N * list Diagnostic * list Diagnostic) :=
  match Parser.parse fuel source with
  | Ok (program, written) =>
      match Sema.analyze program Sema.Analyzer_new with
      | Ok (_, analyzer) =>
          Ok (if Sema.hasErrors analyzer then 1 else 0, written,
              Sema.errors analyzer)
      | Crash => Crash
      | Thrown w => Thrown w
      | OutOfFuel => OutOfFuel
      end
  | Crash => Crash
  | Thrown w => Thrown w
  | OutOfFuel => OutOfFuel
  end.


(** ** Sample inputs *)

(** The source of an unterminated string literal. *)
Definition unterminated_source : string := String Lexer.dquote "unterminated".

(** The declaration [let a: i32[] = [];] as the parser builds it. *)
Definition empty_array_declaration : Ast.VariableDeclaration :=
  Ast.mkVariableDeclaration (one_line 4) (one_line 17)
    (Ast.mkIdentifier (one_line 4) (one_line 5) "a")
    (Ast.ArrayIdentifierExpression (one_line 7) (one_line 10) "i32"
       (Some (Ast.LiteralExpression (one_line 7) (one_line 10) "-1"
                Ast.LInteger)))
    (Ast.mkModifier (one_line 4) (one_line 4) Private Modifier_None)
    (Some (Ast.ArrayExpression (one_line 16) (one_line 17) [])).

(** The initializers of the fields of the records declared at the top
    of a parsed program. *)
Definition record_field_initializers
    (r : Outcome (Ast.Program * list Diagnostic))
  : list (option Ast.Expression) :=
  match r with
  | Ok (program, _) =>
      flat_map
        (fun stmt =>
           match stmt with
           | Ast.DeclarationStmt (Ast.RecordDecl d) =>
               map Ast.var_initializer (Ast.rec_fields d)
           | _ => []
           end)
        (Ast.prog_statements program)
  | _ => []
  end.

(** The analyzer right after [analyze] has entered the global scope. *)
Definition in_global_scope : Sema.Analyzer :=
  Sema.mkAnalyzer (Some (Sema.mkScope "global" 0 [] [] [] [] None)) [] [].

(** ** The vocabulary of the further properties *)

(** *** Syntax *)

Module SyntaxVocabulary.

(** The words [isKwy] accepts, by length. *)
Definition keywords : list string :=
  ["if"; "fn"; "in";
   "for"; "let"; "cls"; "rec"; "pub"; "pri"; "pro";
   "elif"; "else"; "case"; "this"; "null"; "true";
   "while"; "break"; "const"; "false";
   "return"; "switch"; "default"; "continue"].

End SyntaxVocabulary.

(** *** The lexer *)

Module LexerVocabulary.
Import Lexer.

(** The source text from one index up to another. *)
Definition slice (source : string) (from to : N) : string :=
  substring (N.to_nat from) (N.to_nat (to - from)) source.

(** What [value] is to return: the text from [start_] to [current_]. *)
Definition text (lx : t) : string :=
  slice (source_ lx) (index (start_ lx)) (index (current_ lx)).

(** The cached value is marked dirty, or it is the text. *)
Definition sound (lx : t) : Prop :=
  value_dirty_ lx = true \/ cached_value_ lx = text lx.

(** [lx'] is [lx] after reading on in the same token, with a cache that
    can be trusted. *)
Definition moved (lx lx' : t) : Prop :=
  source_ lx' = source_ lx /\ start_ lx' = start_ lx
  /\ index (current_ lx) <= index (current_ lx')
  /\ inside lx'
  /\ sound lx'.

(** Only whitespace from one index up to another. *)
Definition blank (source : string) (from to : N) : Prop :=
  forall i, from <= i < to ->
    Syntax.isWsp (char_at source (N.to_nat i)) = true.

(** The tokens spell the source from [from] on: each starts after
    whitespace only, ends inside the source, is not empty unless it is
    final, and - the None token aside - carries the text between its
    start and its end. *)
Fixpoint spells (source : string) (from : N) (tokens : list Token) : Prop :=
  match tokens with
  | [] => True
  | tok :: rest =>
      from <= index (tok_start tok)
      /\ index (tok_start tok) <= index (tok_end tok)
      /\ index (tok_end tok) <= length64 source
      /\ blank source from (index (tok_start tok))
      /\ (is_final (tok_kind tok) = false ->
          index (tok_start tok) < index (tok_end tok))
      /\ (tok_kind tok <> TNone ->
          tok_value tok
          = slice source (index (tok_start tok)) (index (tok_end tok)))
      /\ spells source (index (tok_end tok)) rest
  end.

(** What a rule answers: no token and the lexer as it was, or a token
    that carries the text it read. *)
Definition rule_text (r : rule) : Prop :=
  forall lx res lx',
    fits lx -> inside lx -> index (start_ lx) <= index (current_ lx) ->
    r lx = Some (res, lx') ->
    match res with
    | None => lx' = lx
    | Some tok =>
        tok_start tok = start_ lx /\ tok_end tok = current_ lx'
        /\ tok_value tok
           = slice (source_ lx) (index (start_ lx)) (index (current_ lx'))
        /\ source_ lx' = source_ lx
    end.



(** The line, column and index reached after reading [n] characters of
    [s] from the position [from]: a line feed starts a line at column
    1, every other character is one column. *)
Fixpoint locus_from (s : string) (n : nat) (from : Locus) {struct n}
  : Locus :=
  match n with
  | O => from
  | S n' =>
      match s with
      | EmptyString => from
      | String c s' =>
          locus_from s' n'
            (if (c =? "010")%char
             then mkLocus (line from + 1) 1 (index from + 1)
             else mkLocus (line from) (column from + 1) (index from + 1))
      end
  end.

(** The position of the character with index [n], counted from line 1,
    column 1. *)
Definition locus_at (s : string) (n : N) : Locus :=
  locus_from s (N.to_nat n) (mkLocus 1 1 0).

(** The cursor is where its index says, in a source short enough for
    the counters. *)
Definition placed (lx : t) : Prop :=
  length64 (source_ lx) + 1 < 2 ^ 64
  /\ index (current_ lx) <= length64 (source_ lx)
  /\ current_ lx = locus_at (source_ lx) (index (current_ lx)).

(** Both ends of the token are the positions of their indices. *)
Definition located (source : string) (tok : Token) : Prop :=
  tok_start tok = locus_at source (index (tok_start tok))
  /\ tok_end tok = locus_at source (index (tok_end tok)).

Definition rule_placed (r : rule) : Prop :=
  forall lx res lx',
    placed lx -> r lx = Some (res, lx') ->
    placed lx' /\ source_ lx' = source_ lx.

(** What the None token carries.  [makeToken] reads [value], and
    [ignore] moves [start_] without raising [value_dirty_]: right
    after a token the cache still holds that token's text.  So the None
    token, which spans nothing, repeats the text of the token before it
    when nothing separates them, and is empty otherwise. *)
Fixpoint echoes (before : option Token) (tokens : list Token) : Prop :=
  match tokens with
  | [] => True
  | tok :: rest =>
      (tok_kind tok = TNone ->
       tok_start tok = tok_end tok
       /\ tok_value tok
          = match before with
            | Some p =>
                if index (tok_end p) =? index (tok_start tok)
                then tok_value p else ""
            | None => ""
            end)
      /\ echoes (Some tok) rest
  end.

(** The cache after the token [before]: clean, and holding its text;
    dirty at the start of [lex]. *)
Definition settled (before : option Token) (lx : t) : Prop :=
  match before with
  | None => value_dirty_ lx = true
  | Some p =>
      value_dirty_ lx = false /\ cached_value_ lx = tok_value p
      /\ index (current_ lx) = index (tok_end p)
  end.

Definition rule_settled (r : rule) : Prop :=
  forall lx tok lx',
    r lx = Some (Some tok, lx') ->
    tok_kind tok <> TNone
    /\ value_dirty_ lx' = false /\ cached_value_ lx' = tok_value tok.

(** Some rule of [next] reads the character at the index [i] of the
    source: the tests of [lexAlpha], [lexNumeric], [lexCharacter],
    [lexString], [lexOperator] and [lexDelimiter], in their order, on
    the character [peek] returns there and on the one-character string
    [look] returns there. *)
Definition starts_token (source : string) (i : N) : bool :=
  let c := char_at source (N.to_nat i) in
  let s := substring (N.to_nat i) 1 source in
  isalpha c || (c =? "_")%char
  || isdigit c
  || (c =? "'")%char
  || (c =? dquote)%char
  || Syntax.isOp s
  || Syntax.isDel s.

(** The same tests on a lexer, as the rules make them. *)
Definition guards : list (t -> bool) :=
  [ fun lx => isalpha (peek lx) || (peek lx =? "_")%char;
    fun lx => isdigit (peek lx);
    fun lx => (peek lx =? "'")%char;
    fun lx => (peek lx =? dquote)%char;
    fun lx => Syntax.isOp (look lx);
    fun lx => Syntax.isDel (look lx) ].

(** A rule answers with a token exactly when its test passes, and it
    leaves the lexer as it was otherwise. *)
Definition rule_guarded (g : t -> bool) (r : rule) : Prop :=
  forall lx,
    (g lx = false -> r lx = Some (None, lx))
    /\ (g lx = true ->
        forall res lx', r lx = Some (res, lx') -> res <> None).

(** Where the token list stops: every token before the last is neither
    Eof nor None and starts at a character some rule reads; the last is
    the Eof token, at the end of the source, or the None token, before
    the end, at a character that is no whitespace and that no rule
    reads. *)
Definition stops (source : string) (tokens : list Token) : Prop :=
  exists front final,
    tokens = (front ++ [final])%list
    /\ Forall (fun tok =>
                 is_final (tok_kind tok) = false
                 /\ starts_token source (index (tok_start tok)) = true)
         front
    /\ match tok_kind final with
       | TEof => index (tok_start final) = length64 source
       | TNone =>
           index (tok_start final) < length64 source
           /\ Syntax.isWsp
                (char_at source (N.to_nat (index (tok_start final))))
              = false
           /\ starts_token source (index (tok_start final)) = false
       | _ => False
       end.

End LexerVocabulary.

(** *** The parser *)

Module ParserVocabulary.
Import Parser.

(** A token that can start a member of a class: an accessor, a modifier
    or [fn]. *)
Definition member_start (tok : Token) : bool :=
  isacc (tok_value tok) || ismod (tok_value tok)
  || (tok_value tok =? "fn")%string.

(** The current token has this value. *)
Definition at_value (st : State) (value : string) : bool :=
  match token_at st (index_ st) with
  | Some tok => (tok_value tok =? value)%string
  | None => false
  end.

(** The parser on the tokens of a source. *)
Definition on_source (source : string) : State :=
  match Lexer.tokenize source with
  | Some (tokens, lexlog) => mkState tokens 0 Token_default lexlog
  | None => mkState [] 0 Token_default []
  end.

(** The state a run ends in and the result it gives, for a run that
    returns; the state it started in and [d] otherwise. *)
Definition state_after {A : Type} (m : P A) (st : State) : State :=
  match m st with
  | Ok (_, st') => st'
  | _ => st
  end.

Definition result_of {A : Type} (m : P A) (st : State) (d : A) : A :=
  match m st with
  | Ok (a, _) => a
  | _ => d
  end.

End ParserVocabulary.

(** *** Scopes *)

Module ScopeVocabulary.
Import Sema.
(** The variable of that name in the scope's own list, parents aside. *)
Definition own_variable (sc : Scope) (name : string) : option Variable_ :=
  match sc with
  | mkScope _ _ vs _ _ _ _ => find (fun v => (v_name v =? name)%string) vs
  end.
End ScopeVocabulary.

(** *** The analyzer *)

Module AnalyzerVocabulary.
Import Ast Sema.

(** Two scopes that are the same place of the scope tree: same name,
    kind and parent; the declarations may differ. *)
Definition same_frame (a b : option Scope) : Prop :=
  match a, b with
  | None, None => True
  | Some (mkScope n k _ _ _ _ p), Some (mkScope n' k' _ _ _ _ p') =>
      n = n' /\ k = k' /\ p = p'
  | _, _ => False
  end.

(** The analyzer at [st'] is at the same place as at [st], with more
    errors. *)
Definition keeps (st st' : Analyzer) : Prop :=
  same_frame (current_scope st) (current_scope st')
  /\ exists more, errors st' = (errors st ++ more)%list.

(** The scope [exitScope] goes back to. *)
Definition parent_of (o : option Scope) : option Scope :=
  match o with
  | Some sc => getParent sc
  | None => None
  end.

(** The analyzer at [st'] is one scope up from [st], with more errors. *)
Definition leaves (st st' : Analyzer) : Prop :=
  current_scope st' = parent_of (current_scope st)
  /\ exists more, errors st' = (errors st ++ more)%list.

(** A property of the expression behind a pointer that may be null. *)
Definition P_opt (P : Expression -> Prop) (o : option Expression) : Prop :=
  match o with
  | Some x => P x
  | None => True
  end.

(** A computation that never throws, and whose returns are related to
    the state it started in by [R].  Only a null pointer can stop it. *)
Definition upholds (R : Analyzer -> Analyzer -> Prop) {X : Type} (m : A X)
  : Prop :=
  forall st,
    match m st with
    | Ok (_, st') => R st st'
    | Crash => True
    | Thrown _ => False
    | OutOfFuel => False
    end.

Definition preserving {X : Type} (m : A X) : Prop := upholds extends m.
Definition framed {X : Type} (m : A X) : Prop := upholds keeps m.
Definition exiting {X : Type} (m : A X) : Prop := upholds leaves m.

(** A computation that does not stop on a null pointer once there is a
    current scope. *)
Definition steady {X : Type} (m : A X) : Prop :=
  forall st, current_scope st <> None -> m st <> Crash.

(** A tree without null children: every argument of a call and every
    element of an array literal is there. *)
Fixpoint complete (x : Expression) : bool :=
  let all :=
    fix all (l : list (option Expression)) : bool :=
      match l with
      | [] => true
      | None :: _ => false
      | Some y :: rest => complete y && all rest
      end in
  match x with
  | BinaryExpression _ _ lhs _ rhs => complete lhs && complete rhs
  | UnaryExpression _ _ _ operand => complete operand
  | LiteralExpression _ _ _ _ => true
  | IdentifierExpression _ _ _ => true
  | ArrayIdentifierExpression _ _ _ _ => true
  | IndexExpression _ _ array index => complete array && complete index
  | CallExpression _ _ callee arguments => complete callee && all arguments
  | AttributeExpression _ _ object attribute =>
      complete object && complete attribute
  | ArrayExpression _ _ elements => all elements
  end.

(** The same for a list of arguments or elements. *)
Definition complete_all : list (option Expression) -> bool :=
  fix all (l : list (option Expression)) : bool :=
    match l with
    | [] => true
    | None :: _ => false
    | Some y :: rest => complete y && all rest
    end.

Definition complete_option {T : Type} (f : T -> bool) (o : option T) : bool :=
  match o with
  | Some x => f x
  | None => true
  end.

Definition complete_variable (d : VariableDeclaration) : bool :=
  complete (var_type d) && complete_option complete (var_initializer d).

Definition complete_record (r : RecordDeclaration) : bool :=
  forallb complete_variable (rec_fields r).

Fixpoint complete_statement (stmt : Statement) : bool :=
  match stmt with
  | ReturnStatement _ _ x => complete_option complete x
  | BreakStatement _ _ => true
  | ContinueStatement _ _ => true
  | ExpressionStatement _ _ x => complete x
  | BlockStmt b => complete_block b
  | ModifierStmt _ => true
  | DeclarationStmt d => complete_declaration d
  | ConditionalStmt c => complete_conditional c
  end
with complete_block (b : BlockStatement) : bool :=
  match b with
  | mkBlock _ _ statements => forallb complete_statement statements
  end
with complete_declaration (d : Declaration) : bool :=
  match d with
  | VariableDecl v => complete_variable v
  | FunctionDecl f => complete_function f
  | ClassDecl c => complete_class c
  | RecordDecl r => complete_record r
  end
with complete_function (f : FunctionDeclaration) : bool :=
  match f with
  | mkFunctionDeclaration _ _ _ type _ parameters body =>
      complete type && forallb complete_variable parameters
      && complete_block body
  end
with complete_class (c : ClassDeclaration) : bool :=
  match c with
  | mkClassDeclaration _ _ _ _ _ fields methods =>
      forallb complete_variable fields && forallb complete_function methods
  end
with complete_conditional (c : Conditional) : bool :=
  match c with
  | IfCond i => complete_if i
  | SwitchConditional _ _ x cases =>
      complete x
      && forallb (fun c => match c with
                           | mkCase _ _ _ b => complete_block b
                           end) cases
  | WhileConditional _ _ condition body =>
      complete condition && complete_block body
  | ForConditional _ _ initializer condition increment body =>
      complete_option complete_declaration initializer
      && complete_option complete condition
      && complete_option complete increment
      && complete_block body
  end
with complete_if (i : IfConditional) : bool :=
  match i with
  | mkIf _ _ condition body elifs else_ =>
      complete condition && complete_block body
      && forallb complete_if elifs
      && complete_option complete_block else_
  end.

Definition complete_program (p : Program) : bool :=
  forallb complete_statement (prog_statements p).

End AnalyzerVocabulary.

(** ** More sample inputs *)

(** The program the parser builds from a source, or the empty program
    when it builds none. *)
Definition parsed (source : string) : Ast.Program :=
  match Parser.parse 200 source with
  | Ok (program, _) => program
  | _ => Ast.mkProgram (mkLocus 0 0 0) (mkLocus 0 0 0) []
  end.

(** A program with a function, a call, a loop and a conditional. *)
Definition counting_source : string :=
  "fn inc(n: i64): i64 { return n + 1; } let x: i64 = inc(2); "
  ++ "while x < 3 { if x == 1 { x = inc(x); } else { break; } }".

(** The global scope with one function [f] returning [i64] and one
    variable [a] of type [i64]. *)
Definition with_f_and_a : Sema.Analyzer :=
  Sema.mkAnalyzer
    (Some (Sema.mkScope "global" 0
             [Sema.mkVariable "a" Sema.i64_ty Public Modifier_None]
             [Sema.mkFunction "f" Sema.i64_ty [] Public Modifier_None]
             [] [] None))
    [] [].

(** The declaration [let a: str] of a name that scope already has. *)
Definition second_a : Ast.VariableDeclaration :=
  Ast.mkVariableDeclaration (one_line 4) (one_line 10)
    (Ast.mkIdentifier (one_line 4) (one_line 5) "a")
    (Ast.IdentifierExpression (one_line 7) (one_line 10) "str")
    (Ast.mkModifier (one_line 4) (one_line 4) Private Modifier_None)
    None.

(** The call [f(a)]. *)
Definition call_f_a : Ast.Expression :=
  Ast.CallExpression (one_line 0) (one_line 4)
    (Ast.IdentifierExpression (one_line 0) (one_line 1) "f")
    [Some (Ast.IdentifierExpression (one_line 2) (one_line 3) "a")].

(** * Properties *)

(** ** The syntax tables *)

Module SyntaxFacts.
Import Syntax.

Ltac each_ascii c :=
  destruct c as [[] [] [] [] [] [] [] []].

(** C4 (as amended): for every string, [opLen] is 2 on a two-char
    operator prefix, 1 on a single-char operator that nothing follows
    (the next character is NUL), and 0 otherwise. *)
Theorem opLen_exact : forall s : string, opLen s = operatorLength_exact s.
Proof.
  intros [|c0 [|c1 rest]].
  - reflexivity.
  - each_ascii c0; vm_compute; reflexivity.
  - each_ascii c0; try (vm_compute; reflexivity);
      each_ascii c1; vm_compute; reflexivity.
Qed.

(** C4 (as stated) fails: on "+a" the specification's wording gives 1,
    the code gives 0. *)
Lemma opLen_single_then_other :
  opLen "+a" = 0 /\ operatorLength_spec "+a" = 1.
Proof. split; vm_compute; reflexivity. Qed.

End SyntaxFacts.

(** ** Runs *)

Section Runs.
Context {St : Type}.

Lemma bind_Ok {A B : Type} (m : M St A) (k : A -> M St B) st r :
  bind m k st = Ok r ->
  exists a st1, m st = Ok (a, st1) /\ k a st1 = Ok r.
Proof.
  unfold bind. destruct (m st) as [[a st1]| | |]; try discriminate. eauto.
Qed.

Lemma bind_step {A B : Type} (m : M St A) (k : A -> M St B) st a st1 :
  m st = Ok (a, st1) -> bind m k st = k a st1.
Proof. unfold bind. now intros ->. Qed.

Lemma bind_Crash {A B : Type} (m : M St A) (k : A -> M St B) st :
  m st = Crash -> bind m k st = Crash.
Proof. unfold bind. now intros ->. Qed.
End Runs.


(** ** The lexer *)

Module LexerFacts.
Import Lexer.

Lemma follows_refl lx : inside lx -> follows lx lx.
Proof. unfold follows; intuition lia. Qed.

Lemma follows_trans a b c : follows a b -> follows b c -> follows a c.
Proof.
  unfold follows, inside. intros (S1 & L1 & I1) (S2 & L2 & I2).
  repeat split; [congruence | lia | exact I2].
Qed.

Lemma follows_fits a b : follows a b -> fits a -> fits b.
Proof. unfold follows, fits. intros (S1 & _) H. now rewrite S1. Qed.

Create HintDb lexer discriminated.
#[local] Hint Resolve follows_refl follows_fits : lexer.

Lemma isEof_false lx : isEof lx = false ->
  index (current_ lx) < length64 (source_ lx).
Proof. unfold isEof. intros H. apply N.leb_gt in H. exact H. Qed.

Lemma isEof_true lx : isEof lx = true ->
  length64 (source_ lx) <= index (current_ lx).
Proof. unfold isEof. intros H. now apply N.leb_le in H. Qed.

Lemma wrap64_small n : n < 2 ^ 64 -> wrap64 n = n.
Proof. intros H. unfold wrap64. now apply N.mod_small. Qed.

Lemma advance_source lx : source_ (advance lx) = source_ lx.
Proof.
  unfold advance. destruct (isEof lx); [reflexivity|].
  destruct (_ =? _)%char; reflexivity.
Qed.

Lemma advance_index lx : fits lx -> isEof lx = false ->
  index (current_ (advance lx)) = index (current_ lx) + 1.
Proof.
  intros F E. pose proof (isEof_false _ E) as L. unfold fits in F.
  unfold advance. rewrite E.
  destruct (_ =? _)%char; cbn; apply wrap64_small; lia.
Qed.

Lemma advance_at_end lx : isEof lx = true -> advance lx = lx.
Proof. intros E. unfold advance. now rewrite E. Qed.

Lemma advance_follows lx : fits lx -> inside lx -> follows lx (advance lx).
Proof.
  intros F I. destruct (isEof lx) eqn:E.
  - rewrite advance_at_end by exact E. now apply follows_refl.
  - pose proof (isEof_false _ E) as L.
    unfold follows, inside. rewrite advance_source, advance_index by assumption.
    repeat split; lia.
Qed.

(** Reading one character when there is one. *)
Lemma advance_strict lx : fits lx -> isEof lx = false ->
  follows lx (advance lx)
  /\ index (current_ lx) < index (current_ (advance lx))
  /\ (rest (advance lx) < rest lx)%nat.
Proof.
  intros F E. pose proof (isEof_false _ E) as L.
  unfold follows, inside, rest.
  rewrite advance_source, advance_index by assumption.
  repeat split; lia.
Qed.

Lemma peek_not_NUL lx c :
  (peek lx =? c)%char = true -> c <> NUL -> isEof lx = false.
Proof.
  unfold peek. destruct (isEof lx); [|reflexivity].
  intros H N. apply Ascii.eqb_eq in H. congruence.
Qed.

Lemma peek_class lx (p : ascii -> bool) :
  p NUL = false -> p (peek lx) = true -> isEof lx = false.
Proof.
  unfold peek. destruct (isEof lx); [|reflexivity]. congruence.
Qed.

Lemma take_loop_follows p : forall fuel lx,
  fits lx -> inside lx -> (rest lx < fuel)%nat ->
  exists lx', take_loop fuel p lx = Some lx' /\ follows lx lx'.
Proof.
  induction fuel as [|fuel IH]; intros lx F I R; [lia|].
  cbn [take_loop].
  destruct (p (peek lx)); [|eauto with lexer].
  destruct (isEof lx) eqn:E; [eauto with lexer|].
  destruct (advance_strict lx F E) as (Fo & _ & Lt).
  destruct (IH (advance lx)) as (lx' & H & Fo').
  - eapply follows_fits; eauto.
  - apply Fo.
  - lia.
  - exists lx'. split; [exact H|]. eapply follows_trans; eauto.
Qed.

Lemma rest_bound lx : (rest lx < loop_fuel lx)%nat.
Proof. unfold rest, loop_fuel, length64. lia. Qed.

Lemma take_follows p lx : fits lx -> inside lx ->
  exists lx', take p lx = Some lx' /\ follows lx lx'.
Proof. intros. apply take_loop_follows; auto using rest_bound. Qed.

(** When the first character passes the test, [take] reads it. *)
Lemma take_strict p lx : fits lx -> inside lx ->
  p (peek lx) = true -> isEof lx = false ->
  exists lx', take p lx = Some lx' /\ follows lx lx'
              /\ index (current_ lx) < index (current_ lx').
Proof.
  intros F I P E. unfold take, loop_fuel. cbn [take_loop]. rewrite P, E.
  destruct (advance_strict lx F E) as (Fo & Lt & R).
  destruct (take_loop_follows p (String.length (source_ lx)) (advance lx))
    as (lx' & H & Fo').
  - eapply follows_fits; eauto.
  - apply Fo.
  - pose proof (rest_bound lx). unfold loop_fuel in *. lia.
  - exists lx'. split; [exact H|]. split; [eapply follows_trans; eauto|].
    destruct Fo' as (_ & L & _). lia.
Qed.

Lemma follows_same a b c : follows a b -> same b c -> follows a c.
Proof.
  unfold follows, same, inside. intros (S1 & L1 & I1) (S2 & C2).
  rewrite S2, C2. auto.
Qed.

Lemma value_same lx : same lx (snd (value lx)).
Proof. unfold value, same. destruct (negb _); cbn; auto. Qed.

Lemma makeToken_same kind lx : same lx (snd (makeToken kind lx)).
Proof.
  unfold makeToken. pose proof (value_same lx) as V.
  destruct (value lx) as [v lx1]. cbn in *. unfold same, ignore in *. cbn.
  tauto.
Qed.

Lemma makeToken_kind kind lx : tok_kind (fst (makeToken kind lx)) = kind.
Proof. unfold makeToken. destruct (value lx). reflexivity. Qed.

Lemma log_error_same d lx : same lx (log_error d lx).
Proof. unfold same, log_error. cbn. auto. Qed.

Lemma ignore_same lx : same lx (ignore lx).
Proof. unfold same, ignore. cbn. auto. Qed.

Lemma answers_none lx : inside lx -> answers lx (Some (None, lx)).
Proof. intros I. exists None, lx. auto using follows_refl. Qed.

Lemma answers_emit lx0 lx kind :
  follows lx0 lx -> index (current_ lx0) < index (current_ lx) ->
  is_final kind = false -> answers lx0 (emit (makeToken kind lx)).
Proof.
  intros Fo Lt K. unfold emit, answers.
  exists (Some (fst (makeToken kind lx))), (snd (makeToken kind lx)).
  pose proof (makeToken_same kind lx) as Sm.
  split; [reflexivity|]. split; [eapply follows_same; eauto|].
  rewrite makeToken_kind. destruct Sm as (_ & C). rewrite C. auto.
Qed.

Lemma lexAlpha_ok : rule_ok lexAlpha.
Proof.
  intros lx F I. unfold lexAlpha.
  destruct (isalpha (peek lx) || (peek lx =? "_")%char) eqn:C;
    [|now apply answers_none].
  assert (E : isEof lx = false).
  { apply (peek_class lx (fun c => isalpha c || (c =? "_")%char));
      [reflexivity | exact C]. }
  destruct (take_strict (fun c => isalnum c || (c =? "_")%char) lx F I)
    as (lx1 & T & Fo & Lt); [|exact E|].
  { unfold isalnum. apply orb_true_iff in C. destruct C as [C|C]; rewrite C;
      [reflexivity | apply orb_true_r]. }
  rewrite T. pose proof (value_same lx1) as V.
  destruct (value lx1) as [v lx2]. cbn in V. destruct V as (S2 & C2).
  assert (Fo2 : follows lx lx2) by (eapply follows_same; eauto; split; auto).
  destruct (Syntax.isKwy v); apply answers_emit; auto; rewrite C2; exact Lt.
Qed.

Lemma lexNumeric_ok : rule_ok lexNumeric.
Proof.
  intros lx F I. unfold lexNumeric.
  destruct (isdigit (peek lx)) eqn:C; [|now apply answers_none].
  assert (E : isEof lx = false)
    by (apply (peek_class lx isdigit); [reflexivity | exact C]).
  destruct (take_strict isdigit lx F I C E) as (lx1 & T & Fo & Lt).
  rewrite T.
  destruct (peek lx1 =? ".")%char; [|apply answers_emit; auto].
  destruct (_ && _); [apply answers_emit; auto|].
  assert (F1 : fits lx1) by (eapply follows_fits; eauto).
  assert (I1 : inside lx1) by apply Fo.
  pose proof (advance_follows lx1 F1 I1) as Fo1.
  destruct (take_follows isdigit (advance lx1)) as (lx2 & T2 & Fo2).
  { eapply follows_fits; eauto. }
  { apply Fo1. }
  rewrite T2. apply answers_emit; auto.
  - eapply follows_trans; [exact Fo|]. eapply follows_trans; eauto.
  - destruct Fo1 as (_ & L1 & _). destruct Fo2 as (_ & L2 & _). lia.
Qed.

(** A run of [advance]s and loggings keeps following. *)
Lemma follows_advance a b : fits a -> follows a b -> follows a (advance b).
Proof.
  intros F Fo. eapply follows_trans; [exact Fo|].
  apply advance_follows; [eapply follows_fits; eauto | apply Fo].
Qed.

Lemma follows_log a b d : follows a b -> follows a (log_error d b).
Proof. intros Fo. eapply follows_same; [exact Fo | apply log_error_same]. Qed.

Lemma follows_index a b : follows a b ->
  index (current_ a) <= index (current_ b).
Proof. intros (_ & L & _). exact L. Qed.

(** The same, for a token cut after more reading from [lx1]. *)
Lemma answers_emit_after lx0 lx1 lx kind :
  index (current_ lx0) < index (current_ lx1) ->
  follows lx0 lx1 -> follows lx1 lx ->
  is_final kind = false -> answers lx0 (emit (makeToken kind lx)).
Proof.
  intros Lt Fo1 Fo K. apply answers_emit; auto.
  - eapply follows_trans; eauto.
  - pose proof (follows_index _ _ Fo). lia.
Qed.

Ltac keep_following :=
  repeat first
    [ apply follows_refl; assumption
    | apply follows_log
    | apply follows_advance; [assumption|]
    | match goal with
      | |- follows _ (if ?b then _ else _) => destruct b
      end ].

Lemma lexCharacter_ok : rule_ok lexCharacter.
Proof.
  intros lx F I. unfold lexCharacter.
  destruct (peek lx =? "'")%char eqn:C; [|now apply answers_none].
  assert (E : isEof lx = false) by (eapply peek_not_NUL; [exact C | discriminate]).
  destruct (advance_strict lx F E) as (Fo1 & Lt1 & _).
  assert (F1 : fits (advance lx)) by (eapply follows_fits; eauto).
  assert (I1 : inside (advance lx)) by apply Fo1.
  cbv zeta. apply answers_emit_after with (lx1 := advance lx); auto.
  keep_following.
Qed.

Lemma lexString_loop_follows : forall fuel lx,
  fits lx -> inside lx -> (rest lx < fuel)%nat ->
  exists lx', lexString_loop fuel lx = Some lx' /\ follows lx lx'.
Proof.
  induction fuel as [|fuel IH]; intros lx F I R; [lia|].
  cbn [lexString_loop].
  destruct (negb _); [|eauto using follows_refl].
  destruct (isEof lx) eqn:E.
  - eexists. split; [reflexivity|]. apply follows_log, follows_refl, I.
  - destruct (advance_strict lx F E) as (Fo & _ & Lt).
    destruct (IH (advance lx)) as (lx' & H & Fo').
    + eapply follows_fits; eauto.
    + apply Fo.
    + lia.
    + exists lx'. split; [exact H|]. eapply follows_trans; eauto.
Qed.

Lemma lexString_ok : rule_ok lexString.
Proof.
  intros lx F I. unfold lexString.
  destruct (peek lx =? dquote)%char eqn:C; [|now apply answers_none].
  assert (E : isEof lx = false) by (eapply peek_not_NUL; [exact C | discriminate]).
  destruct (advance_strict lx F E) as (Fo1 & Lt1 & _).
  assert (F1 : fits (advance lx)) by (eapply follows_fits; eauto).
  destruct (lexString_loop_follows (loop_fuel (advance lx)) (advance lx))
    as (lx2 & H & Fo2); auto using rest_bound; [apply Fo1|].
  rewrite H. apply answers_emit; auto.
  - eapply follows_trans; [exact Fo1|]. now apply follows_advance.
  - pose proof (follows_index _ _ (follows_advance _ _ F1 Fo2)). lia.
Qed.

Lemma substring_beyond : forall (s : string) (n : nat),
  (String.length s <= n)%nat -> substring n 1 s = "".
Proof.
  induction s as [|c s IH]; intros [|n] L; cbn in *; try reflexivity; try lia.
  apply IH. lia.
Qed.

Lemma look_at_end lx : isEof lx = true -> look lx = "".
Proof.
  intros E. apply isEof_true in E. unfold look, length64 in *.
  apply substring_beyond. lia.
Qed.

Lemma look_rule lx (p : string -> bool) :
  p "" = false -> p (look lx) = true -> isEof lx = false.
Proof.
  intros P0 P. destruct (isEof lx) eqn:E; [|reflexivity].
  rewrite (look_at_end lx E) in P. congruence.
Qed.

Lemma lexOperator_ok : rule_ok lexOperator.
Proof.
  intros lx F I. unfold lexOperator.
  destruct (Syntax.isOp (look lx)) eqn:C; [|now apply answers_none].
  assert (E : isEof lx = false)
    by (apply (look_rule lx Syntax.isOp); [reflexivity | exact C]).
  destruct (advance_strict lx F E) as (Fo1 & Lt1 & _).
  assert (F1 : fits (advance lx)) by (eapply follows_fits; eauto).
  pose proof (value_same (advance lx)) as V.
  destruct (value (advance lx)) as [v lx2]. cbn in V.
  assert (Fo2 : follows (advance lx) lx2)
    by (eapply follows_same; [apply follows_refl, Fo1 | exact V]).
  assert (I2 : inside lx2) by apply Fo2.
  apply answers_emit_after with (lx1 := advance lx); auto.
  match goal with
  | |- follows _ (if ?b then _ else _) => destruct b
  end; [now apply follows_advance | exact Fo2].
Qed.

Lemma lexDelimiter_ok : rule_ok lexDelimiter.
Proof.
  intros lx F I. unfold lexDelimiter.
  destruct (Syntax.isDel (look lx)) eqn:C; [|now apply answers_none].
  assert (E : isEof lx = false)
    by (apply (look_rule lx Syntax.isDel); [reflexivity | exact C]).
  destruct (advance_strict lx F E) as (Fo1 & Lt1 & _).
  apply answers_emit; auto.
Qed.

Lemma first_rule_ok rules : Forall rule_ok rules ->
  forall lx, fits lx -> inside lx -> answers lx (first_rule rules lx).
Proof.
  induction 1 as [|r rules R _ IH]; intros lx F I; cbn [first_rule].
  - now apply answers_none.
  - destruct (R lx F I) as (res & lx' & H & Fo & P). rewrite H.
    destruct res as [tok|].
    + exists (Some tok), lx'. auto.
    + destruct (IH lx') as (res2 & lx2 & H2 & Fo2 & P2).
      * eapply follows_fits; eauto.
      * apply Fo.
      * exists res2, lx2. split; [exact H2|].
        split; [eapply follows_trans; eauto|].
        destruct res2; [|exact Logic.I].
        pose proof (follows_index _ _ Fo). intuition lia.
Qed.

(** [next] answers with a final token, or with another token after
    reading at least one character. *)
Lemma next_ok lx : fits lx -> inside lx ->
  exists tok lx',
    next lx = Some (tok, lx') /\ follows lx lx'
    /\ (is_final (tok_kind tok) = true
        \/ (is_final (tok_kind tok) = false
            /\ index (current_ lx) < index (current_ lx'))).
Proof.
  intros F I. unfold next.
  destruct (take_follows Syntax.isWsp lx F I) as (lx0 & T & Fo0). rewrite T.
  assert (Fo1 : follows lx (ignore lx0))
    by (eapply follows_same; [exact Fo0 | apply ignore_same]).
  set (lx1 := ignore lx0) in *.
  destruct (isEof lx1).
  - eexists _, lx1. split; [reflexivity|]. split; [exact Fo1|]. now left.
  - destruct (first_rule_ok
                [lexAlpha; lexNumeric; lexCharacter; lexString; lexOperator;
                 lexDelimiter]) with (lx := lx1)
      as (res & lx2 & H & Fo2 & P).
    + repeat constructor; auto using lexAlpha_ok, lexNumeric_ok,
        lexCharacter_ok, lexString_ok, lexOperator_ok, lexDelimiter_ok.
    + eapply follows_fits; eauto.
    + apply Fo1.
    + rewrite H. destruct res as [tok|].
      * exists tok, lx2. split; [reflexivity|].
        split; [eapply follows_trans; eauto|]. right.
        pose proof (follows_index _ _ Fo1). intuition lia.
      * exists (fst (makeToken TNone lx2)), (snd (makeToken TNone lx2)).
        split; [now destruct (makeToken TNone lx2)|].
        split.
        -- eapply follows_same; [|apply makeToken_same].
           eapply follows_trans; eauto.
        -- left. now rewrite makeToken_kind.
Qed.

Lemma lex_loop_ok : forall fuel lx tokens,
  fits lx -> inside lx -> (rest lx < fuel)%nat ->
  Forall (fun tok => is_final (tok_kind tok) = false) tokens ->
  exists tokens' lx',
    lex_loop fuel lx tokens = Some (tokens', lx') /\ well_ended tokens'.
Proof.
  induction fuel as [|fuel IH]; intros lx tokens F I R A; [lia|].
  cbn [lex_loop].
  destruct (next_ok lx F I) as (tok & lx' & H & Fo & P). rewrite H.
  destruct P as [P|(P & Lt)]; rewrite P.
  - eexists _, lx'. split; [reflexivity|]. now exists tokens, tok.
  - apply IH.
    + eapply follows_fits; eauto.
    + apply Fo.
    + destruct Fo as (S & _ & I'). unfold rest, inside in *.
      rewrite S in *. lia.
    + apply Forall_app. split; [exact A|]. now constructor.
Qed.


(** C3 (as stated) fails: on the source "#" the only token is None, so
    the list does not end with Eof. *)
Lemma lex_unmatched_character :
  option_map (fun r => map tok_kind (fst r)) (tokenize "#") = Some [TNone].
Proof. vm_compute. reflexivity. Qed.

(** C9: lexing an opening double quote that is never closed gives a
    String token from the quote to the end of the input, then Eof, and
    exactly one Error, Unterminated string literal. *)
Theorem unterminated_string :
  tokenize unterminated_source
  = Some
      ([mkToken TString unterminated_source (one_line 0) (one_line 13);
        mkToken TEof "" (one_line 13) (one_line 13)],
       [mkError Error "Unterminated string literal" unterminated_string_help
          (one_line 0) (one_line 0)])
  /\ length64 unterminated_source = 13.
Proof. split; vm_compute; reflexivity. Qed.

(** The repository's lexer test MultipleSeparateErrors: the character
    literal ['abc'] followed by an unterminated string. *)
Example lexer_test_MultipleSeparateErrors :
  option_map
    (fun r => (map (fun tok => (tok_kind tok, tok_value tok)) (fst r),
               map desc (snd r)))
    (tokenize (String.append "'abc' " unterminated_source))
  = Some
      ([(TCharacter, "'a"); (TIdentifier, "bc"); (TCharacter, "' ");
        (TString, unterminated_source); (TEof, "")],
       ["Unterminated character literal"; "Unterminated character literal";
        "Unterminated string literal"]).
Proof. vm_compute. reflexivity. Qed.

(** The cached value is not refreshed when [start_] moves: a None token
    right after a token repeats that token's text. *)
Example stale_value_in_None_token :
  option_map (fun r => map (fun tok => (tok_kind tok, tok_value tok)) (fst r))
    (tokenize "a#")
  = Some [(TIdentifier, "a"); (TNone, "a")].
Proof. vm_compute. reflexivity. Qed.

End LexerFacts.

(** ** The parser

    A statement about a source holds for every fuel from the stated
    bound on: the run never reaches the end of the fuel. *)

Module ParserFacts.
Import Ast Parser.
Local Open Scope run_scope.

Lemma expectValue_at_end value message st :
  isEof_st st = true ->
  exists st', expectValue value message st = Ok (None, st').
Proof.
  intros E. unfold expectValue, bind, isEof, Parser.log_error, ret.
  rewrite E. eauto.
Qed.

(** An expression followed by the end of the input: the statement layer
    dereferences the null token. *)
Lemma parseExpressionStatement_at_end pe st x st1 :
  pe st = Ok (Some x, st1) -> isEof_st st1 = true ->
  parseExpressionStatement pe st = Crash.
Proof.
  intros H E. unfold parseExpressionStatement.
  rewrite (bind_step _ _ _ _ _ H).
  destruct (expectValue_at_end ";" "after expression statement" st1 E)
    as (st' & X).
  rewrite (bind_step _ _ _ _ _ X). reflexivity.
Qed.

(** Whenever [parseSwitch] returns a node, its case list is not empty
    and the node ends where the last case ends. *)
Lemma parseSwitch_end fuel pe pb st c st' :
  parseSwitch fuel pe pb st = Ok (c, st') ->
  exists s e x cases final,
    c = SwitchConditional s e x cases
    /\ last (map Some cases) None = Some final
    /\ e = case_end final.
Proof.
  unfold parseSwitch. intros H.
  do 6 (apply bind_Ok in H; destruct H as (? & ? & _ & H)).
  apply bind_Ok in H. destruct H as (final & ? & B & H).
  unfold back, deref in B.
  destruct (last (map Some _) None) as [final'|] eqn:L; [|discriminate].
  unfold ret in *. inversion B; subst. inversion H; subst. eauto 10.
Qed.


(** C6 (the code departs from it): on a switch without cases the parser
    reads the back of an empty case list, so no node results. *)
Theorem parseSwitch_without_cases : forall k : nat,
  parse (40 + k) "switch x { }" = Crash.
Proof. intro k. vm_compute. reflexivity. Qed.

(** C7 (the code departs from it): on the source [a] the statement layer
    dereferences the null token that [expectValue] returns at the end of
    the input. *)
Theorem expression_statement_at_end : forall k : nat,
  parse (40 + k) "a" = Crash.
Proof. intro k. vm_compute. reflexivity. Qed.

(** C8: the source [a + b * c - d / e;] parses, without diagnostics, to
    one expression statement whose root is Binary [-], with left child
    Binary [+] of [a] and Binary [*] of [b] and [c], and right child
    Binary [/] of [d] and [e]. *)
Theorem precedence_climbing : forall k : nat,
  parse (40 + k) "a + b * c - d / e;"
  = Ok
      (mkProgram (one_line 0) (one_line 18)
         [ExpressionStatement (one_line 0) (one_line 18)
            (BinaryExpression (one_line 0) (one_line 17)
               (BinaryExpression (one_line 0) (one_line 9)
                  (IdentifierExpression (one_line 0) (one_line 1) "a")
                  "+"
                  (BinaryExpression (one_line 4) (one_line 9)
                     (IdentifierExpression (one_line 4) (one_line 5) "b")
                     "*"
                     (IdentifierExpression (one_line 8) (one_line 9) "c")))
               "-"
               (BinaryExpression (one_line 12) (one_line 17)
                  (IdentifierExpression (one_line 12) (one_line 13) "d")
                  "/"
                  (IdentifierExpression (one_line 16) (one_line 17) "e")))],
       []).
Proof. intro k. vm_compute. reflexivity. Qed.

(** The repository's parser tests EmptySource and ForRangeLoop. *)
Example parser_test_EmptySource : forall k : nat,
  parse (1 + k) "" = Ok (mkProgram (Locus2 1 1) (Locus2 1 1) [], []).
Proof. intro k. vm_compute. reflexivity. Qed.

Example parser_test_ForRangeLoop : forall k : nat,
  parse (40 + k) "for (0..10) { }"
  = Ok
      (mkProgram (one_line 5) (one_line 15)
         [ConditionalStmt
            (ForConditional (one_line 5) (one_line 15) None
               (Some
                  (BinaryExpression (one_line 5) (one_line 10)
                     (LiteralExpression (one_line 5) (one_line 6) "0" LInteger)
                     ".."
                     (LiteralExpression (one_line 8) (one_line 10) "10"
                        LInteger)))
               None (mkBlock (one_line 12) (one_line 15) []))],
       []).
Proof. intro k. vm_compute. reflexivity. Qed.

End ParserFacts.

(** ** The type model and the analyzer *)

Module SemaFacts.
Import Ast Sema.
Local Open Scope run_scope.

(** C5 (as amended): [promoteTypes a b] and [promoteTypes b a] are equal
    (by name) exactly when it is not the case that the first argument
    wins both ways (same kind, or two integers of one width) while the
    names differ. *)
Theorem promoteTypes_commutes_unless_first_wins : forall a b : Type_,
  Type_eqb (promoteTypes a b) (promoteTypes b a)
  = negb (first_wins a b && negb (Type_eqb a b)).
Proof.
  intros [ka na] [kb nb]. unfold Type_eqb.
  destruct ka, kb; cbn;
    rewrite ?String.eqb_refl, ?(String.eqb_sym nb na), ?negb_involutive;
    reflexivity.
Qed.

(** C5 (as stated) fails: [i8] and [u8] promote to whichever comes
    first. *)
Lemma promoteTypes_i8_u8 :
  Type_eqb (promoteTypes i8_ty u8_ty) (promoteTypes u8_ty i8_ty) = false.
Proof. reflexivity. Qed.

(** The check of an initializer, in general: once the declaration and the
    inference of a valid initializer type have returned, the mismatch
    error is pushed exactly when [canAssignType] fails with the
    initializer's type as [to] and the variable's type as [from]. *)
Lemma initializer_check_order decl init st var st1 init_type st2 :
  var_initializer decl = Some init ->
  declareVariable decl st = Ok (var, st1) ->
  Variable_isValid var = true ->
  inferExpression init st1 = Ok (init_type, st2) ->
  isValid init_type = true ->
  analyzeVariableDeclaration decl st
  = if canAssignType init_type (v_type var) then Ok (tt, st2)
    else
      push_error
        ("Type mismatch in variable initializer: "
           ++ id_name (var_identifier decl))
        "Ensure the initializer type matches the variable type."
        (expr_start init) (expr_end init) st2.
Proof.
  intros I D V T Vt. unfold analyzeVariableDeclaration.
  rewrite (bind_step _ _ _ _ _ D), V, I. cbn [negb when_].
  rewrite (bind_step _ _ _ _ _ (eq_refl : ret tt st1 = Ok (tt, st1))).
  rewrite (bind_step _ _ _ _ _ T), Vt. cbn [negb].
  destruct (canAssignType init_type (v_type var)); reflexivity.
Qed.

(** C1 (the code departs from it): the initializer check runs
    [canAssignType] with the initializer's type as [to] and the declared
    type as [from].  So [let x: f64 = 1;] is a type mismatch although an
    [i64] may be assigned to an [f64], and [let x: i32 = 5;] passes
    although an [i64] may not be assigned to an [i32]. *)
Theorem initializer_check_is_reversed : forall k : nat,
  (compileSource (40 + k) "let x: f64 = 1;"
   = Ok (1, [],
         [mkError Error "Type mismatch in variable initializer: x"
            "Ensure the initializer type matches the variable type."
            (one_line 13) (one_line 14)])
   /\ canAssignType f64_ty i64_ty = true)
  /\ (compileSource (40 + k) "let x: i32 = 5;" = Ok (0, [], [])
      /\ canAssignType i32_ty i64_ty = false).
Proof. intro k. split; split; vm_compute; reflexivity. Qed.

(** With the enumerators numbered 0 to 5, the block scope entered
    anywhere below a function scope carries the value of Loop. *)
Lemma block_in_function_has_Loop_flag kind :
  hasFlag kind (ScopeKind_value FunctionScope) = true ->
  hasFlag (N.lor kind (ScopeKind_value Block)) (ScopeKind_value Loop) = true.
Proof.
  unfold hasFlag. cbn [ScopeKind_value]. intros H. apply N.eqb_eq in H.
  apply N.eqb_eq. apply N.bits_inj. intros n.
  rewrite N.land_spec, N.lor_spec.
  assert (B1 : N.testbit kind 1 = true).
  { apply (f_equal (fun x => N.testbit x 1)) in H.
    rewrite N.land_spec in H. cbn in H. now rewrite andb_true_r in H. }
  destruct n as [|[p|p|]]; cbn.
  - now rewrite orb_true_r.
  - apply andb_false_r.
  - apply andb_false_r.
  - now rewrite B1.
Qed.

(** C2 (the code departs from it): a break and a continue in the body
    of a function, inside no loop, pass without diagnostic, because the
    kinds Function (2) and Block (1) OR to the value of Loop (3). *)
Theorem break_outside_loop_accepted : forall k : nat,
  compileSource (40 + k) "fn f() { break; continue; }" = Ok (0, [], [])
  /\ N.lor (ScopeKind_value FunctionScope) (ScopeKind_value Block)
     = ScopeKind_value Loop.
Proof. intro k. split; vm_compute; reflexivity. Qed.

Lemma extends_refl st : extends st st.
Proof. split; [reflexivity|]. exists []. now rewrite app_nil_r. Qed.

Lemma push_error_extends d h s e st :
  exists st', push_error d h s e st = Ok (tt, st') /\ extends st st'.
Proof.
  eexists. split; [reflexivity|]. split; [reflexivity|]. cbn. eauto.
Qed.

Lemma inferIdentifier_total s e name st sc :
  current_scope st = Some sc ->
  exists t st', inferIdentifier s e name st = Ok (t, st') /\ extends st st'.
Proof.
  intros C. unfold inferIdentifier, bind, scope. rewrite C.
  repeat match goal with
         | |- context [if ?b then _ else _] => destruct b
         end; try (eexists _, st; split; [reflexivity | apply extends_refl]).
  cbn. eexists _, _. split; [reflexivity|]. split; [reflexivity|]. cbn. eauto.
Qed.

Lemma inferExpression_type_name x st sc :
  is_type_name x = true -> current_scope st = Some sc ->
  exists t st', inferExpression x st = Ok (t, st') /\ extends st st'.
Proof.
  destruct x; try discriminate; intros _ C; cbn [inferExpression];
    eapply inferIdentifier_total; eauto.
Qed.

Lemma declareVariable_total decl st sc :
  current_scope st = Some sc ->
  is_type_name (var_type decl) = true ->
  exists v st' sc' more,
    declareVariable decl st = Ok (v, st')
    /\ current_scope st' = Some sc'
    /\ errors st' = (errors st ++ more)%list.
Proof.
  intros C T.
  destruct (inferExpression_type_name _ _ _ T C) as (t & st1 & H & C1 & m1 & E1).
  unfold declareVariable. rewrite (bind_step _ _ _ _ _ H).
  destruct st1 as [cs1 errs1 lg1]. cbn in C1, E1. subst cs1 errs1.
  unfold bind, when_, update_scope, scope, push_error, ret.
  destruct (negb (isValid t)); cbn; rewrite C; cbn.
  - eexists _, _, _, _. split; [reflexivity|]. split; [reflexivity|].
    cbn. rewrite <- app_assoc. reflexivity.
  - eexists _, _, _, _. split; [reflexivity|]. split; [reflexivity|].
    cbn. reflexivity.
Qed.

(** The loops over fields and parameters read the type, the name, the
    modifier and the span of a declaration, never its initializer. *)
Lemma declare_members_without_initializer what help_ :
  forall decls : list VariableDeclaration,
    declare_members what help_ (map without_initializer decls)
    = declare_members what help_ decls.
Proof.
  induction decls as [|d decls IH]; [reflexivity|].
  cbn [map declare_members]. rewrite IH. reflexivity.
Qed.

Lemma declare_parameters_without_initializer :
  forall decls : list VariableDeclaration,
    declare_parameters (map without_initializer decls)
    = declare_parameters decls.
Proof.
  induction decls as [|d decls IH]; [reflexivity|].
  cbn [map declare_parameters]. rewrite IH. reflexivity.
Qed.

Lemma analyzeRecordDeclaration_without_initializer (r : RecordDeclaration) :
  analyzeRecordDeclaration (without_field_initializers r)
  = analyzeRecordDeclaration r.
Proof.
  unfold analyzeRecordDeclaration, declareRecord, without_field_initializers.
  cbn [rec_fields rec_identifier rec_start rec_end].
  rewrite declare_members_without_initializer. reflexivity.
Qed.

Lemma analyzeClassDeclaration_without_initializer
    s e identifier type modifier fields methods :
  analyzeClassDeclaration
    (mkClassDeclaration s e identifier type modifier
       (map without_initializer fields) methods)
  = analyzeClassDeclaration
      (mkClassDeclaration s e identifier type modifier fields methods).
Proof.
  cbn [analyzeClassDeclaration]. unfold declareClass.
  rewrite declare_members_without_initializer. reflexivity.
Qed.

Lemma analyzeFunctionDeclaration_without_initializer
    s e identifier type modifier parameters body :
  analyzeFunctionDeclaration
    (mkFunctionDeclaration s e identifier type modifier
       (map without_initializer parameters) body)
  = analyzeFunctionDeclaration
      (mkFunctionDeclaration s e identifier type modifier parameters body).
Proof.
  cbn [analyzeFunctionDeclaration]. unfold declareFunction, function_of.
  rewrite declare_members_without_initializer,
    declare_parameters_without_initializer.
  reflexivity.
Qed.

(** C10 (as amended): a variable declaration that stands as a
    declaration - what [analyzeDeclaration] hands to
    [analyzeVariableDeclaration] - and whose initializer is the empty
    array literal, analyzed in any scope: the initializer's inferred
    type is the invalid [none] type and the analysis ends by pushing the
    Error Invalid type for variable initializer at the literal's span.
    The initializers of the fields of a record, of the fields of a
    class and of the parameters of a function are never read: the
    analysis of such a declaration is the analysis of the declaration
    without them. *)
Theorem empty_array_initializer :
  (forall (decl : VariableDeclaration) (s e : Locus) (st : Analyzer)
          (sc : Scope),
     current_scope st = Some sc ->
     is_type_name (var_type decl) = true ->
     var_initializer decl = Some (ArrayExpression s e []) ->
     inferExpression (ArrayExpression s e []) st = Ok (none_ty, st)
     /\ isValid none_ty = false
     /\ exists st' earlier,
          analyzeVariableDeclaration decl st = Ok (tt, st')
          /\ analyzeStatement (DeclarationStmt (VariableDecl decl)) st
             = Ok (tt, st')
          /\ errors st'
             = (errors st ++ earlier
                  ++ [mkError Error
                        ("Invalid type for variable initializer: "
                           ++ id_name (var_identifier decl))
                        "Ensure the initializer expression is valid."
                        s e])%list)
  /\ (forall r : RecordDeclaration,
        analyzeRecordDeclaration (without_field_initializers r)
        = analyzeRecordDeclaration r)
  /\ (forall s e identifier type modifier fields methods,
        analyzeClassDeclaration
          (mkClassDeclaration s e identifier type modifier
             (map without_initializer fields) methods)
        = analyzeClassDeclaration
            (mkClassDeclaration s e identifier type modifier fields methods))
  /\ (forall s e identifier type modifier parameters body,
        analyzeFunctionDeclaration
          (mkFunctionDeclaration s e identifier type modifier
             (map without_initializer parameters) body)
        = analyzeFunctionDeclaration
            (mkFunctionDeclaration s e identifier type modifier parameters
               body)).
Proof.
  split; [|split; [|split]].
  - intros decl s e st sc C T Init.
    split; [reflexivity|]. split; [reflexivity|].
    destruct (declareVariable_total decl st sc C T)
      as (v & st1 & sc1 & more & H & C1 & E1).
    cbn [analyzeStatement analyzeDeclaration].
    unfold analyzeVariableDeclaration. rewrite Init.
    rewrite (bind_step _ _ _ _ _ H).
    destruct st1 as [cs1 errs1 lg1]. cbn in C1, E1. subst cs1 errs1.
    unfold bind, when_, push_error, ret.
    destruct (negb (Variable_isValid v)); cbn.
    + eexists _, (more ++ [_])%list. split; [reflexivity|].
      split; [reflexivity|]. cbn. now rewrite <- !app_assoc.
    + exists (mkAnalyzer (Some sc1) ((errors st ++ more) ++ [mkError Error
               ("Invalid type for variable initializer: "
                  ++ id_name (var_identifier decl))
               "Ensure the initializer expression is valid." s e])%list lg1),
        more.
      split; [reflexivity|]. split; [reflexivity|].
      cbn. now rewrite <- app_assoc.
  - exact analyzeRecordDeclaration_without_initializer.
  - exact analyzeClassDeclaration_without_initializer.
  - exact analyzeFunctionDeclaration_without_initializer.
Qed.

(** The theorem at the declaration [let a: i32[] = [];], analyzed in
    the global scope. *)
Lemma empty_array_initializer_witness :
  current_scope in_global_scope
  = Some (mkScope "global" 0 [] [] [] [] None)
  /\ is_type_name (var_type empty_array_declaration) = true
  /\ var_initializer empty_array_declaration
     = Some (ArrayExpression (one_line 16) (one_line 17) [])
  /\ exists st' earlier,
       analyzeVariableDeclaration empty_array_declaration in_global_scope
       = Ok (tt, st')
       /\ analyzeStatement
            (DeclarationStmt (VariableDecl empty_array_declaration))
            in_global_scope
          = Ok (tt, st')
       /\ errors st'
          = (errors in_global_scope ++ earlier
               ++ [mkError Error
                     ("Invalid type for variable initializer: "
                        ++ id_name (var_identifier empty_array_declaration))
                     "Ensure the initializer expression is valid."
                     (one_line 16) (one_line 17)])%list.
Proof.
  split; [reflexivity|]. split; [reflexivity|]. split; [reflexivity|].
  apply (proj1 empty_array_initializer empty_array_declaration (one_line 16)
           (one_line 17) in_global_scope
           (mkScope "global" 0 [] [] [] [] None));
    reflexivity.
Defined.

(** C10 (as stated) fails: the field of the record
    [rec R { a: i32[] = []; }] is a variable declaration whose
    initializer is the empty array literal, and the source compiles
    without a diagnostic. *)
Lemma empty_array_in_record_field :
  record_field_initializers (Parser.parse 100 "rec R { a: i32[] = []; }")
  = [Some (ArrayExpression (one_line 20) (one_line 21) [])]
  /\ compileSource 100 "rec R { a: i32[] = []; }" = Ok (0, [], []).
Proof. split; vm_compute; reflexivity. Qed.

(** Scenario 6 of the specification: a return at top level. *)
Example return_at_top_level : forall k : nat,
  compileSource (40 + k) "return 1;"
  = Ok (1, [],
        [mkError Error "Return statement not within a function scope."
           "Ensure return statements are inside functions."
           (one_line 0) (one_line 8)]).
Proof. intro k. vm_compute. reflexivity. Qed.

(** A break directly at top level, or in a block there, is reported. *)
Example break_at_top_level : forall k : nat,
  compileSource (40 + k) "{ break; }"
  = Ok (1, [],
        [mkError Error "Break statement not within a loop scope."
           "Ensure break statements are inside loops."
           (one_line 2) (one_line 8)]).
Proof. intro k. vm_compute. reflexivity. Qed.

(** Inside a loop, across the body block, break and continue pass. *)
Example break_in_loop : forall k : nat,
  compileSource (40 + k) "while true { break; continue; }" = Ok (0, [], []).
Proof. intro k. vm_compute. reflexivity. Qed.

End SemaFacts.

(** * Further properties *)

(** ** Keywords *)

Module KeywordFacts.
Import Syntax SyntaxVocabulary.

Lemma eqb_cons c s c' s' :
  (String c s =? String c' s')%string = (c =? c')%char && (s =? s')%string.
Proof. cbn. destruct (c =? c')%char; reflexivity. Qed.

Lemma eqb_cons_nil c s : (String c s =? "")%string = false.
Proof. reflexivity. Qed.

Lemma eqb_nil_cons c s : ("" =? String c s)%string = false.
Proof. reflexivity. Qed.

Ltac words :=
  cbv [isKwy keywords str_empty String.length existsb];
  repeat rewrite eqb_cons;
  repeat rewrite eqb_cons_nil; repeat rewrite eqb_nil_cons;
  repeat rewrite andb_false_r; repeat rewrite orb_false_r;
  cbn [orb andb]; repeat rewrite orb_false_r.

Lemma isKwy_keywords : forall s : string,
  isKwy s = existsb (String.eqb s) keywords.
Proof.
  intros [|c1 [|c2 [|c3 [|c4 [|c5 [|c6 [|c7 [|c8 [|c9 s]]]]]]]]].
  all: words; reflexivity.
Qed.

(** X4: [isKwy] accepts exactly the twenty-four words of the list. The word
    [init], which the source compares under the length 5, is not among them:
    it is a modifier ([ismod]) that is no keyword. *)
Theorem isKwy_exact :
  (forall s : string, isKwy s = true <-> In s keywords)
  /\ isKwy "init" = false /\ ismod "init" = true.
Proof.
  split; [|split; reflexivity].
  intros s. rewrite isKwy_keywords. rewrite existsb_exists. split.
  - intros (w & I & E). apply String.eqb_eq in E. now subst w.
  - intros I. exists s. split; [exact I | apply String.eqb_refl].
Qed.

End KeywordFacts.

(** ** The text and the kinds of the tokens *)

Module LexerText.
Import Lexer LexerVocabulary LexerFacts.

Lemma sub64_exact a b : b <= a -> a < 2 ^ 64 -> sub64 a b = a - b.
Proof.
  intros L H. unfold sub64. rewrite (wrap64_small b) by lia.
  unfold wrap64. replace (a + 2 ^ 64 - b) with (a - b + 1 * 2 ^ 64) by lia.
  rewrite N.Div0.mod_add. apply N.mod_small. lia.
Qed.

Lemma advance_start lx : start_ (advance lx) = start_ lx.
Proof.
  unfold advance. destruct (isEof lx); [reflexivity|].
  destruct (_ =? _)%char; reflexivity.
Qed.

Lemma advance_dirty lx : isEof lx = false -> value_dirty_ (advance lx) = true.
Proof.
  intros E. unfold advance. rewrite E. destruct (_ =? _)%char; reflexivity.
Qed.

(** Reading the first character of a token: whatever the cache held, it
    is dirty now. *)
Lemma moved_start lx : fits lx -> isEof lx = false -> moved lx (advance lx).
Proof.
  intros F E. destruct (advance_strict lx F E) as ((S & L & I) & _).
  repeat split; auto using advance_start.
  left. now apply advance_dirty.
Qed.

Lemma moved_advance a b : fits a -> moved a b -> moved a (advance b).
Proof.
  intros F (S & St & L & I & So).
  destruct (isEof b) eqn:E.
  - rewrite advance_at_end by exact E. repeat split; auto.
  - assert (Fb : fits b) by (unfold fits in *; now rewrite S).
    destruct (advance_strict b Fb E) as ((S' & L' & I') & _).
    repeat split.
    + congruence.
    + rewrite advance_start. exact St.
    + lia.
    + exact I'.
    + left. now apply advance_dirty.
Qed.

Lemma moved_log a b d : moved a b -> moved a (log_error d b).
Proof. intros (S & St & L & I & So). repeat split; auto. Qed.

Lemma moved_take_loop p a : fits a -> forall fuel b c,
  moved a b -> take_loop fuel p b = Some c -> moved a c.
Proof.
  intros F. induction fuel as [|fuel IH]; intros b c M H; [discriminate|].
  cbn [take_loop] in H. destruct (p (peek b)); [|now inversion H; subst].
  destruct (isEof b); [now inversion H; subst|].
  eapply IH; [|exact H]. now apply moved_advance.
Qed.

Lemma moved_string_loop a : fits a -> forall fuel b c,
  moved a b -> lexString_loop fuel b = Some c -> moved a c.
Proof.
  intros F. induction fuel as [|fuel IH]; intros b c M H; [discriminate|].
  cbn [lexString_loop] in H. destruct (negb _); [|now inversion H; subst].
  destruct (isEof b).
  - inversion H; subst. now apply moved_log.
  - eapply IH; [|exact H]. now apply moved_advance.
Qed.

(** [value] on a sound lexer is the text, and leaves a sound lexer. *)
Lemma moved_value a b v c :
  fits a -> index (start_ a) <= index (current_ a) -> moved a b ->
  value b = (v, c) ->
  v = text b /\ moved a c /\ current_ c = current_ b.
Proof.
  intros F Le (S & St & L & I & So) H. unfold value in H.
  assert (X : substring (N.to_nat (index (start_ b)))
                (N.to_nat (sub64 (index (current_ b)) (index (start_ b))))
                (source_ b) = text b).
  { unfold text, slice. rewrite sub64_exact; [reflexivity| |].
    - rewrite St. lia.
    - unfold inside, fits in *. rewrite S in I. lia. }
  destruct (value_dirty_ b) eqn:D; cbn [negb] in H; inversion H; subst.
  - rewrite X. split; [reflexivity|]. split; [|reflexivity].
    repeat split; auto. right. reflexivity.
  - destruct So as [So|So]; [congruence|].
    split; [exact So|]. split; [|reflexivity]. repeat split; auto.
    now right.
Qed.

(** The token [makeToken] cuts after some reading. *)
Lemma emit_text a b kind res c :
  fits a -> index (start_ a) <= index (current_ a) -> moved a b ->
  emit (makeToken kind b) = Some (res, c) ->
  exists tok,
    res = Some tok
    /\ tok_start tok = start_ a /\ tok_end tok = current_ c
    /\ tok_value tok
       = slice (source_ a) (index (start_ a)) (index (current_ c))
    /\ source_ c = source_ a.
Proof.
  intros F Le M H. unfold emit, makeToken in H.
  destruct (value b) as [v b1] eqn:V.
  destruct (moved_value a b v b1 F Le M V) as (Tx & (S & St & L & I & So) & C).
  cbn in H. inversion H; subst. eexists. split; [reflexivity|]. cbn.
  destruct M as (Sb & Stb & _).
  repeat split; auto.
  unfold text. rewrite Sb, Stb, C. reflexivity.
Qed.

Ltac emitted :=
  match goal with
  | H : emit (makeToken _ _) = Some (?res, _) |- _ =>
      eapply emit_text in H; [| eassumption | eassumption |];
      [ destruct H as (? & -> & ? & ? & ? & ?); auto | try eassumption ]
  end.

Ltac keep_moving :=
  repeat first
    [ assumption
    | apply moved_log
    | apply moved_advance; [assumption|]
    | match goal with
      | |- moved _ (if ?b then _ else _) => destruct b
      end ].

Lemma lexAlpha_text : rule_text lexAlpha.
Proof.
  intros lx res lx' F I Le H. unfold lexAlpha in H.
  destruct (isalpha (peek lx) || (peek lx =? "_")%char) eqn:C;
    [|now inversion H; subst].
  assert (E : isEof lx = false).
  { apply (peek_class lx (fun c => isalpha c || (c =? "_")%char));
      [reflexivity | exact C]. }
  unfold take, loop_fuel in H. cbn [take_loop] in H. rewrite E in H.
  replace (isalnum (peek lx) || (peek lx =? "_")%char) with true in H.
  2:{ unfold isalnum. apply orb_true_iff in C. destruct C as [C|C]; rewrite C;
        [reflexivity | symmetry; apply orb_true_r]. }
  destruct (take_loop _ _ (advance lx)) as [lx1|] eqn:T; [|discriminate].
  assert (M1 : moved lx lx1)
    by (eapply moved_take_loop; [exact F | apply moved_start; auto | exact T]).
  destruct (value lx1) as [v lx2] eqn:V.
  destruct (moved_value lx lx1 v lx2 F Le M1 V) as (_ & M2 & _).
  destruct (Syntax.isKwy v); emitted.
Qed.

Lemma lexNumeric_text : rule_text lexNumeric.
Proof.
  intros lx res lx' F I Le H. unfold lexNumeric in H.
  destruct (isdigit (peek lx)) eqn:C; [|now inversion H; subst].
  assert (E : isEof lx = false)
    by (apply (peek_class lx isdigit); [reflexivity | exact C]).
  unfold take at 1, loop_fuel in H. cbn [take_loop] in H. rewrite C, E in H.
  destruct (take_loop _ _ (advance lx)) as [lx1|] eqn:T; [|discriminate].
  assert (M1 : moved lx lx1)
    by (eapply moved_take_loop; [exact F | apply moved_start; auto | exact T]).
  destruct (peek lx1 =? ".")%char; [|emitted].
  destruct (_ && _); [emitted|].
  unfold take in H.
  destruct (take_loop _ _ (advance lx1)) as [lx2|] eqn:T2; [|discriminate].
  assert (M2 : moved lx lx2)
    by (eapply moved_take_loop;
        [exact F | apply moved_advance; eauto | exact T2]).
  emitted.
Qed.

Lemma lexCharacter_text : rule_text lexCharacter.
Proof.
  intros lx res lx' F I Le H. unfold lexCharacter in H.
  destruct (peek lx =? "'")%char eqn:C; [|now inversion H; subst].
  assert (E : isEof lx = false)
    by (eapply peek_not_NUL; [exact C | discriminate]).
  pose proof (moved_start lx F E) as M1. cbv zeta in H.
  emitted. keep_moving.
Qed.

Lemma lexString_text : rule_text lexString.
Proof.
  intros lx res lx' F I Le H. unfold lexString in H.
  destruct (peek lx =? dquote)%char eqn:C; [|now inversion H; subst].
  assert (E : isEof lx = false)
    by (eapply peek_not_NUL; [exact C | discriminate]).
  pose proof (moved_start lx F E) as M1. cbv zeta in H.
  destruct (lexString_loop _ (advance lx)) as [lx2|] eqn:T; [|discriminate].
  assert (M2 : moved lx lx2) by (eapply moved_string_loop; eauto).
  emitted. keep_moving.
Qed.

Lemma lexOperator_text : rule_text lexOperator.
Proof.
  intros lx res lx' F I Le H. unfold lexOperator in H.
  destruct (Syntax.isOp (look lx)) eqn:C; [|now inversion H; subst].
  assert (E : isEof lx = false)
    by (apply (look_rule lx Syntax.isOp); [reflexivity | exact C]).
  pose proof (moved_start lx F E) as M1. cbv zeta in H.
  destruct (value (advance lx)) as [v lx2] eqn:V.
  destruct (moved_value lx _ v lx2 F Le M1 V) as (_ & M2 & _).
  emitted. keep_moving.
Qed.

Lemma lexDelimiter_text : rule_text lexDelimiter.
Proof.
  intros lx res lx' F I Le H. unfold lexDelimiter in H.
  destruct (Syntax.isDel (look lx)) eqn:C; [|now inversion H; subst].
  assert (E : isEof lx = false)
    by (apply (look_rule lx Syntax.isDel); [reflexivity | exact C]).
  pose proof (moved_start lx F E) as M1.
  emitted.
Qed.

Lemma first_rule_text rules : Forall rule_text rules ->
  rule_text (first_rule rules).
Proof.
  induction 1 as [|r rules R _ IH]; intros lx res lx' F I Le H;
    cbn [first_rule] in H.
  - inversion H; subst. reflexivity.
  - destruct (r lx) as [[[tok|] lx1]|] eqn:X; [| |discriminate].
    + inversion H; subst. apply (R lx (Some tok) lx' F I Le X).
    + pose proof (R lx None lx1 F I Le X) as ->.
      apply (IH lx res lx' F I Le H).
Qed.

Lemma peek_char lx : isEof lx = false ->
  peek lx = char_at (source_ lx) (N.to_nat (index (current_ lx))).
Proof. intros E. unfold peek. now rewrite E. Qed.

(** The characters [take] reads pass its test. *)
Lemma take_loop_passes p : forall fuel lx lx',
  fits lx -> inside lx -> take_loop fuel p lx = Some lx' ->
  forall i, index (current_ lx) <= i < index (current_ lx') ->
    p (char_at (source_ lx) (N.to_nat i)) = true.
Proof.
  induction fuel as [|fuel IH]; intros lx lx' F I H i R; [discriminate|].
  cbn [take_loop] in H. destruct (p (peek lx)) eqn:P;
    [|inversion H; subst; lia].
  destruct (isEof lx) eqn:E; [inversion H; subst; lia|].
  destruct (advance_strict lx F E) as (Fo & _ & _).
  pose proof (advance_index lx F E) as X.
  destruct (N.eq_dec i (index (current_ lx))) as [->|Ne].
  - now rewrite <- peek_char.
  - rewrite <- (advance_source lx).
    apply (IH (advance lx) lx'); auto.
    + eapply follows_fits; eauto.
    + apply Fo.
    + lia.
Qed.

Lemma substring_none : forall (s : string) (n : nat), substring n 0 s = "".
Proof. induction s as [|c s IH]; intros [|n]; cbn; auto. Qed.

Lemma slice_empty source i : slice source i i = "".
Proof. unfold slice. rewrite N.sub_diag. apply substring_none. Qed.

Lemma rules_text :
  Forall rule_text
    [lexAlpha; lexNumeric; lexCharacter; lexString; lexOperator; lexDelimiter].
Proof.
  repeat constructor; auto using lexAlpha_text, lexNumeric_text,
    lexCharacter_text, lexString_text, lexOperator_text, lexDelimiter_text.
Qed.

Lemma rules_ok :
  Forall rule_ok
    [lexAlpha; lexNumeric; lexCharacter; lexString; lexOperator; lexDelimiter].
Proof.
  repeat constructor; auto using lexAlpha_ok, lexNumeric_ok,
    lexCharacter_ok, lexString_ok, lexOperator_ok, lexDelimiter_ok.
Qed.

(** The token [next] cuts: after whitespace only, ending at the cursor,
    not empty unless final, and with the text it spans. *)
Lemma next_text lx tok lx' :
  fits lx -> inside lx -> next lx = Some (tok, lx') ->
  source_ lx' = source_ lx /\ inside lx'
  /\ index (tok_end tok) = index (current_ lx')
  /\ spells (source_ lx) (index (current_ lx)) [tok].
Proof.
  intros F I H. unfold next in H.
  destruct (take Syntax.isWsp lx) as [lx0|] eqn:T; [|discriminate].
  destruct (take_follows Syntax.isWsp lx F I) as (lx0' & T' & Fo0).
  rewrite T in T'. inversion T'; subst lx0'. clear T'.
  pose proof (take_loop_passes _ _ _ _ F I T) as B.
  destruct Fo0 as (S0 & L0 & I0).
  assert (F1 : fits (ignore lx0)) by (unfold fits in *; cbn; now rewrite S0).
  assert (I1 : inside (ignore lx0)) by exact I0.
  unfold inside in I0. rewrite S0 in I0. cbn [spells].
  destruct (isEof (ignore lx0)) eqn:E.
  - inversion H; subst. cbn.
    repeat split; auto; try lia.
    intros _. now rewrite slice_empty.
  - destruct (first_rule _ (ignore lx0)) as [[res lx2]|] eqn:R; [|discriminate].
    pose proof (first_rule_text _ rules_text (ignore lx0) res lx2 F1 I1
                  (N.le_refl _) R) as X.
    destruct (first_rule_ok _ rules_ok (ignore lx0) F1 I1)
      as (res' & lx2' & R' & Fo2 & P).
    rewrite R in R'. inversion R'; subst res' lx2'. clear R'.
    destruct Fo2 as (S2 & L2 & I2). cbn in S2, L2.
    assert (I2' : index (current_ lx2) <= length64 (source_ lx))
      by (unfold inside in I2; rewrite S2, S0 in I2; exact I2).
    destruct res as [tok'|].
    + inversion H; subst. destruct X as (Xs & Xe & Xv & _).
      destruct P as (Lt & K). cbn in Xs, Lt, Xv.
      rewrite Xs, Xe.
      repeat split; auto; try lia; try congruence.
      intros _. rewrite Xv. now rewrite S0.
    + subst lx2. unfold makeToken in H.
      destruct (value (ignore lx0)) as [v lx3] eqn:V.
      assert (Y : source_ lx3 = source_ lx0 /\ start_ lx3 = current_ lx0
                  /\ current_ lx3 = current_ lx0)
        by (unfold value in V; destruct (negb _); inversion V; auto).
      destruct Y as (S3 & St3 & C3).
      injection H as <- <-. cbn. rewrite St3, C3.
      repeat split; auto; try lia; try congruence.
      unfold inside. cbn. now rewrite C3, S3, S0.
Qed.

Lemma lex_loop_text : forall fuel lx acc tokens lx',
  fits lx -> inside lx -> lex_loop fuel lx acc = Some (tokens, lx') ->
  exists new,
    tokens = (acc ++ new)%list
    /\ spells (source_ lx) (index (current_ lx)) new.
Proof.
  induction fuel as [|fuel IH]; intros lx acc tokens lx' F I H;
    [discriminate|].
  cbn [lex_loop] in H.
  destruct (next lx) as [[tok lx1]|] eqn:X; [|discriminate].
  destruct (next_text lx tok lx1 F I X) as (S & I1 & E & Sp).
  destruct (is_final (tok_kind tok)) eqn:K.
  - inversion H; subst. exists [tok]. split; [reflexivity | exact Sp].
  - apply IH in H; [| unfold fits in *; now rewrite S | exact I1].
    destruct H as (new & -> & Sp').
    exists (tok :: new). split; [now rewrite <- app_assoc|].
    rewrite S, <- E in Sp'. cbn [spells] in *. tauto.
Qed.

(** X1: The tokens of [lex] spell the source: in order, separated by
    whitespace only, and each one - the None token aside - with the text
    between its start and its end. *)
Theorem lex_spells_source : forall (source : string) (lx : t),
  length64 source < 2 ^ 64 ->
  exists tokens lx',
    lex source lx = Some (tokens, lx') /\ spells source 0 tokens.
Proof.
  intros source lx F. unfold lex.
  match goal with
  | |- context [lex_loop ?fuel ?lx0 []] =>
      destruct (lex_loop_ok fuel lx0 []) as (tokens & lx' & H & _);
      [ exact F | unfold inside; cbn; lia | apply rest_bound | constructor | ]
  end.
  exists tokens, lx'. split; [exact H|].
  apply lex_loop_text in H; [| exact F | unfold inside; cbn; lia].
  destruct H as (new & -> & Sp). exact Sp.
Qed.

Lemma lex_spells_source_witness :
  length64 "let x = 12;" < 2 ^ 64
  /\ exists tokens lx',
       lex "let x = 12;" (new "let x = 12;") = Some (tokens, lx')
       /\ spells "let x = 12;" 0 tokens.
Proof.
  split; [reflexivity|]. apply lex_spells_source. reflexivity.
Defined.

(** *** The kinds of the tokens *)
















(** *** Lines and columns *)

Lemma locus_from_index : forall s n from,
  (n <= String.length s)%nat ->
  index (locus_from s n from) = index from + N.of_nat n.
Proof.
  induction s as [|c s IH]; intros [|n] from L; cbn in *; try lia.
  rewrite IH by lia. destruct (c =? "010")%char; cbn [index]; lia.
Qed.

Lemma locus_from_bounds : forall s n from,
  1 <= column from ->
  line (locus_from s n from) <= line from + N.of_nat n
  /\ column (locus_from s n from) <= column from + N.of_nat n.
Proof.
  induction s as [|c s IH]; intros [|n] from C; cbn [locus_from]; try lia.
  match goal with |- context [locus_from s n ?f] => specialize (IH n f) end.
  destruct (c =? "010")%char; cbn [line column index] in *; lia.
Qed.

(** One character more. *)
Lemma locus_from_next : forall s n from,
  (n < String.length s)%nat ->
  locus_from s (S n) from
  = (let at_ := locus_from s n from in
     if (char_at s n =? "010")%char
     then mkLocus (line at_ + 1) 1 (index at_ + 1)
     else mkLocus (line at_) (column at_ + 1) (index at_ + 1)).
Proof.
  induction s as [|c s IH]; intros n from L; cbn in L; [lia|].
  destruct n as [|n].
  - reflexivity.
  - change (locus_from (String c s) (S (S n)) from)
      with (locus_from s (S n)
              (if (c =? "010")%char
               then mkLocus (line from + 1) 1 (index from + 1)
               else mkLocus (line from) (column from + 1) (index from + 1))).
    rewrite IH by lia. reflexivity.
Qed.

Lemma advance_placed lx : placed lx -> placed (advance lx).
Proof.
  intros (F & I & P). destruct (isEof lx) eqn:E.
  - rewrite advance_at_end by exact E. repeat split; auto.
  - pose proof (isEof_false _ E) as L.
    assert (Fx : fits lx) by (unfold fits; lia).
    pose proof (advance_index lx Fx E) as X.
    unfold placed. rewrite advance_source, X.
    split; [exact F|]. split; [lia|].
    unfold locus_at in *.
    replace (N.to_nat (index (current_ lx) + 1))
      with (S (N.to_nat (index (current_ lx)))) by lia.
    rewrite locus_from_next by (unfold length64 in L; lia).
    cbv zeta. rewrite <- P.
    pose proof (locus_from_bounds (source_ lx)
                  (N.to_nat (index (current_ lx))) (mkLocus 1 1 0)
                  (N.le_refl 1)) as B.
    rewrite <- P in B. cbn [line column index] in B.
    rewrite N2Nat.id in B.
    unfold advance. rewrite E. cbv zeta.
    destruct (_ =? _)%char; cbn [current_];
      rewrite ?wrap64_small by lia; reflexivity.
Qed.

Lemma log_placed d lx : placed lx -> placed (log_error d lx).
Proof. intros H. exact H. Qed.

Lemma take_loop_placed p : forall fuel lx lx',
  placed lx -> take_loop fuel p lx = Some lx' ->
  placed lx' /\ source_ lx' = source_ lx.
Proof.
  induction fuel as [|fuel IH]; intros lx lx' P H; [discriminate|].
  cbn [take_loop] in H. destruct (p (peek lx)); [|inversion H; subst; auto].
  destruct (isEof lx); [inversion H; subst; auto|].
  apply IH in H; [|now apply advance_placed].
  now rewrite advance_source in H.
Qed.

Lemma string_loop_placed : forall fuel lx lx',
  placed lx -> lexString_loop fuel lx = Some lx' ->
  placed lx' /\ source_ lx' = source_ lx.
Proof.
  induction fuel as [|fuel IH]; intros lx lx' P H; [discriminate|].
  cbn [lexString_loop] in H. destruct (negb _); [|inversion H; subst; auto].
  destruct (isEof lx); [inversion H; subst; auto|].
  apply IH in H; [|now apply advance_placed].
  now rewrite advance_source in H.
Qed.

Lemma value_placed lx v lx' :
  placed lx -> value lx = (v, lx') -> placed lx' /\ source_ lx' = source_ lx.
Proof.
  unfold value. intros P H. destruct (negb _); inversion H; subst; auto.
Qed.

Lemma emit_placed kind lx res lx' :
  placed lx -> emit (makeToken kind lx) = Some (res, lx') ->
  placed lx' /\ source_ lx' = source_ lx.
Proof.
  unfold emit, makeToken. intros P H.
  destruct (value lx) as [v lx1] eqn:V.
  destruct (value_placed _ _ _ P V) as (P1 & S1).
  inversion H; subst. auto.
Qed.

Ltac stay_placed :=
  repeat first
    [ assumption
    | apply log_placed
    | apply advance_placed
    | match goal with
      | |- placed (if ?b then _ else _) => destruct b
      end ].

Ltac same_source :=
  repeat first
    [ rewrite advance_source
    | progress cbn [log_error source_]
    | match goal with
      | |- context [source_ (if ?b then _ else _)] => destruct b
      end ];
  try reflexivity; try congruence.

Lemma lexAlpha_placed : rule_placed lexAlpha.
Proof.
  intros lx res lx' P H. unfold lexAlpha in H.
  destruct (_ || _); [|inversion H; subst; auto].
  unfold take in H.
  destruct (take_loop _ _ lx) as [lx1|] eqn:T; [|discriminate].
  destruct (take_loop_placed _ _ _ _ P T) as (P1 & S1).
  destruct (value lx1) as [v lx2] eqn:V.
  destruct (value_placed _ _ _ P1 V) as (P2 & S2).
  destruct (Syntax.isKwy v); apply emit_placed in H; auto;
    destruct H as (? & ->); split; auto; congruence.
Qed.

Lemma lexNumeric_placed : rule_placed lexNumeric.
Proof.
  intros lx res lx' P H. unfold lexNumeric in H.
  destruct (isdigit (peek lx)); [|inversion H; subst; auto].
  unfold take in H.
  destruct (take_loop _ _ lx) as [lx1|] eqn:T; [|discriminate].
  destruct (take_loop_placed _ _ _ _ P T) as (P1 & S1).
  destruct (peek lx1 =? ".")%char;
    [|apply emit_placed in H; auto; destruct H as (? & ->); auto].
  destruct (_ && _);
    [apply emit_placed in H; auto; destruct H as (? & ->); auto|].
  destruct (take_loop _ _ (advance lx1)) as [lx2|] eqn:T2; [|discriminate].
  destruct (take_loop_placed _ _ _ _ (advance_placed _ P1) T2) as (P2 & S2).
  rewrite advance_source in S2.
  apply emit_placed in H; auto. destruct H as (? & ->). split; auto.
  congruence.
Qed.

Lemma lexCharacter_placed : rule_placed lexCharacter.
Proof.
  intros lx res lx' P H. unfold lexCharacter in H.
  destruct (peek lx =? "'")%char; [|inversion H; subst; auto].
  cbv zeta in H. apply emit_placed in H; [|stay_placed].
  destruct H as (? & ->). split; auto. same_source.
Qed.

Lemma lexString_placed : rule_placed lexString.
Proof.
  intros lx res lx' P H. unfold lexString in H.
  destruct (peek lx =? dquote)%char; [|inversion H; subst; auto].
  cbv zeta in H.
  destruct (lexString_loop _ (advance lx)) as [lx2|] eqn:T; [|discriminate].
  destruct (string_loop_placed _ _ _ (advance_placed _ P) T) as (P2 & S2).
  rewrite advance_source in S2.
  apply emit_placed in H; [|stay_placed].
  destruct H as (? & ->). split; auto. same_source.
Qed.

Lemma lexOperator_placed : rule_placed lexOperator.
Proof.
  intros lx res lx' P H. unfold lexOperator in H.
  destruct (Syntax.isOp (look lx)); [|inversion H; subst; auto].
  cbv zeta in H.
  destruct (value (advance lx)) as [v lx2] eqn:V.
  destruct (value_placed _ _ _ (advance_placed _ P) V) as (P2 & S2).
  rewrite advance_source in S2.
  apply emit_placed in H; [|stay_placed].
  destruct H as (? & ->). split; auto. same_source.
Qed.

Lemma lexDelimiter_placed : rule_placed lexDelimiter.
Proof.
  intros lx res lx' P H. unfold lexDelimiter in H.
  destruct (Syntax.isDel (look lx)); [|inversion H; subst; auto].
  apply emit_placed in H; [|stay_placed].
  destruct H as (? & ->). split; auto. same_source.
Qed.

Lemma first_rule_placed rules : Forall rule_placed rules ->
  rule_placed (first_rule rules).
Proof.
  induction 1 as [|r rules R _ IH]; intros lx res lx' P H;
    cbn [first_rule] in H.
  - inversion H; subst. auto.
  - destruct (r lx) as [[[tok|] lx1]|] eqn:X; [| |discriminate].
    + inversion H; subst. eapply R; eauto.
    + destruct (R lx None lx1 P X) as (P1 & S1).
      destruct (IH lx1 res lx' P1 H) as (P2 & S2). split; auto. congruence.
Qed.

Lemma rules_placed :
  Forall rule_placed
    [lexAlpha; lexNumeric; lexCharacter; lexString; lexOperator; lexDelimiter].
Proof.
  repeat first [apply Forall_nil | apply Forall_cons];
    auto using lexAlpha_placed, lexNumeric_placed, lexCharacter_placed,
      lexString_placed, lexOperator_placed, lexDelimiter_placed.
Qed.

Lemma next_placed lx tok lx' :
  placed lx -> next lx = Some (tok, lx') ->
  placed lx' /\ source_ lx' = source_ lx /\ located (source_ lx) tok.
Proof.
  intros P H.
  assert (F : fits lx) by (destruct P as (F & _); unfold fits; lia).
  assert (I : inside lx) by apply P.
  unfold next in H.
  destruct (take Syntax.isWsp lx) as [lx0|] eqn:T; [|discriminate].
  destruct (take_loop_placed _ _ _ _ P T) as (P0 & S0).
  assert (P1 : placed (ignore lx0)) by exact P0.
  assert (F1 : fits (ignore lx0)) by (unfold fits in *; cbn; now rewrite S0).
  assert (I1 : inside (ignore lx0)) by apply P0.
  destruct P0 as (_ & _ & L0). rewrite S0 in L0.
  destruct (isEof (ignore lx0)) eqn:E.
  - inversion H; subst. cbn. split; [exact P1|]. split; [exact S0|].
    split; exact L0.
  - destruct (first_rule _ (ignore lx0)) as [[res lx2]|] eqn:R; [|discriminate].
    destruct (first_rule_placed _ rules_placed _ _ _ P1 R) as (P2 & S2).
    pose proof (first_rule_text _ rules_text (ignore lx0) res lx2 F1 I1
                  (N.le_refl _) R) as X.
    cbn in S2. destruct res as [tok'|].
    + inversion H; subst. destruct X as (Xs & Xe & _).
      split; [exact P2|]. split; [congruence|].
      unfold located. rewrite Xs, Xe. cbn. split; [exact L0|].
      destruct P2 as (_ & _ & L2). rewrite S2, S0 in L2. exact L2.
    + subst lx2. unfold makeToken in H.
      destruct (value (ignore lx0)) as [v lx3] eqn:V.
      destruct (value_placed _ _ _ P1 V) as (P3 & S3).
      assert (Y : start_ lx3 = current_ lx0 /\ current_ lx3 = current_ lx0)
        by (unfold value in V; destruct (negb _); inversion V; auto).
      destruct Y as (St3 & C3).
      injection H as <- <-. cbn.
      split; [exact P3|]. split; [cbn in S3; congruence|].
      unfold located. cbn. rewrite St3, C3. split; exact L0.
Qed.

Lemma lex_loop_placed : forall fuel lx acc tokens lx',
  placed lx -> Forall (located (source_ lx)) acc ->
  lex_loop fuel lx acc = Some (tokens, lx') ->
  Forall (located (source_ lx)) tokens.
Proof.
  induction fuel as [|fuel IH]; intros lx acc tokens lx' P A H;
    [discriminate|].
  cbn [lex_loop] in H.
  destruct (next lx) as [[tok lx1]|] eqn:X; [|discriminate].
  destruct (next_placed lx tok lx1 P X) as (P1 & S1 & L).
  assert (A' : Forall (located (source_ lx)) (acc ++ [tok])%list)
    by (apply Forall_app; auto).
  destruct (is_final _); [inversion H; subst; exact A'|].
  rewrite <- S1 in *. eapply IH; eauto.
Qed.

(** X3: The start and the end of every token of [lex] are the line, the
    column and the index of a character of the source, counted from line 1,
    column 1, with a new line after every line feed. *)
Theorem lex_locates_tokens : forall (source : string) (lx : t),
  length64 source + 1 < 2 ^ 64 ->
  exists tokens lx',
    lex source lx = Some (tokens, lx') /\ Forall (located source) tokens.
Proof.
  intros source lx F. unfold lex.
  set (lx0 := reset _).
  assert (P : placed lx0)
    by (split; [exact F | split; [cbn; lia | reflexivity]]).
  destruct (lex_loop_ok (loop_fuel lx0) lx0 []) as (tokens & lx' & H & _).
  - unfold fits. cbn. lia.
  - apply P.
  - apply rest_bound.
  - constructor.
  - exists tokens, lx'. split; [exact H|].
    apply (lex_loop_placed _ _ _ _ _ P) in H; [exact H | constructor].
Qed.

Lemma lex_locates_tokens_witness :
  length64 "let x = 12;" + 1 < 2 ^ 64
  /\ exists tokens lx',
       lex "let x = 12;" (new "let x = 12;") = Some (tokens, lx')
       /\ Forall (located "let x = 12;") tokens.
Proof.
  split; [reflexivity|]. apply lex_locates_tokens. reflexivity.
Defined.

(** *** The text of the None token *)

Lemma emit_settled kind lx tok lx' :
  kind <> TNone ->
  emit (makeToken kind lx) = Some (Some tok, lx') ->
  tok_kind tok <> TNone
  /\ value_dirty_ lx' = false /\ cached_value_ lx' = tok_value tok.
Proof.
  intros K H. unfold emit, makeToken, value in H.
  destruct (value_dirty_ lx) eqn:D; cbn [negb] in H; inversion H; subst;
    cbn; auto.
Qed.

Ltac settle :=
  match goal with
  | H : emit (makeToken _ _) = Some (Some _, _) |- _ =>
      apply emit_settled in H; [exact H | discriminate]
  end.

Lemma lexAlpha_settled : rule_settled lexAlpha.
Proof.
  intros lx tok lx' H. unfold lexAlpha in H.
  destruct (_ || _); [|discriminate].
  destruct (take _ lx) as [lx1|]; [|discriminate].
  destruct (value lx1) as [v lx2]. destruct (Syntax.isKwy v); settle.
Qed.

Lemma lexNumeric_settled : rule_settled lexNumeric.
Proof.
  intros lx tok lx' H. unfold lexNumeric in H.
  destruct (isdigit (peek lx)); [|discriminate].
  destruct (take _ lx) as [lx1|]; [|discriminate].
  destruct (peek lx1 =? ".")%char; [|settle].
  destruct (_ && _); [settle|].
  destruct (take _ _) as [lx2|]; [|discriminate]. settle.
Qed.

Lemma lexCharacter_settled : rule_settled lexCharacter.
Proof.
  intros lx tok lx' H. unfold lexCharacter in H.
  destruct (peek lx =? "'")%char; [|discriminate]. cbv zeta in H. settle.
Qed.

Lemma lexString_settled : rule_settled lexString.
Proof.
  intros lx tok lx' H. unfold lexString in H.
  destruct (peek lx =? dquote)%char; [|discriminate]. cbv zeta in H.
  destruct (lexString_loop _ _); [|discriminate]. settle.
Qed.

Lemma lexOperator_settled : rule_settled lexOperator.
Proof.
  intros lx tok lx' H. unfold lexOperator in H.
  destruct (Syntax.isOp _); [|discriminate]. cbv zeta in H.
  destruct (value _). settle.
Qed.

Lemma lexDelimiter_settled : rule_settled lexDelimiter.
Proof.
  intros lx tok lx' H. unfold lexDelimiter in H.
  destruct (Syntax.isDel _); [|discriminate]. settle.
Qed.

Lemma first_rule_settled rules : Forall rule_settled rules ->
  rule_settled (first_rule rules).
Proof.
  induction 1 as [|r rules R _ IH]; intros lx tok lx' H;
    cbn [first_rule] in H; [discriminate|].
  destruct (r lx) as [[[tok'|] lx1]|] eqn:X; [| |discriminate].
  - inversion H; subst. eapply R; eauto.
  - eapply IH; eauto.
Qed.

Lemma rules_settled :
  Forall rule_settled
    [lexAlpha; lexNumeric; lexCharacter; lexString; lexOperator; lexDelimiter].
Proof.
  repeat first [apply Forall_nil | apply Forall_cons];
    auto using lexAlpha_settled, lexNumeric_settled, lexCharacter_settled,
      lexString_settled, lexOperator_settled, lexDelimiter_settled.
Qed.

(** [take] reads nothing and leaves the lexer as it was, or reads on
    and leaves the cache dirty. *)
Lemma take_loop_dirty p : forall fuel lx lx',
  fits lx -> inside lx -> take_loop fuel p lx = Some lx' ->
  lx' = lx
  \/ (value_dirty_ lx' = true /\ index (current_ lx) < index (current_ lx')).
Proof.
  induction fuel as [|fuel IH]; intros lx lx' F I H; [discriminate|].
  cbn [take_loop] in H. destruct (p (peek lx)); [|inversion H; auto].
  destruct (isEof lx) eqn:E; [inversion H; auto|].
  destruct (advance_strict lx F E) as (Fo & Lt & _).
  right. apply IH in H.
  - destruct H as [->|(D & L)].
    + split; [now apply advance_dirty | exact Lt].
    + split; [exact D | lia].
  - eapply follows_fits; eauto.
  - apply Fo.
Qed.

(** The value of a lexer that has read nothing since [ignore]. *)
Lemma value_at_start lx :
  fits lx -> inside lx -> start_ lx = current_ lx ->
  fst (value lx) = if value_dirty_ lx then "" else cached_value_ lx.
Proof.
  intros F I S. unfold value. destruct (value_dirty_ lx); cbn; [|reflexivity].
  rewrite S, sub64_exact; [| lia | unfold fits, inside in *; lia].
  rewrite N.sub_diag. apply substring_none.
Qed.

Lemma makeToken_at_start kind lx :
  fits lx -> inside lx -> start_ lx = current_ lx ->
  let tok := fst (makeToken kind lx) in
  tok_start tok = current_ lx /\ tok_end tok = current_ lx
  /\ tok_value tok = if value_dirty_ lx then "" else cached_value_ lx.
Proof.
  intros F I S. pose proof (value_at_start lx F I S) as V.
  unfold makeToken, value in *.
  destruct (value_dirty_ lx); cbn in *; auto.
Qed.

(** The token [next] cuts, when it is the None token, and the cache it
    leaves when more tokens follow. *)
Lemma next_echoes before lx tok lx' :
  fits lx -> inside lx -> settled before lx -> next lx = Some (tok, lx') ->
  echoes before [tok]
  /\ (is_final (tok_kind tok) = false -> settled (Some tok) lx').
Proof.
  intros F I St H. unfold next in H.
  destruct (take Syntax.isWsp lx) as [lx0|] eqn:T; [|discriminate].
  destruct (take_follows Syntax.isWsp lx F I) as (lx0' & T' & Fo0).
  rewrite T in T'. inversion T'; subst lx0'. clear T'.
  pose proof (take_loop_dirty _ _ _ _ F I T) as D.
  destruct Fo0 as (S0 & L0 & I0).
  assert (F1 : fits (ignore lx0)) by (unfold fits in *; cbn; now rewrite S0).
  assert (I1 : inside (ignore lx0)) by exact I0.
  cbn [echoes].
  destruct (isEof (ignore lx0)) eqn:E.
  - inversion H; subst. cbn. repeat split; discriminate.
  - destruct (first_rule _ (ignore lx0)) as [[res lx2]|] eqn:R; [|discriminate].
    pose proof (first_rule_text _ rules_text (ignore lx0) res lx2 F1 I1
                  (N.le_refl _) R) as X.
    destruct res as [tok'|].
    + inversion H; subst tok' lx2. clear H.
      destruct (first_rule_settled _ rules_settled _ _ _ R) as (K & Dq & C).
      destruct X as (_ & Xe & _).
      repeat split; try contradiction; try assumption.
      now rewrite Xe.
    + subst lx2.
      pose proof (makeToken_kind TNone (ignore lx0)) as K.
      destruct (makeToken_at_start TNone (ignore lx0) F1 I1 eq_refl)
        as (Ts & Te & Tv).
      injection H as H.
      cbv zeta in Ts, Te, Tv. rewrite H in K, Ts, Te, Tv. cbn [fst] in *.
      cbn [ignore current_ value_dirty_ cached_value_] in Ts, Te, Tv.
      split; [|intros Fi; unfold is_final in Fi; rewrite K in Fi;
               discriminate].
      split; [|exact Logic.I]. intros _.
      split; [congruence|]. rewrite Tv, Ts.
      destruct D as [->|(Dq & Lt)].
      * destruct before as [p|]; cbn [settled] in St.
        -- destruct St as (Dq & C & Ix). rewrite Dq, C, <- Ix, N.eqb_refl.
           reflexivity.
        -- now rewrite St.
      * rewrite Dq. destruct before as [p|]; [|reflexivity].
        destruct St as (_ & _ & Ix).
        replace (index (tok_end p) =? index (current_ lx0)) with false;
          [reflexivity|]. symmetry. apply N.eqb_neq. lia.
Qed.

Lemma lex_loop_echoes : forall fuel lx acc tokens lx' before,
  fits lx -> inside lx -> settled before lx ->
  lex_loop fuel lx acc = Some (tokens, lx') ->
  exists new, tokens = (acc ++ new)%list /\ echoes before new.
Proof.
  induction fuel as [|fuel IH]; intros lx acc tokens lx' before F I St H;
    [discriminate|].
  cbn [lex_loop] in H.
  destruct (next lx) as [[tok lx1]|] eqn:X; [|discriminate].
  destruct (next_text lx tok lx1 F I X) as (S & I1 & _ & _).
  destruct (next_echoes before lx tok lx1 F I St X) as (Ec & Se).
  destruct (is_final (tok_kind tok)) eqn:K.
  - inversion H; subst. exists [tok]. split; [reflexivity | exact Ec].
  - apply (IH _ _ _ _ (Some tok)) in H;
      [| unfold fits in *; now rewrite S | exact I1 | now apply Se].
    destruct H as (new & -> & Ec').
    exists (tok :: new). split; [now rewrite <- app_assoc|].
    cbn [echoes] in *. tauto.
Qed.

(** X27: The None token of [lex] spans nothing, yet it is not always empty:
    when the character no rule reads comes right after a token, the None
    token repeats the text of that token ([ignore] does not raise
    [value_dirty_]); after whitespace, or at the start of the source, its
    text is empty.  On the source [ab#] the tokens are the identifier [ab]
    and the None token with the text [ab]. *)
Theorem lex_none_token_echoes :
  (forall (source : string) (lx : t),
     length64 source < 2 ^ 64 ->
     exists tokens lx',
       lex source lx = Some (tokens, lx') /\ echoes None tokens)
  /\ option_map fst (lex "ab#" (new "ab#"))
     = Some [mkToken TIdentifier "ab" (one_line 0) (one_line 2);
             mkToken TNone "ab" (one_line 2) (one_line 2)].
Proof.
  split; [|vm_compute; reflexivity].
  intros source lx F. unfold lex.
  match goal with
  | |- context [lex_loop ?fuel ?lx0 []] =>
      destruct (lex_loop_ok fuel lx0 []) as (tokens & lx' & H & _);
      [ exact F | unfold inside; cbn; lia | apply rest_bound | constructor | ]
  end.
  exists tokens, lx'. split; [exact H|].
  apply (lex_loop_echoes _ _ _ _ _ None) in H;
    [| exact F | unfold inside; cbn; lia | reflexivity].
  destruct H as (new & -> & Ec). exact Ec.
Qed.

(** The theorem at the source [ab#]: the None token right after the
    identifier repeats its text. *)
Lemma lex_none_token_echoes_witness :
  length64 "ab#" < 2 ^ 64
  /\ echoes None
       [mkToken TIdentifier "ab" (one_line 0) (one_line 2);
        mkToken TNone "ab" (one_line 2) (one_line 2)].
Proof.
  split; [reflexivity|].
  destruct (proj1 lex_none_token_echoes "ab#" (new "ab#") eq_refl)
    as (tokens & lx' & H & Ec).
  vm_compute in H. injection H as <- <-. exact Ec.
Defined.

(** *** Where the token list stops *)

Lemma lexAlpha_guarded :
  rule_guarded (fun lx => isalpha (peek lx) || (peek lx =? "_")%char) lexAlpha.
Proof.
  intros lx. unfold lexAlpha. split; intros G; rewrite G; [reflexivity|].
  intros res lx' H. destruct (take _ lx) as [lx1|]; [|discriminate].
  destruct (value lx1) as [v lx2].
  destruct (Syntax.isKwy v); unfold emit in H; inversion H; discriminate.
Qed.

Lemma lexNumeric_guarded :
  rule_guarded (fun lx => isdigit (peek lx)) lexNumeric.
Proof.
  intros lx. unfold lexNumeric. split; intros G; rewrite G; [reflexivity|].
  intros res lx' H. destruct (take _ lx) as [lx1|]; [|discriminate].
  destruct (peek lx1 =? ".")%char;
    [destruct (_ && _); [|destruct (take _ _); [|discriminate]]|];
    unfold emit in H; inversion H; discriminate.
Qed.

Lemma lexCharacter_guarded :
  rule_guarded (fun lx => (peek lx =? "'")%char) lexCharacter.
Proof.
  intros lx. unfold lexCharacter. split; intros G; rewrite G; [reflexivity|].
  intros res lx' H. cbv zeta in H. unfold emit in H. inversion H. discriminate.
Qed.

Lemma lexString_guarded :
  rule_guarded (fun lx => (peek lx =? dquote)%char) lexString.
Proof.
  intros lx. unfold lexString. split; intros G; rewrite G; [reflexivity|].
  intros res lx' H. cbv zeta in H.
  destruct (lexString_loop _ _); [|discriminate].
  unfold emit in H. inversion H. discriminate.
Qed.

Lemma lexOperator_guarded :
  rule_guarded (fun lx => Syntax.isOp (look lx)) lexOperator.
Proof.
  intros lx. unfold lexOperator. split; intros G; rewrite G; [reflexivity|].
  intros res lx' H. cbv zeta in H. destruct (value _).
  unfold emit in H. inversion H. discriminate.
Qed.

Lemma lexDelimiter_guarded :
  rule_guarded (fun lx => Syntax.isDel (look lx)) lexDelimiter.
Proof.
  intros lx. unfold lexDelimiter. split; intros G; rewrite G; [reflexivity|].
  intros res lx' H. unfold emit in H. inversion H. discriminate.
Qed.

Lemma first_rule_guarded gs rules : Forall2 rule_guarded gs rules ->
  forall lx res lx', first_rule rules lx = Some (res, lx') ->
    match res with
    | Some _ => existsb (fun g => g lx) gs = true
    | None => existsb (fun g => g lx) gs = false /\ lx' = lx
    end.
Proof.
  induction 1 as [|g r gs rules R _ IH]; intros lx res lx' H;
    cbn [first_rule existsb] in *.
  - inversion H; subst. auto.
  - destruct (R lx) as (No & Yes). destruct (g lx) eqn:G; cbn [orb].
    + destruct (r lx) as [[[tok|] lx1]|] eqn:X; [| |discriminate].
      * inversion H; subst. reflexivity.
      * now destruct (Yes eq_refl None lx1 eq_refl).
    + rewrite (No eq_refl) in H. now apply IH.
Qed.

Lemma rules_guarded :
  Forall2 rule_guarded guards
    [lexAlpha; lexNumeric; lexCharacter; lexString; lexOperator; lexDelimiter].
Proof.
  unfold guards.
  repeat first [apply Forall2_nil | apply Forall2_cons];
    auto using lexAlpha_guarded, lexNumeric_guarded, lexCharacter_guarded,
      lexString_guarded, lexOperator_guarded, lexDelimiter_guarded.
Qed.

(** Before the end of the source, the tests of the rules are the tests
    on the character under the cursor. *)
Lemma guards_at_cursor lx : isEof lx = false ->
  existsb (fun g => g lx) guards
  = starts_token (source_ lx) (index (current_ lx)).
Proof.
  intros E. unfold guards, starts_token. cbn [existsb].
  rewrite (peek_char lx E). unfold look. cbv zeta.
  now rewrite orb_false_r, !orb_assoc.
Qed.

(** [take] stops at the end of the source or at a character that fails
    its test. *)
Lemma take_loop_stops p : forall fuel lx lx',
  take_loop fuel p lx = Some lx' -> isEof lx' = true \/ p (peek lx') = false.
Proof.
  induction fuel as [|fuel IH]; intros lx lx' H; [discriminate|].
  cbn [take_loop] in H. destruct (p (peek lx)) eqn:P;
    [|inversion H; subst; auto].
  destruct (isEof lx) eqn:E; [inversion H; subst; auto|].
  exact (IH _ _ H).
Qed.

(** The token [next] cuts: Eof at the end of the source, None at a
    character no rule reads, another token at a character one reads. *)
Lemma next_stops lx tok lx' :
  fits lx -> inside lx -> next lx = Some (tok, lx') ->
  match tok_kind tok with
  | TEof => index (tok_start tok) = length64 (source_ lx)
  | TNone =>
      index (tok_start tok) < length64 (source_ lx)
      /\ Syntax.isWsp
           (char_at (source_ lx) (N.to_nat (index (tok_start tok)))) = false
      /\ starts_token (source_ lx) (index (tok_start tok)) = false
  | _ => starts_token (source_ lx) (index (tok_start tok)) = true
  end.
Proof.
  intros F I H. unfold next in H.
  destruct (take Syntax.isWsp lx) as [lx0|] eqn:T; [|discriminate].
  destruct (take_follows Syntax.isWsp lx F I) as (lx0' & T' & Fo0).
  rewrite T in T'. inversion T'; subst lx0'. clear T'.
  pose proof (take_loop_stops _ _ _ _ T) as W.
  destruct Fo0 as (S0 & L0 & I0).
  assert (F1 : fits (ignore lx0)) by (unfold fits in *; cbn; now rewrite S0).
  assert (I1 : inside (ignore lx0)) by exact I0.
  destruct (isEof (ignore lx0)) eqn:E.
  - inversion H; subst. cbn. unfold isEof in E. cbn in E.
    apply N.leb_le in E. unfold inside in I0. rewrite S0 in *. lia.
  - destruct (first_rule _ (ignore lx0)) as [[res lx2]|] eqn:R; [|discriminate].
    pose proof (first_rule_guarded _ _ rules_guarded _ _ _ R) as G.
    rewrite (guards_at_cursor _ E) in G. cbn [ignore source_ current_] in G.
    rewrite S0 in G.
    destruct res as [tok'|].
    + inversion H; subst tok' lx2. clear H.
      destruct (first_rule_text _ rules_text (ignore lx0) (Some tok) lx' F1 I1
                  (N.le_refl _) R) as (Xs & _).
      destruct (first_rule_ok _ rules_ok (ignore lx0) F1 I1)
        as (res' & lx2' & R' & _ & P).
      rewrite R in R'. inversion R'; subst res' lx2'. clear R'.
      destruct P as (_ & K). cbn [ignore start_] in Xs. rewrite Xs.
      destruct (tok_kind tok); try exact G; discriminate.
    + destruct G as (G & ->).
      pose proof (makeToken_kind TNone (ignore lx0)) as K.
      destruct (makeToken_at_start TNone (ignore lx0) F1 I1 eq_refl)
        as (Ts & _ & _).
      injection H as H. cbv zeta in Ts. rewrite H in K, Ts. cbn [fst] in *.
      cbn [ignore current_] in Ts. rewrite K, Ts.
      assert (E0 : isEof lx0 = false) by exact E.
      split; [rewrite <- S0; now apply isEof_false|].
      split; [|exact G].
      destruct W as [W|W]; [congruence|].
      rewrite (peek_char lx0 E0), S0 in W. exact W.
Qed.

Lemma lex_loop_stops : forall fuel lx acc tokens lx',
  fits lx -> inside lx ->
  Forall (fun tok =>
            is_final (tok_kind tok) = false
            /\ starts_token (source_ lx) (index (tok_start tok)) = true) acc ->
  lex_loop fuel lx acc = Some (tokens, lx') ->
  stops (source_ lx) tokens.
Proof.
  induction fuel as [|fuel IH]; intros lx acc tokens lx' F I A H;
    [discriminate|].
  cbn [lex_loop] in H.
  destruct (next lx) as [[tok lx1]|] eqn:X; [|discriminate].
  destruct (next_text lx tok lx1 F I X) as (S & I1 & _ & _).
  pose proof (next_stops lx tok lx1 F I X) as St.
  destruct (is_final (tok_kind tok)) eqn:K.
  - inversion H; subst. exists acc, tok. split; [reflexivity|].
    split; [exact A|].
    destruct (tok_kind tok); try discriminate K; exact St.
  - rewrite <- S. apply (IH lx1 (acc ++ [tok])%list tokens lx').
    + unfold fits in *. now rewrite S.
    + exact I1.
    + rewrite S. apply Forall_app. split; [exact A|].
      constructor; [|constructor]. split; [exact K|].
      destruct (tok_kind tok); try discriminate K; exact St.
    + exact H.
Qed.

(** C3 (as amended): for every source a string can hold, [lex] returns
    a token list that spells the source, with only whitespace between
    the tokens, and that stops in one of two ways.  Every token before
    the last is neither Eof nor None and starts at a character some
    rule reads.  The last token is Eof only at the end of the source;
    it is None, and no Eof follows, when lexing reaches a character
    before the end that is no whitespace and that no rule reads. *)
Theorem lex_stops_at_Eof_or_None : forall (source : string) (lx : t),
  length64 source < 2 ^ 64 ->
  exists tokens lx',
    lex source lx = Some (tokens, lx')
    /\ spells source 0 tokens
    /\ stops source tokens.
Proof.
  intros source lx F. unfold lex.
  match goal with
  | |- context [lex_loop ?fuel ?lx0 []] =>
      destruct (lex_loop_ok fuel lx0 []) as (tokens & lx' & H & _);
      [ exact F | unfold inside; cbn; lia | apply rest_bound | constructor | ]
  end.
  exists tokens, lx'. split; [exact H|]. split.
  - apply lex_loop_text in H; [| exact F | unfold inside; cbn; lia].
    destruct H as (new & -> & Sp). exact Sp.
  - apply lex_loop_stops in H;
      [exact H | exact F | unfold inside; cbn; lia | constructor].
Qed.

(** The theorem at the source [a#]: the token list is the identifier
    [a] and the None token at [#]. *)
Lemma lex_stops_at_Eof_or_None_witness :
  length64 "a#" < 2 ^ 64
  /\ option_map fst (lex "a#" (new "a#"))
     = Some [mkToken TIdentifier "a" (one_line 0) (one_line 1);
             mkToken TNone "a" (one_line 1) (one_line 1)]
  /\ spells "a#" 0
       [mkToken TIdentifier "a" (one_line 0) (one_line 1);
        mkToken TNone "a" (one_line 1) (one_line 1)]
  /\ stops "a#"
       [mkToken TIdentifier "a" (one_line 0) (one_line 1);
        mkToken TNone "a" (one_line 1) (one_line 1)].
Proof.
  split; [reflexivity|].
  destruct (lex_stops_at_Eof_or_None "a#" (new "a#") eq_refl)
    as (tokens & lx' & H & Sp & St).
  vm_compute in H. injection H as <- <-.
  split; [reflexivity|]. split; [exact Sp | exact St].
Defined.

End LexerText.

(** ** The token stream of the parser *)

Module TokenStreamFacts.
Import Ast Parser ParserVocabulary.
Local Open Scope run_scope.

Lemma token_at_inside st :
  isEof_st st = false -> exists tok, token_at st (index_ st) = Some tok.
Proof.
  unfold isEof_st, token_at, size64. intros E.
  destruct (N.leb_spec (N.of_nat (List.length (tokens_ st))) (index_ st));
    [discriminate|].
  destruct (nth_error (tokens_ st) (N.to_nat (index_ st))) as [tok|] eqn:X;
    [eauto|].
  apply nth_error_None in X. lia.
Qed.

(** X5: [matchValue] never stops on a null pointer: it answers no and leaves
    the parser as it was, or it answers yes after stepping over one token,
    which has the value asked for and becomes the last token. *)
Theorem matchValue_consumes : forall (value : string) (st : State),
  (negb (isEof_st st) && at_value st value = false
   /\ matchValue value st = Ok (false, st))
  \/ exists tok,
       isEof_st st = false
       /\ token_at st (index_ st) = Some tok
       /\ tok_value tok = value
       /\ matchValue value st
          = Ok (true,
                mkState (tokens_ st) (wrap64 (index_ st + 1)) tok (plog st)).
Proof.
  intros value st.
  unfold matchValue, checkValue, test_token, bind, peek, isEof, advance, ret,
    at_value.
  destruct (isEof_st st) eqn:E; cbn; rewrite ?E.
  - left. auto.
  - destruct (token_at_inside st E) as (tok & T). rewrite T. cbn.
    destruct (tok_value tok =? value)%string eqn:V; rewrite ?E, ?T.
    + right. exists tok. apply String.eqb_eq in V. auto.
    + left. auto.
Qed.

Lemma peek_inside st tok :
  isEof_st st = false -> token_at st (index_ st) = Some tok ->
  peek st = Ok (Some tok, st).
Proof. intros E T. unfold peek. now rewrite E, T. Qed.

Lemma advance_inside st tok :
  isEof_st st = false -> token_at st (index_ st) = Some tok ->
  advance st
  = Ok (Some tok, mkState (tokens_ st) (wrap64 (index_ st + 1)) tok (plog st)).
Proof. intros E T. unfold advance. now rewrite E, T. Qed.

(** X6: [expectValue] always returns. At the end of the input it logs one
    error and answers with the null pointer; before the end it answers with
    the current token and steps over it, whatever its value, logging one
    error when the value is not the expected one. *)
Theorem expectValue_consumes :
  forall (value message : string) (st : State),
    exists r st',
      expectValue value message st = Ok (r, st')
      /\ tokens_ st' = tokens_ st
      /\ (if isEof_st st
          then r = None /\ index_ st' = index_ st
               /\ List.length (plog st') = S (List.length (plog st))
          else r = token_at st (index_ st) /\ r <> None
               /\ index_ st' = wrap64 (index_ st + 1)
               /\ List.length (plog st')
                  = (List.length (plog st)
                     + if at_value st value then 0 else 1)%nat).
Proof.
  intros value message st. unfold expectValue.
  rewrite (bind_step isEof _ st (isEof_st st) st eq_refl).
  destruct (isEof_st st) eqn:E.
  - eexists _, _. split; [reflexivity|]. cbn [tokens_ index_ plog].
    repeat split. rewrite length_app. cbn. lia.
  - destruct (token_at_inside st E) as (tok & T).
    rewrite (bind_step _ _ _ _ _ (peek_inside st tok E T)).
    unfold at_value. rewrite T.
    destruct (tok_value tok =? value)%string; cbn [negb when_].
    + rewrite (bind_step _ _ st tt st eq_refl). cbv beta.
      eexists _, _. split; [apply (advance_inside st tok E T)|].
      cbn [tokens_ index_ plog].
      repeat split; [discriminate | lia].
    + match goal with
      | |- context [bind (Parser.log_error ?d) _ st] =>
          rewrite (bind_step (Parser.log_error d) _ st tt _ eq_refl);
          cbv beta
      end.
      eexists _, _. split; [apply advance_inside; [exact E | exact T]|].
      cbn [tokens_ index_ plog].
      repeat split; [discriminate|]. rewrite length_app. cbn. lia.
Qed.

Lemma look_some st i tok :
  look i st = Ok (Some tok, st) -> In tok (tokens_ st).
Proof.
  unfold look, token_at. destruct (_ <=? _); [discriminate|].
  intros H. inversion H as [X]. eapply nth_error_In; eauto.
Qed.

Lemma look_returns st i : exists r, look i st = Ok (r, st).
Proof. unfold look. destruct (_ <=? _); eauto. Qed.

(** X7: A class body in which no token is an accessor, a modifier or [fn] is
    never left: [parseClass] looks further and further ahead and the parser
    stays where it is, so the loop has no end. *)
Theorem class_loop_never_ends :
  forall (fuel : nat) (field : P VariableDeclaration)
         (method : P FunctionDeclaration) (i : N)
         (fields : list VariableDeclaration)
         (methods : list FunctionDeclaration) (st : State),
    isEof_st st = false ->
    at_value st "}" = false ->
    existsb member_start (tokens_ st) = false ->
    class_loop fuel field method i fields methods st = OutOfFuel.
Proof.
  intros fuel field method i fields methods st E B N.
  revert i. induction fuel as [|fuel IH]; intros i; [reflexivity|].
  cbn [class_loop]. unfold bind at 1. unfold isEof at 1. rewrite E.
  unfold bind at 1.
  assert (C : checkValue "}" st = Ok (false, st)).
  { destruct (token_at_inside st E) as (tok & T).
    unfold at_value in B. rewrite T in B.
    unfold checkValue, test_token.
    rewrite (bind_step _ _ _ _ _ (peek_inside st tok E T)).
    rewrite (bind_step isEof _ st (isEof_st st) st eq_refl). rewrite E.
    cbn. now rewrite B. }
  cbn [negb]. rewrite C. cbn [negb andb].
  unfold bind at 1. destruct (look_returns st i) as (r & L). rewrite L.
  assert (M : is_acc_or_mod r = false /\ is_fn r = false).
  { destruct r as [tok|]; [|auto]. apply look_some in L.
    assert (X : member_start tok = false).
    { destruct (member_start tok) eqn:X; [|reflexivity].
      assert (Y : existsb member_start (tokens_ st) = true)
        by (apply existsb_exists; eauto).
      congruence. }
    unfold member_start in X. apply orb_false_iff in X. destruct X as [X1 X2].
    cbn. auto. }
  destruct M as [-> ->]. apply IH.
Qed.

Lemma class_loop_never_ends_witness :
  isEof_st (on_source "count: i64; }") = false
  /\ at_value (on_source "count: i64; }") "}" = false
  /\ existsb member_start (tokens_ (on_source "count: i64; }")) = false
  /\ class_loop 5 (ret (mkVariableDeclaration (one_line 0) (one_line 0)
                          (mkIdentifier (one_line 0) (one_line 0) "")
                          (IdentifierExpression (one_line 0) (one_line 0) "")
                          (mkModifier (one_line 0) (one_line 0) Private
                             Modifier_None) None))
       crash 0 [] [] (on_source "count: i64; }") = OutOfFuel.
Proof.
  split; [vm_compute; reflexivity|]. split; [vm_compute; reflexivity|].
  split; [vm_compute; reflexivity|].
  apply class_loop_never_ends; vm_compute; reflexivity.
Defined.

(** *** Binary expressions *)

(** X8: The chain a binary level builds starts where its first operand
    starts: whenever the loop over the operators returns, it returns an
    expression, and the span of that expression begins at the span of the
    operand the loop was entered with. *)
Theorem binary_loop_start :
  forall (fuel : nat) (ops : list string) (sub : P (option Expression))
         (l : Expression) (st st' : State) (r : option Expression),
    binary_loop fuel ops sub (Some l) st = Ok (r, st') ->
    exists x, r = Some x /\ expr_start x = expr_start l.
Proof.
  induction fuel as [|fuel IH]; intros ops sub l st st' r H; [discriminate|].
  cbn [binary_loop] in H.
  apply bind_Ok in H. destruct H as ([|] & st1 & _ & H).
  - apply bind_Ok in H. destruct H as (opToken & st2 & _ & H).
    apply bind_Ok in H. destruct H as (right & st3 & _ & H).
    apply bind_Ok in H. destruct H as (l' & st4 & D & H).
    inversion D; subst l' st4.
    apply bind_Ok in H. destruct H as (r' & st5 & _ & H).
    apply IH in H. destruct H as (x & -> & E). exists x. split; [reflexivity|].
    exact E.
  - inversion H; subst. eauto.
Qed.

Lemma binary_loop_start_witness :
  exists r st',
    binary_loop 5 ["+"; "-"] (parsePrimary 5 (ret None))
      (Some (IdentifierExpression (one_line 0) (one_line 1) "a"))
      (mkState (tokens_ (on_source "a + b")) 1 Token_default [])
    = Ok (r, st')
    /\ exists x, r = Some x /\ expr_start x = one_line 0.
Proof.
  destruct (binary_loop 5 ["+"; "-"] (parsePrimary 5 (ret None))
              (Some (IdentifierExpression (one_line 0) (one_line 1) "a"))
              (mkState (tokens_ (on_source "a + b")) 1 Token_default []))
    as [[r st']| | |] eqn:H; try (vm_compute in H; discriminate).
  exists r, st'. split; [reflexivity|].
  exact (binary_loop_start _ _ _ _ _ _ _ H).
Defined.

(** X9: A binary operator whose right operand does not parse: the loop has
    stepped over the operator, the operand parser answers with the null
    pointer, and building the node reads its end. *)
Theorem binary_loop_missing_operand :
  forall (fuel : nat) (ops : list string) (sub : P (option Expression))
         (expr : option Expression) (st st1 st2 : State) (opToken : Token),
    matchValues ops st = Ok (true, st1) ->
    prev_token st1 = Ok (opToken, st1) ->
    sub st1 = Ok (None, st2) ->
    binary_loop (S fuel) ops sub expr st = Crash.
Proof.
  intros fuel ops sub expr st st1 st2 opToken M T S.
  cbn [binary_loop].
  rewrite (bind_step _ _ _ _ _ M). cbv beta iota.
  rewrite (bind_step _ _ _ _ _ T). cbv beta.
  rewrite (bind_step _ _ _ _ _ S). cbv beta.
  destruct expr as [l|]; reflexivity.
Qed.

Lemma binary_loop_missing_operand_witness :
  binary_loop 5 ["+"; "-"] (parsePrimary 5 (ret None))
    (Some (IdentifierExpression (one_line 0) (one_line 1) "a"))
    (mkState (tokens_ (on_source "a + ;")) 1 Token_default [])
  = Crash.
Proof.
  set (st := mkState (tokens_ (on_source "a + ;")) 1 Token_default []).
  set (st1 := state_after (matchValues ["+"; "-"]) st).
  apply (binary_loop_missing_operand 4 ["+"; "-"] (parsePrimary 5 (ret None))
           (Some (IdentifierExpression (one_line 0) (one_line 1) "a"))
           st st1 (state_after (parsePrimary 5 (ret None)) st1)
           (result_of prev_token st1 Token_default));
    vm_compute; reflexivity.
Defined.

(** *** Blocks *)

(** X10: A block that the input ends in: [parseBlock] has read the opening
    brace and the statements, [expectValue] answers the missing closing
    brace with the null pointer, and building the node reads its end. *)
Theorem parseBlock_unclosed :
  forall (fuel : nat) (parseStatement : P (option Statement))
         (st st1 st2 : State) (leftBrace : option Token)
         (statements : list Statement),
    expectValue "{" "to start a block statement" st = Ok (leftBrace, st1) ->
    statement_loop fuel true parseStatement [] st1 = Ok (statements, st2) ->
    isEof_st st2 = true ->
    parseBlock fuel parseStatement st = Crash.
Proof.
  intros fuel ps st st1 st2 leftBrace statements L S E.
  unfold parseBlock.
  rewrite (bind_step _ _ _ _ _ L). cbv beta.
  rewrite (bind_step _ _ _ _ _ S). cbv beta.
  destruct (ParserFacts.expectValue_at_end "}" "to end a block statement"
              st2 E) as (st3 & X).
  rewrite (bind_step _ _ _ _ _ X). cbv beta.
  destruct leftBrace; reflexivity.
Qed.

Lemma parseBlock_unclosed_witness :
  parseBlock 20 (parseStatement 20) (on_source "{ break;") = Crash.
Proof.
  set (st := on_source "{ break;").
  set (open := expectValue "{" "to start a block statement").
  set (body := statement_loop 20 true (parseStatement 20) []).
  apply (parseBlock_unclosed 20 (parseStatement 20) st
           (state_after open st)
           (state_after body (state_after open st))
           (result_of open st None)
           (result_of body (state_after open st) []));
    vm_compute; reflexivity.
Defined.

End TokenStreamFacts.

(** ** Types *)

Module TypeFacts.
Import Sema.

Lemma canAssignType_refl t : canAssignType t t = true.
Proof. destruct t as [[] n]; reflexivity. Qed.

(** X11: [canAssignType] is transitive: what can be assigned to [mid] can be
    assigned to everything [mid] can be assigned to. (It is reflexive as
    well, so it is a preorder on types.) *)
Theorem canAssignType_trans : forall to mid from : Type_,
  canAssignType to mid = true -> canAssignType mid from = true ->
  canAssignType to from = true.
Proof.
  intros [ka na] [kb nb] [kc nc].
  destruct ka, kb; cbn; try discriminate; intros _;
    destruct kc; cbn; try discriminate; reflexivity.
Qed.

Lemma canAssignType_trans_witness :
  canAssignType f64_ty i64_ty = true /\ canAssignType i64_ty i8_ty = true
  /\ canAssignType f64_ty i8_ty = true.
Proof.
  split; [reflexivity|]. split; [reflexivity|].
  apply (canAssignType_trans f64_ty i64_ty i8_ty); reflexivity.
Defined.

(** X12: The promoted type of two types can be assigned from both of them
    exactly when they are similar, or both numeric and not both floating
    point: two floats of different kinds promote to a float that the other
    cannot be assigned to. *)
Theorem promote_then_assign : forall a b : Type_,
  canAssignType (promoteTypes a b) a && canAssignType (promoteTypes a b) b
  = isSimilarTo a b
    || (isNumeric a && isNumeric b
        && negb (isFloatingPoint a && isFloatingPoint b)).
Proof. intros [ka na] [kb nb]. destruct ka, kb; reflexivity. Qed.

(** X13: Two integers promote to one of them, an integer of the larger size. *)
Theorem promoteTypes_integers : forall a b : Type_,
  isInteger a = true -> isInteger b = true ->
  isInteger (promoteTypes a b) = true
  /\ size (promoteTypes a b) = N.max (size a) (size b)
  /\ (promoteTypes a b = a \/ promoteTypes a b = b).
Proof.
  intros [ka na] [kb nb]. destruct ka; try discriminate; intros _;
    destruct kb; try discriminate; intros _; cbn; auto.
Qed.

Lemma promoteTypes_integers_witness :
  isInteger i16_ty = true /\ isInteger u64_ty = true
  /\ isInteger (promoteTypes i16_ty u64_ty) = true
  /\ size (promoteTypes i16_ty u64_ty) = N.max (size i16_ty) (size u64_ty)
  /\ (promoteTypes i16_ty u64_ty = i16_ty
      \/ promoteTypes i16_ty u64_ty = u64_ty).
Proof.
  split; [reflexivity|]. split; [reflexivity|].
  apply (promoteTypes_integers i16_ty u64_ty); reflexivity.
Defined.

(** X14: For two types that are not similar, the promotion is the invalid
    type [none] exactly when one of them is not numeric. *)
Theorem promoteTypes_none : forall a b : Type_,
  isSimilarTo a b = false ->
  (promoteTypes a b = none_ty <-> isNumeric a && isNumeric b = false).
Proof.
  intros [ka na] [kb nb]. destruct ka, kb; cbn; try discriminate; intros _;
    split; try reflexivity; try discriminate.
Qed.

Lemma promoteTypes_none_witness :
  isSimilarTo string_ty i64_ty = false
  /\ (promoteTypes string_ty i64_ty = none_ty
      <-> isNumeric string_ty && isNumeric i64_ty = false).
Proof.
  split; [reflexivity|].
  apply (promoteTypes_none string_ty i64_ty). reflexivity.
Defined.

Lemma arguments_match_Forall2 : forall args params,
  List.length args = List.length params ->
  (arguments_match args params = true
   <-> Forall2 (fun a p => isSimilarTo a (v_type p)
                           || (isNumeric a && isNumeric (v_type p)) = true)
         args params).
Proof.
  induction args as [|a args IH]; intros [|p ps] L; try discriminate.
  - cbn. split; [constructor | reflexivity].
  - cbn [arguments_match]. injection L as L. specialize (IH ps L).
    destruct (isSimilarTo a (v_type p)) eqn:S.
    + rewrite IH. split; [intros H; constructor; [now rewrite S | exact H]|].
      intros H. now inversion H.
    + destruct (isNumeric a && isNumeric (v_type p)) eqn:N.
      * rewrite IH.
        split; [intros H; constructor; [now rewrite S, N | exact H]|].
        intros H. now inversion H.
      * split; [discriminate|]. intros H. inversion H; subst.
        rewrite S, N in *. discriminate.
Qed.

(** X15: [isValidArguments] accepts exactly the argument lists that have one
    type for each parameter, each similar to its parameter's type or numeric
    like it. *)
Theorem isValidArguments_exact :
  forall (f : Function) (arg_types : list Type_),
    isValidArguments f arg_types = true
    <-> Forall2 (fun a p => isSimilarTo a (v_type p)
                            || (isNumeric a && isNumeric (v_type p)) = true)
          arg_types (f_parameters f).
Proof.
  intros f args. unfold isValidArguments.
  destruct (List.length args =? List.length (f_parameters f))%nat eqn:L;
    cbn [negb].
  - apply Nat.eqb_eq in L. now apply arguments_match_Forall2.
  - apply Nat.eqb_neq in L. split; [discriminate|].
    intros H. apply Forall2_length in H. contradiction.
Qed.

End TypeFacts.

(** ** Scopes *)

Module ScopeFacts.
Import Sema ScopeVocabulary.

Lemma find_snoc {A : Type} (f : A -> bool) (l : list A) (x : A) :
  find f (l ++ [x])
  = match find f l with
    | Some y => Some y
    | None => if f x then Some x else None
    end.
Proof.
  induction l as [|a l IH]; cbn; [reflexivity|].
  destruct (f a); [reflexivity | exact IH].
Qed.

Lemma lookupVariable_addVariable sc v name :
  lookupVariable (addVariable v sc) name
  = match own_variable sc name with
    | Some old => Some old
    | None =>
        if (v_name v =? name)%string then Some v else lookupVariable sc name
    end.
Proof.
  destruct sc as [n k vs fs cs rs p]. cbn. rewrite find_snoc.
  destruct (find _ vs); [reflexivity|].
  destruct (v_name v =? name)%string; reflexivity.
Qed.

Lemma own_variable_found sc name :
  own_variable sc name <> None -> lookupVariable sc name = own_variable sc name.
Proof.
  destruct sc as [n k vs fs cs rs p]. cbn.
  destruct (find _ vs); [reflexivity | congruence].
Qed.

Lemma addVariable_getVariable sc v :
  getVariable (addVariable v sc) (v_name v)
  = match own_variable sc (v_name v) with
    | Some old => old
    | None => v
    end.
Proof.
  unfold getVariable. rewrite lookupVariable_addVariable, String.eqb_refl.
  destruct (own_variable sc (v_name v)); reflexivity.
Qed.

(** X16: [addVariable] and the lookups. After a variable is added, a name is
    known when it is the added one or was known before; the lookup of a name
    answers with the added variable when the name is its name and the scope
    had no variable of that name of its own - whatever the parents hold -
    and otherwise as before; functions, classes and records are as before. *)
Theorem addVariable_lookup :
  forall (sc : Scope) (v : Variable_) (name : string),
    hasVariable (addVariable v sc) name
    = (v_name v =? name)%string || hasVariable sc name
    /\ getVariable (addVariable v sc) name
       = (if (v_name v =? name)%string
             && negb (is_some (own_variable sc name))
          then v else getVariable sc name)
    /\ lookupFunction (addVariable v sc) name = lookupFunction sc name
    /\ lookupClass (addVariable v sc) name = lookupClass sc name
    /\ lookupRecord (addVariable v sc) name = lookupRecord sc name.
Proof.
  intros sc v name. split; [|split].
  - unfold hasVariable. rewrite lookupVariable_addVariable.
    destruct (own_variable sc name) eqn:O.
    + rewrite own_variable_found, O by congruence. cbn. now rewrite orb_true_r.
    + destruct (v_name v =? name)%string; reflexivity.
  - unfold getVariable. rewrite lookupVariable_addVariable.
    destruct (own_variable sc name) eqn:O; cbn [is_some negb].
    + rewrite own_variable_found, O by congruence.
      now rewrite andb_false_r.
    + rewrite andb_true_r. destruct (v_name v =? name)%string; reflexivity.
  - destruct sc; repeat split; reflexivity.
Qed.

Lemma find_primitive_canonical p :
  In p primitives -> find_primitive (ty_name p) = Some p.
Proof.
  unfold primitives. cbn [In]. intros H.
  repeat (destruct H as [<-|H]; [reflexivity|]). destruct H.
Qed.

(** X17: In every scope, each primitive name resolves to the primitive type:
    no class or record of the same name can take its place. *)
Theorem primitives_resolve : forall (sc : Scope) (p : Type_),
  In p primitives ->
  hasType sc (ty_name p) = true /\ getType sc (ty_name p) = p.
Proof.
  intros sc p H. apply find_primitive_canonical in H.
  destruct sc as [n k vs fs cs rs parent]; cbn [hasType getType];
    rewrite H; auto.
Qed.

Lemma primitives_resolve_witness :
  In i64_ty primitives
  /\ hasType (mkScope "global" 0 [] [] [mkClass "i64" [] []] [] None) "i64"
     = true
  /\ getType (mkScope "global" 0 [] [] [mkClass "i64" [] []] [] None) "i64"
     = i64_ty.
Proof.
  assert (I : In i64_ty primitives) by (cbn; tauto).
  split; [exact I|].
  apply (primitives_resolve
           (mkScope "global" 0 [] [] [mkClass "i64" [] []] [] None)
           i64_ty I).
Defined.

Lemma find_primitive_kind name p :
  find_primitive name = Some p -> ty_kind p <> KNone.
Proof.
  unfold find_primitive. intros H. apply find_some in H. destruct H as (I & _).
  unfold primitives in I. cbn [In] in I.
  repeat (destruct I as [<-|I]; [discriminate|]). destruct I.
Qed.

(** X18: [getType] answers with a type of kind None exactly when [hasType]
    answers no. *)
Theorem getType_found : forall (sc : Scope) (name : string),
  hasType sc name = negb (TypeKind_eqb (ty_kind (getType sc name)) KNone).
Proof.
  fix IH 1. intros [n k vs fs cs rs p] name.
  cbn [hasType getType].
  destruct (find_primitive name) as [prim|] eqn:F; cbn [is_some].
  - pose proof (find_primitive_kind _ _ F).
    destruct (ty_kind prim); try reflexivity; congruence.
  - destruct (hasClass _ name); [reflexivity|]. cbn [orb].
    destruct (hasRecord _ name); [reflexivity|].
    destruct p as [parent|]; [apply IH | reflexivity].
Qed.

Lemma find_primitive_valid sc name p :
  find_primitive name = Some p ->
  isValidType sc p = negb (name =? "str")%string.
Proof.
  unfold find_primitive. intros H. apply find_some in H.
  destruct H as (I & N). apply String.eqb_eq in N. subst name.
  unfold primitives in I. cbn [In] in I.
  repeat (destruct I as [<-|I]; [reflexivity|]). destruct I.
Qed.

Lemma lookupClass_name : forall (sc : Scope) (name : string) (c : Class),
  lookupClass sc name = Some c -> c_name c = name.
Proof.
  fix IH 1. intros [n k vs fs cs rs p] name c H. cbn [lookupClass] in H.
  destruct (find _ cs) as [c'|] eqn:F.
  - inversion H; subst. apply find_some in F. destruct F as (_ & F).
    now apply String.eqb_eq in F.
  - destruct p as [parent|]; [|discriminate]. exact (IH parent name c H).
Qed.

Lemma lookupRecord_name : forall (sc : Scope) (name : string) (r : Record_),
  lookupRecord sc name = Some r -> r_name r = name.
Proof.
  fix IH 1. intros [n k vs fs cs rs p] name r H. cbn [lookupRecord] in H.
  destruct (find _ rs) as [r'|] eqn:F.
  - inversion H; subst. apply find_some in F. destruct F as (_ & F).
    now apply String.eqb_eq in F.
  - destruct p as [parent|]; [|discriminate]. exact (IH parent name r H).
Qed.

(** A name that is no primitive, no class and no record of a scope and
    its ancestors is no type there. *)
Lemma no_type_further : forall (sc : Scope) (name : string),
  find_primitive name = None ->
  hasClass sc name = false -> hasRecord sc name = false ->
  hasType sc name = false /\ getType sc name = mkType KNone "".
Proof.
  fix IH 1. intros [n k vs fs cs rs p] name F C R.
  cbn [hasType getType]. rewrite F, C, R. cbn [is_some orb].
  destruct p as [parent|]; [|split; reflexivity].
  apply IH; [exact F | |].
  - unfold hasClass in *. cbn [lookupClass] in C.
    destruct (find _ cs); [discriminate | exact C].
  - unfold hasRecord in *. cbn [lookupRecord] in R.
    destruct (find _ rs); [discriminate | exact R].
Qed.

(** X28: The type [getType] finds for a name is one [isValidType] accepts,
    with one exception: the primitive [str], of kind String, which
    [isPrimitive] does not count; and what [getType] does not find is not
    valid. *)
Theorem getType_isValidType : forall (sc : Scope) (name : string),
  isValidType sc (getType sc name)
  = hasType sc name && negb (name =? "str")%string.
Proof.
  intros sc name.
  destruct (find_primitive name) as [prim|] eqn:F.
  - destruct sc as [n k vs fs cs rs p]. cbn [hasType getType]. rewrite F.
    cbn [is_some andb]. now apply find_primitive_valid.
  - assert (N : (name =? "str")%string = false).
    { destruct (name =? "str")%string eqn:E; [|reflexivity].
      apply String.eqb_eq in E. subst name. vm_compute in F. discriminate. }
    rewrite N. cbn [negb]. rewrite andb_true_r.
    destruct (hasClass sc name) eqn:C.
    + destruct sc as [n k vs fs cs rs p]. cbn [hasType getType].
      rewrite F, C. cbn [is_some orb]. unfold isValidType. cbn.
      unfold hasClass in C. unfold getClass.
      destruct (lookupClass _ name) as [c|] eqn:L; [|discriminate].
      cbn [or_default]. rewrite (lookupClass_name _ _ _ L).
      unfold hasClass. now rewrite L.
    + destruct (hasRecord sc name) eqn:R.
      * destruct sc as [n k vs fs cs rs p]. cbn [hasType getType].
        rewrite F, C, R. cbn [is_some orb]. unfold isValidType. cbn.
        unfold hasRecord in R. unfold getRecord.
        destruct (lookupRecord _ name) as [r|] eqn:L; [|discriminate].
        cbn [or_default]. rewrite (lookupRecord_name _ _ _ L).
        unfold hasRecord. now rewrite L.
      * destruct (no_type_further sc name F C R) as (-> & ->). reflexivity.
Qed.

End ScopeFacts.

(** ** The analyzer and its scopes *)

Module AnalyzerFacts.
Import Ast Sema ScopeVocabulary AnalyzerVocabulary.
Local Open Scope run_scope.

Lemma extends_reflexive st : extends st st.
Proof. split; [reflexivity|]. exists []. now rewrite app_nil_r. Qed.

Lemma extends_trans a b c : extends a b -> extends b c -> extends a c.
Proof.
  intros (S1 & m1 & E1) (S2 & m2 & E2). split; [congruence|].
  exists (m1 ++ m2)%list. rewrite E2, E1. now rewrite app_assoc.
Qed.

Lemma same_frame_refl a : same_frame a a.
Proof. destruct a as [[]|]; cbn; auto. Qed.

Lemma same_frame_trans a b c :
  same_frame a b -> same_frame b c -> same_frame a c.
Proof.
  destruct a as [[]|], b as [[]|], c as [[]|]; cbn; try tauto.
  intros (-> & -> & ->) (-> & -> & ->). auto.
Qed.

Lemma same_frame_parent a b : same_frame a b -> parent_of a = parent_of b.
Proof.
  destruct a as [[]|], b as [[]|]; cbn; tauto.
Qed.

Lemma keeps_refl st : keeps st st.
Proof. split; [apply same_frame_refl|]. exists []. now rewrite app_nil_r. Qed.

Lemma keeps_trans a b c : keeps a b -> keeps b c -> keeps a c.
Proof.
  intros (S1 & m1 & E1) (S2 & m2 & E2).
  split; [eapply same_frame_trans; eauto|].
  exists (m1 ++ m2)%list. rewrite E2, E1. now rewrite app_assoc.
Qed.

Lemma keeps_leaves a b c : keeps a b -> leaves b c -> leaves a c.
Proof.
  intros (S1 & m1 & E1) (S2 & m2 & E2).
  split; [rewrite S2; symmetry; now apply same_frame_parent|].
  exists (m1 ++ m2)%list. rewrite E2, E1. now rewrite app_assoc.
Qed.

Lemma extends_keeps a b : extends a b -> keeps a b.
Proof. intros (S & E). split; [rewrite S; apply same_frame_refl | exact E]. Qed.

Section Upholds.
Context {X Y : Type}.

Lemma upholds_weaken (R R' : Analyzer -> Analyzer -> Prop) (m : A X) :
  (forall a b, R a b -> R' a b) -> upholds R m -> upholds R' m.
Proof.
  intros W H st. specialize (H st).
  destruct (m st) as [[x st']| | |]; auto.
Qed.

Lemma upholds_bind (R1 R2 R : Analyzer -> Analyzer -> Prop)
    (m : A X) (k : X -> A Y) :
  (forall a b c, R1 a b -> R2 b c -> R a c) ->
  upholds R1 m -> (forall x, upholds R2 (k x)) -> upholds R (bind m k).
Proof.
  intros T Hm Hk st. unfold bind. specialize (Hm st).
  destruct (m st) as [[x st1]| | |]; auto.
  specialize (Hk x st1). destruct (k x st1) as [[y st2]| | |]; eauto.
Qed.

Lemma preserving_framed (m : A X) : preserving m -> framed m.
Proof. apply upholds_weaken, extends_keeps. Qed.

Lemma preserving_bind (m : A X) (k : X -> A Y) :
  preserving m -> (forall x, preserving (k x)) -> preserving (bind m k).
Proof. apply upholds_bind, extends_trans. Qed.

Lemma framed_bind (m : A X) (k : X -> A Y) :
  framed m -> (forall x, framed (k x)) -> framed (bind m k).
Proof. apply upholds_bind, keeps_trans. Qed.

Lemma exiting_bind (m : A X) (k : X -> A Y) :
  framed m -> (forall x, exiting (k x)) -> exiting (bind m k).
Proof. apply upholds_bind, keeps_leaves. Qed.

Lemma preserving_ret (x : X) : preserving (ret x).
Proof. intros st. apply extends_reflexive. Qed.

Lemma preserving_crash : preserving (@crash Analyzer X).
Proof. intros st. exact I. Qed.

End Upholds.

Lemma exiting_exitScope : exiting exitScope.
Proof.
  intros st. unfold exitScope. destruct (current_scope st) as [sc|] eqn:E; cbn.
  - split; cbn; [now rewrite E|]. exists []. now rewrite app_nil_r.
  - split; [now rewrite E|]. exists []. now rewrite app_nil_r.
Qed.

(** Entering a scope, working in it and leaving it gives the scope back
    as it was. *)
Lemma preserving_enter {X} name kind (m : A X) :
  exiting m -> preserving (enterScope name kind ;; m).
Proof.
  intros H st. unfold bind, enterScope.
  destruct (current_scope st) as [sc|] eqn:E;
    match goal with
    | |- context [m ?st1] =>
        specialize (H st1); destruct (m st1) as [[x st']| | |]; auto;
        destruct H as (S & more & Es); cbn in S, Es;
        split; [now rewrite S, E | eauto]
    end.
Qed.

Lemma framed_enter {X} name kind (m : A X) :
  exiting m -> framed (enterScope name kind ;; m).
Proof. intros H. now apply preserving_framed, preserving_enter. Qed.

Lemma preserving_push d h s e : preserving (push_error d h s e).
Proof. intros st. split; [reflexivity|]. cbn. eauto. Qed.

Lemma preserving_log d h s e : preserving (Sema.log_error d h s e).
Proof.
  intros st. split; [reflexivity|]. cbn. exists []. now rewrite app_nil_r.
Qed.

Lemma preserving_scope : preserving scope.
Proof.
  intros st. unfold scope.
  destruct (current_scope st); auto using extends_reflexive.
Qed.

Lemma preserving_inScope kind : preserving (inScope kind).
Proof.
  unfold inScope. apply preserving_bind;
    [apply preserving_scope | intro; apply preserving_ret].
Qed.

Lemma preserving_when b (m : A unit) : preserving m -> preserving (when_ b m).
Proof. destruct b; cbn; auto using preserving_ret. Qed.

(** [update_scope] with one of the four [add] functions stays in the
    same frame. *)
Lemma framed_update (f : Scope -> Scope) :
  (forall sc, same_frame (Some sc) (Some (f sc))) ->
  framed (update_scope f).
Proof.
  intros H st. unfold update_scope.
  destruct (current_scope st) as [sc|] eqn:E; auto.
  split; cbn; [rewrite E; apply H|]. exists []. now rewrite app_nil_r.
Qed.

Lemma framed_addVariable v : framed (update_scope (addVariable v)).
Proof. apply framed_update. intros []; cbn; auto. Qed.

Lemma framed_addFunction f : framed (update_scope (addFunction f)).
Proof. apply framed_update. intros []; cbn; auto. Qed.

Lemma framed_addClass c : framed (update_scope (addClass c)).
Proof. apply framed_update. intros []; cbn; auto. Qed.

Lemma framed_addRecord r : framed (update_scope (addRecord r)).
Proof. apply framed_update. intros []; cbn; auto. Qed.

(** [getField] and [getMethod] throw on a member that is there and not
    accessible; behind their [has] test they do not. *)
Lemma preserving_getField fields name access :
  hasField fields name access = true ->
  preserving (getField (St := Analyzer) fields name access).
Proof.
  unfold hasField, getField. destruct (find_field fields name);
    [intros -> | discriminate]. apply preserving_ret.
Qed.

Lemma preserving_getMethod c name access :
  hasMethod c name access = true ->
  preserving (getMethod (St := Analyzer) c name access).
Proof.
  unfold hasMethod, getMethod. destruct (find_method _ name);
    [intros -> | discriminate]. apply preserving_ret.
Qed.

Lemma framed_each {T} (f : T -> A unit) (l : list T) :
  Forall (fun x => framed (f x)) l ->
  framed ((fix each (l : list T) : A unit :=
             match l with
             | [] => ret tt
             | x :: rest => f x ;; each rest
             end) l).
Proof.
  induction 1; [apply preserving_framed, preserving_ret|].
  apply framed_bind; auto.
Qed.

Lemma preserving_each {T} (f : T -> A unit) (l : list T) :
  Forall (fun x => preserving (f x)) l ->
  preserving ((fix each (l : list T) : A unit :=
                 match l with
                 | [] => ret tt
                 | x :: rest => f x ;; each rest
                 end) l).
Proof.
  induction 1; [apply preserving_ret|].
  apply preserving_bind; auto.
Qed.

Lemma framed_each_all {T} (f : T -> A unit) (l : list T) :
  (forall x, framed (f x)) ->
  framed ((fix each (l : list T) : A unit :=
             match l with
             | [] => ret tt
             | x :: rest => f x ;; each rest
             end) l).
Proof. intros H. apply framed_each. induction l; constructor; auto. Qed.

Create HintDb analyzer discriminated.
#[local] Hint Resolve preserving_ret preserving_crash
  preserving_push preserving_log preserving_scope preserving_inScope
  preserving_when preserving_getField preserving_getMethod
  preserving_framed framed_addVariable framed_addFunction framed_addClass
  framed_addRecord exiting_exitScope : analyzer.

(** Take a computation apart along its binds and branches. *)
Ltac preserve :=
  repeat first
    [ solve [auto with analyzer]
    | apply preserving_enter
    | apply framed_enter
    | apply preserving_bind; [|intro]
    | apply framed_bind; [|intro]
    | apply exiting_bind; [|intro]
    | apply preserving_each; assumption
    | apply framed_each; assumption
    | apply framed_each_all; intro; solve [auto with analyzer]
    | match goal with
      | |- _ (if negb ?b then _ else _) => destruct b eqn:?; cbn [negb]
      | |- _ (if ?b then _ else _) => destruct b eqn:?
      | |- _ (match ?x with _ => _ end) => destruct x
      | |- _ (let x := _ in _) => cbv zeta
      end ].

Lemma preserving_inferIdentifier s e name :
  preserving (inferIdentifier s e name).
Proof. unfold inferIdentifier. preserve. Qed.

Lemma preserving_construct cls types s e : preserving (construct cls types s e).
Proof. unfold construct. preserve. Qed.

#[local] Hint Resolve preserving_inferIdentifier preserving_construct
  : analyzer.

(** Induction on expressions, through the argument and element lists. *)
Section ExpressionInduction.

Variable P : Expression -> Prop.

Hypothesis H_binary : forall s e l op r,
  P l -> P r -> P (BinaryExpression s e l op r).
Hypothesis H_unary : forall s e op x, P x -> P (UnaryExpression s e op x).
Hypothesis H_literal : forall s e v t, P (LiteralExpression s e v t).
Hypothesis H_identifier : forall s e n, P (IdentifierExpression s e n).
Hypothesis H_array_identifier : forall s e n size,
  P_opt P size -> P (ArrayIdentifierExpression s e n size).
Hypothesis H_index : forall s e a i, P a -> P i -> P (IndexExpression s e a i).
Hypothesis H_call : forall s e c args,
  P c -> Forall (P_opt P) args -> P (CallExpression s e c args).
Hypothesis H_attribute : forall s e o a,
  P o -> P a -> P (AttributeExpression s e o a).
Hypothesis H_array : forall s e elements,
  Forall (P_opt P) elements -> P (ArrayExpression s e elements).

Lemma Expression_nested_ind : forall x : Expression, P x.
Proof.
  fix IH 1. intros x.
  assert (IHopt : forall o : option Expression, P_opt P o).
  { intros [y|]; [exact (IH y) | exact I]. }
  assert (IHall : forall l : list (option Expression), Forall (P_opt P) l).
  { fix IHl 1. intros [|o l].
    - constructor.
    - constructor; [|exact (IHl l)].
      destruct o as [y|]; [exact (IH y) | exact I]. }
  destruct x.
  - apply H_binary; apply IH.
  - apply H_unary; apply IH.
  - apply H_literal.
  - apply H_identifier.
  - apply H_array_identifier. apply IHopt.
  - apply H_index; apply IH.
  - apply H_call; [apply IH | apply IHall].
  - apply H_attribute; apply IH.
  - apply H_array. apply IHall.
Qed.

End ExpressionInduction.

Lemma preserving_inferAll (l : list (option Expression)) :
  Forall (P_opt (fun y => preserving (inferExpression y))) l ->
  preserving
    ((fix inferAll (l : list (option Expression)) : A (list Type_) :=
        match l with
        | [] => ret []
        | None :: _ => crash
        | Some x :: rest =>
            t <- inferExpression x ;;
            ts <- inferAll rest ;;
            ret (t :: ts)
        end) l).
Proof. induction 1 as [|o l Hy _ IHl]; [|destruct o]; preserve. Qed.

Lemma Forall_P_opt_fst (P Q : Expression -> Prop) l :
  Forall (P_opt (fun y => P y /\ Q y)) l -> Forall (P_opt P) l.
Proof.
  induction 1 as [|o l H _ IH]; constructor; auto.
  destruct o; cbn in *; tauto.
Qed.

(** Inferring the type of an expression leaves the scope as it was and
    only adds errors. *)
Lemma preserving_inferExpression : forall x : Expression,
  preserving (inferExpression x).
Proof.
  intros x.
  enough (H : preserving (inferExpression x)
              /\ match x with
                 | CallExpression _ _ _ args =>
                     Forall (P_opt (fun y => preserving (inferExpression y)))
                       args
                 | _ => True
                 end) by apply H.
  induction x using Expression_nested_ind;
    (split; [cbn [inferExpression] | try exact I]);
    repeat match goal with
           | H : _ /\ _ |- _ => destruct H
           | H : Forall (P_opt (fun y => _ /\ _)) _ |- _ =>
               apply Forall_P_opt_fst in H
           end.
  - preserve.
  - preserve.
  - preserve.
  - preserve.
  - preserve.
  - preserve.
  - pose proof (preserving_inferAll _ H). preserve.
  - assumption.
  - destruct x2; cbn in *; try solve [preserve];
      match goal with
      | H : Forall _ _ |- _ => pose proof (preserving_inferAll _ H)
      end; preserve.
  - destruct H as [|o l Hy _]; [|destruct o]; preserve.
Qed.

#[local] Hint Resolve preserving_inferExpression : analyzer.

Lemma framed_declareVariable d : framed (declareVariable d).
Proof. unfold declareVariable. preserve. Qed.

Lemma preserving_declare_members what help_ l :
  preserving (declare_members what help_ l).
Proof. induction l; cbn [declare_members]; preserve. Qed.

#[local] Hint Resolve framed_declareVariable preserving_declare_members
  : analyzer.

Lemma preserving_function_of wr wp d : preserving (function_of wr wp d).
Proof. unfold function_of. preserve. Qed.

#[local] Hint Resolve preserving_function_of : analyzer.

Lemma framed_declareFunction d : framed (declareFunction d).
Proof. unfold declareFunction. preserve. Qed.

Lemma preserving_declare_methods l : preserving (declare_methods l).
Proof. induction l; cbn [declare_methods]; preserve. Qed.

#[local] Hint Resolve framed_declareFunction preserving_declare_methods
  : analyzer.

Lemma framed_declareClass d : framed (declareClass d).
Proof. unfold declareClass. preserve. Qed.

Lemma framed_declareRecord d : framed (declareRecord d).
Proof. unfold declareRecord. preserve. Qed.

#[local] Hint Resolve framed_declareClass framed_declareRecord : analyzer.

Lemma framed_analyzeVariableDeclaration d :
  framed (analyzeVariableDeclaration d).
Proof. unfold analyzeVariableDeclaration. preserve. Qed.

Lemma framed_analyzeRecordDeclaration d : framed (analyzeRecordDeclaration d).
Proof. unfold analyzeRecordDeclaration. preserve. Qed.

Lemma preserving_analyzeModifierStatement m :
  preserving (analyzeModifierStatement m).
Proof. unfold analyzeModifierStatement. preserve. Qed.

Lemma preserving_analyzeExpressionStatement s e x :
  preserving (analyzeExpressionStatement s e x).
Proof. unfold analyzeExpressionStatement. preserve. Qed.

Lemma preserving_analyzeReturnStatement s e x :
  preserving (analyzeReturnStatement s e x).
Proof. unfold analyzeReturnStatement. preserve. Qed.

Lemma preserving_analyzeBreakStatement s e :
  preserving (analyzeBreakStatement s e).
Proof. unfold analyzeBreakStatement. preserve. Qed.

Lemma preserving_analyzeContinueStatement s e :
  preserving (analyzeContinueStatement s e).
Proof. unfold analyzeContinueStatement. preserve. Qed.

Lemma preserving_check_condition w c : preserving (check_condition w c).
Proof. unfold check_condition. preserve. Qed.

Lemma framed_declare_parameters l : framed (declare_parameters l).
Proof. induction l; cbn [declare_parameters]; preserve. Qed.

#[local] Hint Resolve framed_analyzeVariableDeclaration
  framed_analyzeRecordDeclaration preserving_analyzeModifierStatement
  preserving_analyzeExpressionStatement preserving_analyzeReturnStatement
  preserving_analyzeBreakStatement preserving_analyzeContinueStatement
  preserving_check_condition framed_declare_parameters : analyzer.

(** Statements stay in their frame; blocks and conditionals give the
    scope back as it was. *)
Lemma framed_analyzeStatement (stmt : Statement) :
  framed (analyzeStatement stmt)
with preserving_analyzeBlockStatement (b : BlockStatement) :
  preserving (analyzeBlockStatement b)
with framed_analyzeDeclaration (d : Declaration) :
  framed (analyzeDeclaration d)
with framed_analyzeFunctionDeclaration (f : FunctionDeclaration) :
  framed (analyzeFunctionDeclaration f)
with framed_analyzeClassDeclaration (c : ClassDeclaration) :
  framed (analyzeClassDeclaration c)
with preserving_analyzeConditional (c : Conditional) :
  preserving (analyzeConditional c)
with preserving_analyzeIfConditional (i : IfConditional) :
  preserving (analyzeIfConditional i).
Proof.
  - destruct stmt as [s e x|s e|s e|s e x|b|m|d|c]; cbn [analyzeStatement].
    + clear. preserve.
    + clear. preserve.
    + clear. preserve.
    + clear. preserve.
    + pose proof (preserving_analyzeBlockStatement b). clear - H. preserve.
    + clear. preserve.
    + exact (framed_analyzeDeclaration d).
    + pose proof (preserving_analyzeConditional c). clear - H. preserve.
  - destruct b as [s e statements]; cbn [analyzeBlockStatement].
    assert (H : Forall (fun x => framed (analyzeStatement x)) statements).
    { clear - framed_analyzeStatement. revert statements.
      fix IHl 1. intros [|x l]; constructor;
        [exact (framed_analyzeStatement x) | exact (IHl l)]. }
    clear - H. preserve.
  - destruct d as [v|f|c|r]; cbn [analyzeDeclaration].
    + clear. preserve.
    + exact (framed_analyzeFunctionDeclaration f).
    + exact (framed_analyzeClassDeclaration c).
    + clear. preserve.
  - destruct f as [s e identifier type modifier parameters body];
      cbn [analyzeFunctionDeclaration].
    pose proof (preserving_analyzeBlockStatement body). clear - H. preserve.
  - destruct c as [s e identifier type modifier fields methods];
      cbn [analyzeClassDeclaration].
    assert (H : Forall (fun x => framed (analyzeFunctionDeclaration x))
                  methods).
    { clear - framed_analyzeFunctionDeclaration. revert methods.
      fix IHl 1. intros [|x l]; constructor;
        [exact (framed_analyzeFunctionDeclaration x) | exact (IHl l)]. }
    clear - H. preserve.
  - destruct c as [i|s e x cases|s e x body|s e init cond inc body];
      cbn [analyzeConditional].
    + exact (preserving_analyzeIfConditional i).
    + assert (H : Forall (fun c => match c with
                                   | mkCase _ _ _ b =>
                                       preserving (analyzeBlockStatement b)
                                   end) cases).
      { clear - preserving_analyzeBlockStatement. revert cases.
        fix IHl 1. intros [|[s e c b] l]; constructor;
          [exact (preserving_analyzeBlockStatement b) | exact (IHl l)]. }
      clear - H. apply preserving_bind; [preserve|intro].
      apply preserving_bind; [preserve|intro].
      induction H as [|[] l Hb _ IHl]; preserve.
    + pose proof (preserving_analyzeBlockStatement body). clear - H. preserve.
    + pose proof (preserving_analyzeBlockStatement body).
      assert (H0 : match init with
                   | Some d => framed (analyzeDeclaration d)
                   | None => True
                   end).
      { destruct init as [d|]; [exact (framed_analyzeDeclaration d)|exact I]. }
      clear - H H0. preserve.
  - destruct i as [s e cond body elifs else_]; cbn [analyzeIfConditional].
    pose proof (preserving_analyzeBlockStatement body).
    assert (H0 : Forall (fun x => preserving (analyzeIfConditional x)) elifs).
    { clear - preserving_analyzeIfConditional. revert elifs.
      fix IHl 1. intros [|x l]; constructor;
        [exact (preserving_analyzeIfConditional x) | exact (IHl l)]. }
    assert (H1 : match else_ with
                 | Some b => preserving (analyzeBlockStatement b)
                 | None => True
                 end).
    { destruct else_ as [b|];
        [exact (preserving_analyzeBlockStatement b)|exact I]. }
    clear - H H0 H1. preserve.
Qed.

(** *** No null pointer on a complete tree *)

Lemma keeps_scope a b :
  keeps a b -> current_scope a <> None -> current_scope b <> None.
Proof.
  intros (S & _). destruct (current_scope a) as [[]|], (current_scope b);
    cbn in S; congruence || tauto.
Qed.

Section Steady.
Context {X Y : Type}.

Lemma steady_bind (m : A X) (k : X -> A Y) :
  framed m -> steady m -> (forall x, steady (k x)) -> steady (bind m k).
Proof.
  intros Hf Hm Hk st Hs. unfold bind.
  specialize (Hf st). specialize (Hm st Hs).
  destruct (m st) as [[x st1]| | |]; try congruence.
  apply Hk. eapply keeps_scope; eauto.
Qed.

Lemma steady_ret (x : X) : steady (ret x).
Proof. intros st _. discriminate. Qed.

(** After [enterScope] there is a current scope, whatever there was. *)
Lemma enter_steady name kind (m : A X) :
  steady m -> forall st, (enterScope name kind ;; m) st <> Crash.
Proof.
  intros H st. unfold bind, enterScope.
  destruct (current_scope st); apply H; discriminate.
Qed.

Lemma steady_enter name kind (m : A X) :
  steady m -> steady (enterScope name kind ;; m).
Proof. intros H st _. now apply enter_steady. Qed.

End Steady.

Lemma steady_exitScope : steady exitScope.
Proof.
  intros st _. unfold exitScope. destruct (current_scope st); discriminate.
Qed.

Lemma steady_push d h s e : steady (push_error d h s e).
Proof. intros st _. discriminate. Qed.

Lemma steady_log d h s e : steady (Sema.log_error d h s e).
Proof. intros st _. discriminate. Qed.

Lemma steady_scope : steady scope.
Proof. intros st H. unfold scope. destruct (current_scope st); congruence. Qed.

Lemma steady_update f : steady (update_scope f).
Proof.
  intros st H. unfold update_scope. destruct (current_scope st); congruence.
Qed.

Lemma steady_inScope kind : steady (inScope kind).
Proof.
  unfold inScope. apply steady_bind;
    [apply preserving_framed, preserving_scope | apply steady_scope
    | intro; apply steady_ret].
Qed.

Lemma steady_when b (m : A unit) : steady m -> steady (when_ b m).
Proof. destruct b; cbn; auto using steady_ret. Qed.

Lemma steady_getField fields name access :
  steady (getField (St := Analyzer) fields name access).
Proof.
  intros st _. unfold getField.
  destruct (find_field fields name); [destruct (canAccess _ _)|]; discriminate.
Qed.

Lemma steady_getMethod c name access :
  steady (getMethod (St := Analyzer) c name access).
Proof.
  intros st _. unfold getMethod.
  destruct (find_method _ name); [destruct (canAccess _ _)|]; discriminate.
Qed.

Lemma steady_each {T} (f : T -> A unit) (l : list T) :
  Forall (fun x => framed (f x) /\ steady (f x)) l ->
  steady ((fix each (l : list T) : A unit :=
             match l with
             | [] => ret tt
             | x :: rest => f x ;; each rest
             end) l).
Proof.
  induction 1 as [|x l [Hf Hs] _ IH]; [apply steady_ret|].
  apply steady_bind; auto.
Qed.

#[local] Hint Resolve steady_ret steady_exitScope steady_push steady_log
  steady_scope steady_update steady_inScope steady_when steady_getField
  steady_getMethod : analyzer.

(** Split what is known of a complete tree into its parts. *)
Ltac parts :=
  repeat match goal with
         | H : _ && _ = true |- _ =>
             apply andb_true_iff in H; destruct H
         | H : complete_option _ (Some _) = true |- _ => cbn in H
         | H : complete_option _ None = true |- _ => clear H
         end.

Ltac stay :=
  parts;
  repeat first
    [ solve [auto with analyzer]
    | apply steady_enter
    | apply steady_bind; [solve [preserve] | | intro]
    | apply steady_each; assumption
    | match goal with
      | |- _ (if negb ?b then _ else _) => destruct b eqn:?; cbn [negb]
      | |- _ (if ?b then _ else _) => destruct b eqn:?
      | |- _ (match ?x with _ => _ end) => destruct x
      | |- _ (let x := _ in _) => cbv zeta
      end ].

Lemma steady_inferIdentifier s e name : steady (inferIdentifier s e name).
Proof. unfold inferIdentifier. stay. Qed.

Lemma steady_construct cls types s e : steady (construct cls types s e).
Proof. unfold construct. stay. Qed.

#[local] Hint Resolve steady_inferIdentifier steady_construct : analyzer.

Lemma steady_inferAll (l : list (option Expression)) :
  Forall (P_opt (fun y => complete y = true -> steady (inferExpression y))) l ->
  complete_all l = true ->
  steady
    ((fix inferAll (l : list (option Expression)) : A (list Type_) :=
        match l with
        | [] => ret []
        | None :: _ => crash
        | Some x :: rest =>
            t <- inferExpression x ;;
            ts <- inferAll rest ;;
            ret (t :: ts)
        end) l).
Proof.
  induction 1 as [|o l Hy Hl IHl]; [|destruct o]; cbn [complete_all]; intros C.
  - stay.
  - parts. cbn in Hy. specialize (IHl ltac:(assumption)).
    assert (Hp : Forall (P_opt (fun y => preserving (inferExpression y))) l).
    { clear. induction l as [|[y|] l IH]; constructor; cbn;
        auto with analyzer. }
    pose proof (preserving_inferAll _ Hp). stay.
  - discriminate.
Qed.

Lemma preserving_inferAll_all (l : list (option Expression)) :
  preserving
    ((fix inferAll (l : list (option Expression)) : A (list Type_) :=
        match l with
        | [] => ret []
        | None :: _ => crash
        | Some x :: rest =>
            t <- inferExpression x ;;
            ts <- inferAll rest ;;
            ret (t :: ts)
        end) l).
Proof.
  apply preserving_inferAll.
  induction l as [|[y|] l IH]; constructor; cbn; auto with analyzer.
Qed.

#[local] Hint Resolve preserving_inferAll_all : analyzer.

Lemma Forall_steady_fst (T : Expression -> Prop) l :
  Forall (P_opt (fun y => complete y = true ->
                          steady (inferExpression y) /\ T y)) l ->
  Forall (P_opt (fun y => complete y = true -> steady (inferExpression y))) l.
Proof.
  induction 1 as [|o l H _ IH]; constructor; auto.
  destruct o; cbn in *; [intros C; apply (H C) | exact I].
Qed.

(** On a complete expression, inference does not stop on a null
    pointer. *)
Lemma steady_inferExpression : forall x : Expression,
  complete x = true -> steady (inferExpression x).
Proof.
  intros x.
  enough (H : complete x = true ->
              steady (inferExpression x)
              /\ match x with
                 | CallExpression _ _ _ args =>
                     Forall (P_opt (fun y => complete y = true ->
                                             steady (inferExpression y)))
                       args
                 | _ => True
                 end) by (intros C; apply (H C)).
  induction x using Expression_nested_ind; intros C;
    cbn [complete] in C; fold complete_all in C; parts;
    (split; [cbn [inferExpression] | try exact I]);
    repeat match goal with
           | H : ?c = true -> _, C : ?c = true |- _ => specialize (H C)
           | H : _ /\ _ |- _ => destruct H
           | H : Forall (P_opt (fun y => _ -> _ /\ _)) _ |- _ =>
               apply Forall_steady_fst in H
           end.
  - stay.
  - stay.
  - stay.
  - stay.
  - stay.
  - stay.
  - pose proof (steady_inferAll _ H ltac:(assumption)). stay.
  - assumption.
  - destruct x2; try solve [stay];
      cbn [complete] in *; fold complete_all in *; parts;
      match goal with
      | H : Forall _ _, C : complete_all _ = true |- _ =>
          pose proof (steady_inferAll _ H C)
      end; stay.
  - destruct H as [|o l Hy _]; [|destruct o]; cbn in *; parts;
      try discriminate; stay.
Qed.

#[local] Hint Resolve steady_inferExpression : analyzer.

Lemma steady_declareVariable d :
  complete (var_type d) = true -> steady (declareVariable d).
Proof. intros C. unfold declareVariable. stay. Qed.

Lemma steady_declare_members what help_ l :
  forallb complete_variable l = true ->
  steady (declare_members what help_ l).
Proof.
  induction l; cbn [declare_members forallb]; intros C;
    unfold complete_variable in *; stay.
Qed.

#[local] Hint Resolve steady_declareVariable steady_declare_members
  : analyzer.

Lemma steady_function_of wr wp d :
  complete_function d = true -> steady (function_of wr wp d).
Proof. destruct d; cbn [complete_function function_of]; intros C. stay. Qed.

#[local] Hint Resolve steady_function_of : analyzer.

Lemma steady_declareFunction d :
  complete_function d = true -> steady (declareFunction d).
Proof. intros C. unfold declareFunction. stay. Qed.

Lemma steady_declare_methods l :
  forallb complete_function l = true -> steady (declare_methods l).
Proof. induction l; cbn [declare_methods forallb]; intros C; stay. Qed.

#[local] Hint Resolve steady_declareFunction steady_declare_methods
  : analyzer.

Lemma steady_declareClass d :
  complete_class d = true -> steady (declareClass d).
Proof. destruct d; cbn [complete_class declareClass]; intros C. stay. Qed.

Lemma steady_declareRecord d :
  complete_record d = true -> steady (declareRecord d).
Proof. unfold complete_record, declareRecord. intros C. stay. Qed.

#[local] Hint Resolve steady_declareClass steady_declareRecord : analyzer.

Lemma steady_analyzeVariableDeclaration d :
  complete_variable d = true -> steady (analyzeVariableDeclaration d).
Proof.
  unfold complete_variable, analyzeVariableDeclaration. intros C. parts.
  destruct (var_initializer d); stay.
Qed.

Lemma steady_analyzeRecordDeclaration d :
  complete_record d = true -> steady (analyzeRecordDeclaration d).
Proof. unfold analyzeRecordDeclaration. intros C. stay. Qed.

Lemma steady_analyzeModifierStatement m : steady (analyzeModifierStatement m).
Proof. unfold analyzeModifierStatement. stay. Qed.

Lemma steady_analyzeExpressionStatement s e x :
  complete x = true -> steady (analyzeExpressionStatement s e x).
Proof. unfold analyzeExpressionStatement. intros C. stay. Qed.

Lemma steady_analyzeReturnStatement s e x :
  complete_option complete x = true -> steady (analyzeReturnStatement s e x).
Proof. unfold analyzeReturnStatement. intros C. destruct x; stay. Qed.

Lemma steady_analyzeBreakStatement s e : steady (analyzeBreakStatement s e).
Proof. unfold analyzeBreakStatement. stay. Qed.

Lemma steady_analyzeContinueStatement s e :
  steady (analyzeContinueStatement s e).
Proof. unfold analyzeContinueStatement. stay. Qed.

Lemma steady_check_condition w c :
  complete c = true -> steady (check_condition w c).
Proof. unfold check_condition. intros C. stay. Qed.

Lemma steady_declare_parameters l :
  forallb complete_variable l = true -> steady (declare_parameters l).
Proof.
  induction l; cbn [declare_parameters forallb]; intros C;
    unfold complete_variable in *; stay.
Qed.

#[local] Hint Resolve steady_analyzeVariableDeclaration
  steady_analyzeRecordDeclaration steady_analyzeModifierStatement
  steady_analyzeExpressionStatement steady_analyzeReturnStatement
  steady_analyzeBreakStatement steady_analyzeContinueStatement
  steady_check_condition steady_declare_parameters : analyzer.

#[local] Hint Resolve framed_analyzeStatement preserving_analyzeBlockStatement
  framed_analyzeDeclaration framed_analyzeFunctionDeclaration
  framed_analyzeClassDeclaration preserving_analyzeConditional
  preserving_analyzeIfConditional : analyzer.

Lemma preserving_cases (l : list CaseBranch) :
  preserving ((fix each (l : list CaseBranch) : A unit :=
                 match l with
                 | [] => ret tt
                 | mkCase _ _ _ then_branch :: rest =>
                     analyzeBlockStatement then_branch ;; each rest
                 end) l).
Proof. induction l as [|[] l IH]; preserve. Qed.

#[local] Hint Resolve preserving_cases : analyzer.

(** On a complete tree the analysis of a statement does not stop on a
    null pointer. *)
Lemma steady_analyzeStatement (stmt : Statement) :
  complete_statement stmt = true -> steady (analyzeStatement stmt)
with steady_analyzeBlockStatement (b : BlockStatement) :
  complete_block b = true -> steady (analyzeBlockStatement b)
with steady_analyzeDeclaration (d : Declaration) :
  complete_declaration d = true -> steady (analyzeDeclaration d)
with steady_analyzeFunctionDeclaration (f : FunctionDeclaration) :
  complete_function f = true -> steady (analyzeFunctionDeclaration f)
with steady_analyzeClassDeclaration (c : ClassDeclaration) :
  complete_class c = true -> steady (analyzeClassDeclaration c)
with steady_analyzeConditional (c : Conditional) :
  complete_conditional c = true -> steady (analyzeConditional c)
with steady_analyzeIfConditional (i : IfConditional) :
  complete_if i = true -> steady (analyzeIfConditional i).
Proof.
  - destruct stmt as [s e x|s e|s e|s e x|b|m|d|c];
      cbn [analyzeStatement complete_statement]; intros C.
    + clear - C. stay.
    + clear. stay.
    + clear. stay.
    + clear - C. stay.
    + exact (steady_analyzeBlockStatement b C).
    + clear. stay.
    + exact (steady_analyzeDeclaration d C).
    + exact (steady_analyzeConditional c C).
  - destruct b as [s e statements];
      cbn [analyzeBlockStatement complete_block]; intros C.
    assert (H : Forall (fun x => framed (analyzeStatement x)
                                 /\ steady (analyzeStatement x)) statements).
    { clear - steady_analyzeStatement C. revert statements C.
      fix IHl 1. intros [|x l]; cbn [forallb]; intros C; constructor;
        apply andb_true_iff in C; destruct C as [C1 C2].
      - split; [apply framed_analyzeStatement
               | exact (steady_analyzeStatement x C1)].
      - exact (IHl l C2). }
    clear - H. stay.
  - destruct d as [v|f|c|r]; cbn [analyzeDeclaration complete_declaration];
      intros C.
    + clear - C. stay.
    + exact (steady_analyzeFunctionDeclaration f C).
    + exact (steady_analyzeClassDeclaration c C).
    + clear - C. stay.
  - pose proof (steady_declareFunction f) as Hd.
    destruct f as [s e identifier type modifier parameters body];
      cbn [analyzeFunctionDeclaration complete_function]; intros C.
    specialize (Hd C). cbn [complete_function] in C. parts.
    pose proof (steady_analyzeBlockStatement body ltac:(assumption)).
    clear - Hd H H0 H1 H2. stay.
  - pose proof (steady_declareClass c) as Hd.
    destruct c as [s e identifier type modifier fields methods];
      cbn [analyzeClassDeclaration complete_class]; intros C.
    specialize (Hd C). cbn [complete_class] in C. parts.
    assert (H1 : Forall (fun x => framed (analyzeFunctionDeclaration x)
                                  /\ steady (analyzeFunctionDeclaration x))
                   methods).
    { clear - steady_analyzeFunctionDeclaration H0. revert methods H0.
      fix IHl 1. intros [|x l]; cbn [forallb]; intros C; constructor;
        apply andb_true_iff in C; destruct C as [C1 C2].
      - split; [apply framed_analyzeFunctionDeclaration
               | exact (steady_analyzeFunctionDeclaration x C1)].
      - exact (IHl l C2). }
    clear - Hd H1. stay.
  - destruct c as [i|s e x cases|s e x body|s e init cond inc body];
      cbn [analyzeConditional complete_conditional]; intros C.
    + exact (steady_analyzeIfConditional i C).
    + parts.
      assert (H1 : Forall (fun c => match c with
                                    | mkCase _ _ _ b =>
                                        steady (analyzeBlockStatement b)
                                    end) cases).
      { clear - steady_analyzeBlockStatement H0. revert cases H0.
        fix IHl 1. intros [|[s e c b] l]; cbn [forallb]; intros C;
          constructor; apply andb_true_iff in C; destruct C as [C1 C2].
        - exact (steady_analyzeBlockStatement b C1).
        - exact (IHl l C2). }
      clear - H H1. apply steady_bind; [preserve|stay|intro].
      apply steady_bind; [preserve|stay|intro].
      induction H1 as [|[] l Hb _ IHl]; stay.
    + parts. pose proof (steady_analyzeBlockStatement body ltac:(assumption)).
      clear - H H1. stay.
    + apply andb_true_iff in C. destruct C as [C Cb].
      apply andb_true_iff in C. destruct C as [C Ci].
      apply andb_true_iff in C. destruct C as [Cd Cc].
      pose proof (steady_analyzeBlockStatement body Cb).
      assert (H0 : match init with
                   | Some d => steady (analyzeDeclaration d)
                   | None => True
                   end).
      { destruct init as [d|];
          [exact (steady_analyzeDeclaration d Cd) | exact I]. }
      clear - H H0 Cc Ci. destruct init, cond, inc; cbn in Cc, Ci; stay.
  - destruct i as [s e cond body elifs else_];
      cbn [analyzeIfConditional complete_if]; intros C.
    apply andb_true_iff in C. destruct C as [C Ce].
    apply andb_true_iff in C. destruct C as [C Cl].
    apply andb_true_iff in C. destruct C as [Cc Cb].
    pose proof (steady_analyzeBlockStatement body Cb).
    assert (H0 : Forall (fun x => framed (analyzeIfConditional x)
                                  /\ steady (analyzeIfConditional x)) elifs).
    { clear - steady_analyzeIfConditional Cl. revert elifs Cl.
      fix IHl 1. intros [|x l]; cbn [forallb]; intros C; constructor;
        apply andb_true_iff in C; destruct C as [C1 C2].
      - split; [apply preserving_framed, preserving_analyzeIfConditional
               | exact (steady_analyzeIfConditional x C1)].
      - exact (IHl l C2). }
    assert (H1 : match else_ with
                 | Some b => steady (analyzeBlockStatement b)
                 | None => True
                 end).
    { destruct else_ as [b|];
        [exact (steady_analyzeBlockStatement b Ce) | exact I]. }
    clear - H H0 H1 Cc. destruct else_; stay.
Qed.

(** *** What the analysis does to the analyzer *)

(** X19: Inferring the type of an expression never throws; when it returns,
    the current scope is the one it started in and the errors from before
    are still there, in front of the new ones. *)
Theorem inferExpression_keeps_scope :
  forall (x : Expression) (st : Analyzer),
    match inferExpression x st with
    | Ok (_, st') => extends st st'
    | Crash => True
    | Thrown _ => False
    | OutOfFuel => False
    end.
Proof. exact preserving_inferExpression. Qed.

(** X20: Analyzing a statement never throws. When it returns, the analyzer
    is in the scope it started in, possibly with more declarations (same
    name, kind and parent), and no error was removed; after a block or a
    conditional the scope is exactly the one from before. *)
Theorem statements_keep_the_scope :
  (forall (stmt : Statement) (st : Analyzer),
     match analyzeStatement stmt st with
     | Ok (_, st') => keeps st st'
     | Crash => True
     | Thrown _ => False
     | OutOfFuel => False
     end)
  /\ (forall (b : BlockStatement) (st : Analyzer),
        match analyzeBlockStatement b st with
        | Ok (_, st') => extends st st'
        | Crash => True
        | Thrown _ => False
        | OutOfFuel => False
        end)
  /\ (forall (c : Conditional) (st : Analyzer),
        match analyzeConditional c st with
        | Ok (_, st') => extends st st'
        | Crash => True
        | Thrown _ => False
        | OutOfFuel => False
        end).
Proof.
  split; [exact framed_analyzeStatement|].
  split; [exact preserving_analyzeBlockStatement|].
  exact preserving_analyzeConditional.
Qed.

Lemma framed_analyze_each l : framed (analyze_each l).
Proof. induction l; cbn [analyze_each]; preserve. Qed.

Lemma preserving_analyze program : preserving (analyze program).
Proof.
  unfold analyze. pose proof (framed_analyze_each (prog_statements program)).
  preserve.
Qed.

(** X21: [analyze] never throws, and when it returns the analyzer has the
    current scope it had before (for a fresh analyzer: none) and its earlier
    errors in front of the new ones: the global scope and all that was
    declared in it are gone. *)
Theorem analyze_restores_scope :
  forall (program : Program) (st : Analyzer),
    match analyze program st with
    | Ok (_, st') =>
        current_scope st' = current_scope st
        /\ exists more, errors st' = (errors st ++ more)%list
    | Crash => True
    | Thrown _ => False
    | OutOfFuel => False
    end.
Proof. exact preserving_analyze. Qed.

(** X22: On an expression without null children, in an analyzer that has a
    current scope, type inference returns. *)
Theorem inferExpression_returns :
  forall (x : Expression) (st : Analyzer),
    complete x = true -> current_scope st <> None ->
    exists t st', inferExpression x st = Ok (t, st') /\ extends st st'.
Proof.
  intros x st C S.
  pose proof (preserving_inferExpression x st) as H.
  pose proof (steady_inferExpression x C st S) as N.
  destruct (inferExpression x st) as [[t st']| | |]; try tauto. eauto.
Qed.

Lemma inferExpression_returns_witness :
  complete call_f_a = true
  /\ current_scope with_f_and_a <> None
  /\ exists t st',
       inferExpression call_f_a with_f_and_a = Ok (t, st')
       /\ extends with_f_and_a st'.
Proof.
  split; [reflexivity|]. split; [discriminate|].
  apply inferExpression_returns; [reflexivity | discriminate].
Defined.

#[local] Hint Resolve steady_analyzeStatement : analyzer.

Lemma steady_analyze_each l :
  forallb complete_statement l = true -> steady (analyze_each l).
Proof.
  induction l; cbn [analyze_each forallb]; intros C; stay.
Qed.

(** X23: On a program without null children, [analyze] returns, from every
    analyzer: it dereferences no null pointer and throws nothing. *)
Theorem analyze_returns :
  forall (program : Program) (st : Analyzer),
    complete_program program = true ->
    exists st', analyze program st = Ok (tt, st') /\ extends st st'.
Proof.
  intros program st C.
  pose proof (preserving_analyze program st) as H.
  assert (N : analyze program st <> Crash).
  { unfold analyze. apply enter_steady.
    apply steady_bind;
      [apply framed_analyze_each | now apply steady_analyze_each
      | intro; apply steady_exitScope]. }
  destruct (analyze program st) as [[[] st']| | |]; try tauto. eauto.
Qed.

Lemma analyze_returns_witness :
  complete_program (parsed counting_source) = true
  /\ exists st',
       analyze (parsed counting_source) Analyzer_new = Ok (tt, st')
       /\ extends Analyzer_new st'.
Proof.
  split; [vm_compute; reflexivity|].
  apply analyze_returns. vm_compute. reflexivity.
Defined.

(** *** Calls *)

(** X24: The type of a call whose callee is a function is always [none], an
    invalid type: the callee's type is converted to a function object that
    has the name only, no parameters and the return type [none]. With no
    argument the call passes the argument check and nothing is reported. *)
Theorem function_call_has_no_type :
  forall (s e : Locus) (callee : Expression)
         (arguments : list (option Expression))
         (st st1 st' : Analyzer) (callee_type t : Type_),
    inferExpression callee st = Ok (callee_type, st1) ->
    ty_kind callee_type = KFunction ->
    inferExpression (CallExpression s e callee arguments) st = Ok (t, st') ->
    t = none_ty /\ isValid t = false
    /\ (arguments = [] -> st' = st1).
Proof.
  intros s e callee arguments st st1 st' ct t H K R.
  cbn [inferExpression] in R. rewrite (bind_step _ _ _ _ _ H) in R.
  rewrite K in R. cbn [TypeKind_eqb] in R.
  apply bind_Ok in R. destruct R as (types & st2 & I & R).
  destruct arguments as [|a rest].
  - inversion I; subst. cbn in R. inversion R; subst. auto.
  - destruct (isValidArguments _ types).
    + inversion R; subst. repeat split. discriminate.
    + unfold bind, push_error, ret in R. inversion R; subst.
      repeat split. discriminate.
Qed.

Lemma function_call_has_no_type_witness :
  exists t st',
    inferExpression call_f_a with_f_and_a = Ok (t, st')
    /\ t = none_ty /\ isValid t = false.
Proof.
  destruct (inferExpression call_f_a with_f_and_a) as [[t st']| | |] eqn:R;
    try (vm_compute in R; discriminate).
  exists t, st'. split; [reflexivity|].
  destruct (function_call_has_no_type (one_line 0) (one_line 4)
              (IdentifierExpression (one_line 0) (one_line 1) "f")
              [Some (IdentifierExpression (one_line 2) (one_line 3) "a")]
              with_f_and_a with_f_and_a st' (mkType KFunction "f") t)
    as (H1 & H2 & _);
    [vm_compute; reflexivity | reflexivity | exact R | auto].
Defined.

(** *** Declaring a name twice *)

(** X25: [declareVariable] answers with the first variable of that name in
    the current scope: a second declaration of a name is added behind the
    first and never found, and since the answer carries the declared name it
    is valid whenever that name is not empty, so that nothing is reported. *)
Theorem declareVariable_first_wins :
  forall (decl : VariableDeclaration) (st st1 : Analyzer) (sc : Scope)
         (t : Type_),
    inferExpression (var_type decl) st = Ok (t, st1) ->
    current_scope st1 = Some sc ->
    let name := id_name (var_identifier decl) in
    let var := match own_variable sc name with
               | Some old => old
               | None => variable_of name t (var_modifier decl)
               end in
    exists st',
      declareVariable decl st = Ok (var, st')
      /\ v_name var = name
      /\ Variable_isValid var = negb (str_empty name).
Proof.
  intros decl st st1 sc t H C name var.
  assert (N : v_name var = name).
  { subst var. destruct sc as [n k vs fs cs rs p]. cbn [own_variable].
    destruct (find _ vs) as [old|] eqn:F; [|reflexivity].
    apply find_some in F. destruct F as [_ F]. now apply String.eqb_eq in F. }
  unfold declareVariable. fold name. rewrite (bind_step _ _ _ _ _ H).
  unfold bind, when_, update_scope, scope, push_error, ret.
  destruct (negb (isValid t)); cbn; rewrite C; cbn;
    (eexists; split;
     [ f_equal; f_equal;
       exact (ScopeFacts.addVariable_getVariable sc
                (variable_of name t (var_modifier decl)))
     | split; [exact N | unfold Variable_isValid; now rewrite N] ]).
Qed.

Lemma declareVariable_first_wins_witness :
  exists st',
    declareVariable second_a with_f_and_a
    = Ok (mkVariable "a" i64_ty Public Modifier_None, st').
Proof.
  destruct (declareVariable_first_wins second_a with_f_and_a with_f_and_a
              (mkScope "global" 0
                 [mkVariable "a" i64_ty Public Modifier_None]
                 [mkFunction "f" i64_ty [] Public Modifier_None] [] [] None)
              string_ty eq_refl eq_refl) as (st' & H & _).
  exists st'. exact H.
Defined.

(** *** The kinds of nested scopes *)

Lemma hasFlag_lor flags more flag :
  hasFlag flags flag = true -> hasFlag (N.lor flags more) flag = true.
Proof.
  unfold hasFlag. intros H. apply N.eqb_eq in H. apply N.eqb_eq.
  apply N.bits_inj. intros n.
  apply (f_equal (fun x => N.testbit x n)) in H.
  rewrite N.land_spec in *. rewrite N.lor_spec.
  destruct (N.testbit flags n), (N.testbit more n), (N.testbit flag n);
    cbn in *; congruence.
Qed.

Lemma hasFlag_own flags flag : hasFlag (N.lor flags flag) flag = true.
Proof.
  unfold hasFlag. apply N.eqb_eq. apply N.bits_inj. intros n.
  rewrite N.land_spec, N.lor_spec.
  destruct (N.testbit flags n), (N.testbit flag n); reflexivity.
Qed.

(** X26: A scope inherits the kinds of the scopes around it: every kind that
    the test [hasFlag(current_scope->kind, k)] found before [enterScope], it
    finds after it, and the kind entered as well. So the body of a function
    declared inside a loop is still in a loop. *)
Theorem enterScope_inherits :
  forall (st : Analyzer) (sc : Scope) (name : string) (kind k : ScopeKind),
    current_scope st = Some sc ->
    inScope k st = Ok (true, st) ->
    exists st',
      enterScope name kind st = Ok (tt, st')
      /\ inScope k st' = Ok (true, st')
      /\ inScope kind st' = Ok (true, st').
Proof.
  intros st sc name kind k C H.
  unfold inScope, bind, scope, ret in H. rewrite C in H.
  assert (F : hasFlag (sc_kind sc) (ScopeKind_value k) = true)
    by (inversion H; reflexivity).
  unfold enterScope. rewrite C. eexists. split; [reflexivity|].
  unfold inScope, bind, scope, ret. cbn [current_scope sc_kind].
  now rewrite hasFlag_lor, hasFlag_own.
Qed.

Lemma enterScope_inherits_witness :
  exists st',
    enterScope "f" FunctionScope
      (mkAnalyzer (Some (mkScope "while" 3 [] [] [] [] None)) [] [])
    = Ok (tt, st')
    /\ inScope Loop st' = Ok (true, st')
    /\ inScope FunctionScope st' = Ok (true, st').
Proof.
  apply (enterScope_inherits
           (mkAnalyzer (Some (mkScope "while" 3 [] [] [] [] None)) [] [])
           (mkScope "while" 3 [] [] [] [] None) "f" FunctionScope Loop);
    reflexivity.
Defined.

End AnalyzerFacts.
